(** * gb-emu: a shallow embedding of the register blocks, the loader, the
      command line and the main loop, with the properties proved of them.

    The development follows the C sources:
    - [ppu/lcd.c] and [ppu/lcd.h]: the LCD register block;
    - [io.c]: the I/O register dispatch;
    - [CPU/instruction.h]: the opcode bit-field macros;
    - the cartridge loader ([load_cartridge], [verify_header_checksum])
      and [cartridge_info];
    - [options.c]: the command-line parser, run by glibc's argp;
    - [main]: the entry point and the main loop.

    Machine integers are modelled as [Z] with the wrap-around of every
    assignment to a [u8] object written out ([to_u8]).  Global variables
    become fields of an explicit state, functions that can stop the
    program return a [result]. *)

From Stdlib Require Import ZArith List String Ascii Bool Lia.
Import ListNotations.

Local Open Scope string_scope.
Local Open Scope list_scope.
Local Open Scope Z_scope.

(* ================================================================== *)
(** * Machine integers *)

(** Conversion to [u8] (unsigned char): reduction modulo 2^8. *)
Definition to_u8 (x : Z) : Z := x mod 2 ^ 8.

Definition is_u8 (x : Z) : Prop := 0 <= x < 256.

(** Modelled from the spec: the macros [BETWEEN] and [IN_RANGE] of
    [utils/macro.h] are not among the sources.  Their uses name closed
    ranges (``CGB 0xFF68-6B'', ``changed LY or LYC'' for 0xFF44..0xFF45,
    the timer registers DIV..TAC), so both are the inclusive test. *)
Definition BETWEEN (x lo hi : Z) : bool := (lo <=? x) && (x <=? hi).

Definition IN_RANGE (x lo hi : Z) : bool := (lo <=? x) && (x <=? hi).

(* ================================================================== *)
(** * Diagnostics and abnormal termination *)

Inductive log_arg : Type :=
| ArgHex (n : Z)
| ArgStr (s : string).

(** One line written by [log_warn] or [log_err]: the format string and
    its argument.  The macro [HEX], a conversion specification spliced
    into the format strings, is not among the sources; it is kept as the
    word HEX. *)
Inductive log_entry : Type :=
| log_warn (fmt : string) (arg : log_arg)
| log_err (fmt : string) (arg : log_arg).

(** The outcome of a call that may stop the program.
    - [AssertFailed]: the condition of an [ASSERT_MSG] was false;
    - [NotImplemented]: the call reached [NOT_IMPLEMENTED]; that macro is
      not among the sources, the model stops there (what the program does
      afterwards is left open);
    - [OutsideObject]: an access through a byte pointer left the object it
      points into (undefined behaviour in C). *)
Inductive result (A : Type) : Type :=
| Ok (a : A)
| AssertFailed (msg : string)
| NotImplemented (msg : string)
| OutsideObject.

Arguments Ok {A} a.
Arguments AssertFailed {A} msg.
Arguments NotImplemented {A} msg.
Arguments OutsideObject {A}.

Definition bind {A B : Type} (r : result A) (k : A -> result B) : result B :=
  match r with
  | Ok a => k a
  | AssertFailed msg => AssertFailed msg
  | NotImplemented msg => NotImplemented msg
  | OutsideObject => OutsideObject
  end.

Notation "x <- r ;; k" := (bind r (fun x => k))
  (at level 61, r at next level, right associativity).

Definition completes {A : Type} (r : result A) : Prop := exists a, r = Ok a.

(** Store into a list at an index; indices past the end leave it alone
    (the callers below only use indices inside the array). *)
Fixpoint list_set {A : Type} (i : nat) (v : A) (l : list A) : list A :=
  match l, i with
  | [], _ => []
  | _ :: t, O => v :: t
  | h :: t, S j => h :: list_set j v t
  end.

(* ================================================================== *)
(** * The LCD register block ([ppu/lcd.h], [ppu/lcd.c]) *)

Module LCD.

(** [struct lcd]: sixteen [u8] fields, in declaration order.  The nested
    structs [dmg] and [cgb_colors] are flattened, [obp] is unrolled. *)
Record lcd : Type := mk_lcd {
  lcdc : Z;            (* 0xFF40 *)
  stat : Z;            (* 0xFF41 *)
  scy : Z;             (* 0xFF42 *)
  scx : Z;             (* 0xFF43 *)
  ly : Z;              (* 0xFF44 *)
  lyc : Z;             (* 0xFF45 *)
  dma : Z;             (* 0xFF46 *)
  dmg_bgp : Z;         (* 0xFF47 *)
  dmg_obp0 : Z;        (* 0xFF48 *)
  dmg_obp1 : Z;        (* 0xFF49 *)
  wy : Z;              (* 0xFF4A *)
  wx : Z;              (* 0xFF4B *)
  cgb_bgpi : Z;        (* 0xFF68 *)
  cgb_bgpd : Z;        (* 0xFF69 *)
  cgb_obpi : Z;        (* 0xFF6A *)
  cgb_obpd : Z         (* 0xFF6B *)
}.

Definition set_lcdc (v : Z) (l : lcd) : lcd :=
  let (_, b, c, d, e, f, g, h, i, j, k, m, n, o, p, q) := l in
  mk_lcd v b c d e f g h i j k m n o p q.
Definition set_stat (v : Z) (l : lcd) : lcd :=
  let (a, _, c, d, e, f, g, h, i, j, k, m, n, o, p, q) := l in
  mk_lcd a v c d e f g h i j k m n o p q.
Definition set_scy (v : Z) (l : lcd) : lcd :=
  let (a, b, _, d, e, f, g, h, i, j, k, m, n, o, p, q) := l in
  mk_lcd a b v d e f g h i j k m n o p q.
Definition set_scx (v : Z) (l : lcd) : lcd :=
  let (a, b, c, _, e, f, g, h, i, j, k, m, n, o, p, q) := l in
  mk_lcd a b c v e f g h i j k m n o p q.
Definition set_ly (v : Z) (l : lcd) : lcd :=
  let (a, b, c, d, _, f, g, h, i, j, k, m, n, o, p, q) := l in
  mk_lcd a b c d v f g h i j k m n o p q.
Definition set_lyc (v : Z) (l : lcd) : lcd :=
  let (a, b, c, d, e, _, g, h, i, j, k, m, n, o, p, q) := l in
  mk_lcd a b c d e v g h i j k m n o p q.
Definition set_dma (v : Z) (l : lcd) : lcd :=
  let (a, b, c, d, e, f, _, h, i, j, k, m, n, o, p, q) := l in
  mk_lcd a b c d e f v h i j k m n o p q.
Definition set_dmg_bgp (v : Z) (l : lcd) : lcd :=
  let (a, b, c, d, e, f, g, _, i, j, k, m, n, o, p, q) := l in
  mk_lcd a b c d e f g v i j k m n o p q.
Definition set_dmg_obp0 (v : Z) (l : lcd) : lcd :=
  let (a, b, c, d, e, f, g, h, _, j, k, m, n, o, p, q) := l in
  mk_lcd a b c d e f g h v j k m n o p q.
Definition set_dmg_obp1 (v : Z) (l : lcd) : lcd :=
  let (a, b, c, d, e, f, g, h, i, _, k, m, n, o, p, q) := l in
  mk_lcd a b c d e f g h i v k m n o p q.
Definition set_wy (v : Z) (l : lcd) : lcd :=
  let (a, b, c, d, e, f, g, h, i, j, _, m, n, o, p, q) := l in
  mk_lcd a b c d e f g h i j v m n o p q.
Definition set_wx (v : Z) (l : lcd) : lcd :=
  let (a, b, c, d, e, f, g, h, i, j, k, _, n, o, p, q) := l in
  mk_lcd a b c d e f g h i j k v n o p q.
Definition set_cgb_bgpi (v : Z) (l : lcd) : lcd :=
  let (a, b, c, d, e, f, g, h, i, j, k, m, _, o, p, q) := l in
  mk_lcd a b c d e f g h i j k m v o p q.
Definition set_cgb_bgpd (v : Z) (l : lcd) : lcd :=
  let (a, b, c, d, e, f, g, h, i, j, k, m, n, _, p, q) := l in
  mk_lcd a b c d e f g h i j k m n v p q.
Definition set_cgb_obpi (v : Z) (l : lcd) : lcd :=
  let (a, b, c, d, e, f, g, h, i, j, k, m, n, o, _, q) := l in
  mk_lcd a b c d e f g h i j k m n o v q.
Definition set_cgb_obpd (v : Z) (l : lcd) : lcd :=
  let (a, b, c, d, e, f, g, h, i, j, k, m, n, o, p, _) := l in
  mk_lcd a b c d e f g h i j k m n o p v.

(** Size of [struct lcd] and the offset of its member [cgb_colors]: every
    member is a [u8], so the members lie at consecutive bytes. *)
Definition sizeof_lcd : Z := 16.
Definition offsetof_cgb_colors : Z := 12.

(** [((u8 * )&g_lcd)[off] = v]: a store through the byte view of the
    struct.  Offsets outside the struct are outside the object. *)
Definition poke (off v : Z) (l : lcd) : result lcd :=
  match off with
  | 0 => Ok (set_lcdc v l)
  | 1 => Ok (set_stat v l)
  | 2 => Ok (set_scy v l)
  | 3 => Ok (set_scx v l)
  | 4 => Ok (set_ly v l)
  | 5 => Ok (set_lyc v l)
  | 6 => Ok (set_dma v l)
  | 7 => Ok (set_dmg_bgp v l)
  | 8 => Ok (set_dmg_obp0 v l)
  | 9 => Ok (set_dmg_obp1 v l)
  | 10 => Ok (set_wy v l)
  | 11 => Ok (set_wx v l)
  | 12 => Ok (set_cgb_bgpi v l)
  | 13 => Ok (set_cgb_bgpd v l)
  | 14 => Ok (set_cgb_obpi v l)
  | 15 => Ok (set_cgb_obpd v l)
  | _ => OutsideObject
  end.

(** [((u8 * )&g_lcd)[off]]: a load through the byte view of the struct. *)
Definition peek (off : Z) (l : lcd) : result Z :=
  match off with
  | 0 => Ok (lcdc l)
  | 1 => Ok (stat l)
  | 2 => Ok (scy l)
  | 3 => Ok (scx l)
  | 4 => Ok (ly l)
  | 5 => Ok (lyc l)
  | 6 => Ok (dma l)
  | 7 => Ok (dmg_bgp l)
  | 8 => Ok (dmg_obp0 l)
  | 9 => Ok (dmg_obp1 l)
  | 10 => Ok (wy l)
  | 11 => Ok (wx l)
  | 12 => Ok (cgb_bgpi l)
  | 13 => Ok (cgb_bgpd l)
  | 14 => Ok (cgb_obpi l)
  | 15 => Ok (cgb_obpd l)
  | _ => OutsideObject
  end.

(** [typedef shade palette[4]] and the constant table [default_palette]. *)
Definition default_palette : list Z :=
  [ 0xFFFFFFFF; 0xFFAAAAAA; 0xFF555555; 0xFF000000 ].

Definition sizeof_palette_in_shades : nat := 4.

(** The globals of [lcd.c]: [g_lcd], [g_palettes] (the [dmg] member of the
    union, as the twelve shades of [bg], [obj[0]], [obj[1]] in order), and
    the lines logged so far (oldest first). *)
Record lcd_state : Type := mk_lcd_state {
  g_lcd : lcd;
  g_palettes : list Z;
  lcd_log : list log_entry
}.

Definition with_lcd (l : lcd) (st : lcd_state) : lcd_state :=
  mk_lcd_state l (g_palettes st) (lcd_log st).

Definition with_palettes (p : list Z) (st : lcd_state) : lcd_state :=
  mk_lcd_state (g_lcd st) p (lcd_log st).

Definition add_log (e : log_entry) (st : lcd_state) : lcd_state :=
  mk_lcd_state (g_lcd st) (g_palettes st) (lcd_log st ++ [e]).

(** Objects with static storage start zeroed. *)
Definition zero_lcd : lcd := mk_lcd 0 0 0 0 0 0 0 0 0 0 0 0 0 0 0 0.

Definition static_lcd_state : lcd_state :=
  mk_lcd_state zero_lcd (repeat 0 12) [].

(** [enum palette_name]: only the value of [INVALID] is used. *)
Definition INVALID : Z := 3.

(** [lcd_get_palette]: the index is only checked; the pointer returned is
    always [g_palettes.dmg.bg] advanced by [sizeof(palette)] bytes, that is
    shade number 4 of [g_palettes]. *)
Definition lcd_get_palette (index : Z) : result nat :=
  if index <? INVALID
  then Ok (0 + sizeof_palette_in_shades)%nat
  else AssertFailed "LCD: Invalid palette index %d.".

Definition SHADE (data index : Z) : Z :=
  nth (Z.to_nat (Z.land (Z.shiftr data (2 * index)) 3)) default_palette 0.

Section WithPaletteNames.

(** The enumerator [BG_PALETTE] compared against in [lcd_update_palette]
    is not declared in the sources; it is a parameter. *)
Variable BG_PALETTE : Z.

Definition lcd_update_palette (name data : Z) (st : lcd_state)
  : result lcd_state :=
  palette_ptr <- lcd_get_palette name ;;
  let p0 := list_set (palette_ptr + 0) (SHADE data 0) (g_palettes st) in
  let p1 := list_set (palette_ptr + 1) (SHADE data 1) p0 in
  let p2 := list_set (palette_ptr + 2) (SHADE data 2) p1 in
  let p3 := if name =? BG_PALETTE
            then list_set (palette_ptr + 3) (SHADE data 3) p2
            else p2 in
  Ok (with_palettes p3 st).

(** [init_lcd] *)
Definition init_lcd (st : lcd_state) : lcd_state :=
  let l := g_lcd st in
  let l := set_lcdc 0x91 l in
  let l := set_scx 0 l in
  let l := set_scy 0 l in
  let l := set_wx 0 l in
  let l := set_wy 0 l in
  let l := set_ly 0 l in
  let l := set_lyc 0 l in
  let l := set_dmg_bgp 0xFC l in
  let l := set_dmg_obp0 0xFF l in
  let l := set_dmg_obp1 0xFF l in
  let p := default_palette ++ default_palette ++ default_palette in
  let l := set_stat 0 l in
  let l := set_stat (to_u8 (Z.lor (stat l) (Z.shiftl 1 2))) l in
  mk_lcd_state l p (lcd_log st).

(** The tail of [write_lcd]: after a change of LY or LYC, refresh the
    LYC flag (bit 2) of STAT. *)
Definition update_lyc_flag (address : Z) (st : lcd_state) : lcd_state :=
  if BETWEEN address 0xFF44 0xFF45 then
    let l := g_lcd st in
    if ly l =? lyc l
    then with_lcd (set_stat (to_u8 (Z.lor (stat l) (Z.shiftl 1 2))) l) st
    else with_lcd
           (set_stat (to_u8 (Z.land (stat l) (Z.lnot (Z.shiftl 1 2)))) l) st
  else st.

(** The [default:] label of the switch in [write_lcd]. *)
Definition write_lcd_default (address value : Z) (st : lcd_state)
  : result lcd_state :=
  if address <=? 0xFF4B then
    l <- poke (address - 0xFF40) value (g_lcd st) ;;
    Ok (with_lcd l st)
  else if BETWEEN address 0xFF68 0xFF6B then
    l <- poke (offsetof_cgb_colors + (address - 0xFF68)) value (g_lcd st) ;;
    Ok (with_lcd l st)
  else
    Ok (add_log (log_warn "LCD: Invalid write address: HEX. Skipping."
                          (ArgHex address)) st).

(** [write_lcd]; [value] is a [u8]. *)
Definition write_lcd (address value : Z) (st : lcd_state)
  : result lcd_state :=
  if address =? 0xFF41 then
    (* 3 lower bits are read only and bit 7 is always set *)
    let l := g_lcd st in
    let l := set_stat (to_u8 (Z.land (stat l) 0x7)) l in
    let l := set_stat (to_u8 (Z.lor (stat l) (Z.land value 0xF8))) l in
    let l := set_stat (to_u8 (Z.lor (stat l) 0x80)) l in
    Ok (with_lcd l st)
  else if address =? 0xFF44 then
    Ok (add_log (log_warn "LCD: Writing to read only address (HEX). Skipping."
                          (ArgHex address)) st)
  else if address =? 0xFF46 then
    NotImplemented "OAM DMA Transfer"
  else if (address =? 0xFF47) || (address =? 0xFF48) || (address =? 0xFF49)
  then
    st1 <- lcd_update_palette (address - 0xFF47) value st ;;
    (* falls through to the default label *)
    st2 <- write_lcd_default address value st1 ;;
    Ok (update_lyc_flag address st2)
  else
    st2 <- write_lcd_default address value st ;;
    Ok (update_lyc_flag address st2).

(** [read_lcd] *)
Definition read_lcd (address : Z) (st : lcd_state) : result Z :=
  if BETWEEN address 0xFF40 0xFF4A
  then peek (address - 0xFF40) (g_lcd st)
  else AssertFailed "Invalid LCD read address: %d".

(** [lcd_set_mode]: bits 1-0 of STAT are the mode flag. *)
Definition lcd_set_mode (mode : Z) (st : lcd_state) : lcd_state :=
  let l := g_lcd st in
  with_lcd
    (set_stat (to_u8 (Z.lor (Z.land (stat l) 0xFC) (Z.land mode 0x3))) l) st.

End WithPaletteNames.

(** The three assignments of the STAT case of [write_lcd], composed:
    the value they leave in STAT. *)
Definition stat_after_write (old value : Z) : Z :=
  to_u8 (Z.lor (to_u8 (Z.lor (to_u8 (Z.land old 0x7)) (Z.land value 0xF8)))
               0x80).

(** Two register files agree on every register but STAT. *)
Definition same_except_stat (l l' : lcd) : Prop :=
  lcdc l' = lcdc l /\ scy l' = scy l /\ scx l' = scx l /\ ly l' = ly l /\
  lyc l' = lyc l /\ dma l' = dma l /\ dmg_bgp l' = dmg_bgp l /\
  dmg_obp0 l' = dmg_obp0 l /\ dmg_obp1 l' = dmg_obp1 l /\ wy l' = wy l /\
  wx l' = wx l /\ cgb_bgpi l' = cgb_bgpi l /\ cgb_bgpd l' = cgb_bgpd l /\
  cgb_obpi l' = cgb_obpi l /\ cgb_obpd l' = cgb_obpd l.

(** Every byte of the register block is a byte value. *)
Definition lcd_bytes (l : lcd) : Prop :=
  forall off v, peek off l = Ok v -> is_u8 v.

(** The LYC flag, bit 2 of STAT, tells whether LY equals LYC. *)
Definition lyc_flag_consistent (l : lcd) : Prop :=
  Z.testbit (stat l) 2 = (ly l =? lyc l).

(** The palettes hold twelve shades, each one of [default_palette]. *)
Definition palettes_wf (p : list Z) : Prop :=
  List.length p = 12%nat /\ Forall (fun s => In s default_palette) p.

End LCD.

(* ================================================================== *)
(** * The I/O register dispatch ([io.c]) *)

Module IO.

Section Dispatch.

(** The timer and the interrupt controller are not among the sources:
    their state, the addresses of their registers and their accessors are
    parameters of the dispatch. *)
Variable Emu : Type.
Variables TIMER_DIV TIMER_TAC IF_ADDRESS : Z.
Variable write_timer : Z -> Z -> Emu -> Emu.
Variable read_timer : Z -> Emu -> Z * Emu.
Variable write_interrupt : Z -> Z -> Emu -> Emu.
Variable read_interrupt : Z -> Emu -> Z * Emu.

(** The emulated state behind the dispatch and the lines logged. *)
Record io_state : Type := mk_io_state {
  emu : Emu;
  io_log : list log_entry
}.

(** [write_io] *)
Definition write_io (address data : Z) (st : io_state) : io_state :=
  if IN_RANGE address TIMER_DIV TIMER_TAC then
    mk_io_state (write_timer address data (emu st)) (io_log st)
  else if address =? IF_ADDRESS then
    mk_io_state (write_interrupt IF_ADDRESS data (emu st)) (io_log st)
  else
    mk_io_state (emu st)
                (io_log st ++ [log_err "IO write: HEX" (ArgHex address)]).

(** [read_io]; the diagnostic of the default case reads ``IO write'' in
    the source as well. *)
Definition read_io (address : Z) (st : io_state) : Z * io_state :=
  if IN_RANGE address TIMER_DIV TIMER_TAC then
    let (v, e) := read_timer address (emu st) in
    (v, mk_io_state e (io_log st))
  else if address =? IF_ADDRESS then
    let (v, e) := read_interrupt IF_ADDRESS (emu st) in
    (v, mk_io_state e (io_log st))
  else
    (0, mk_io_state (emu st)
                    (io_log st ++ [log_err "IO write: HEX" (ArgHex address)])).

End Dispatch.

Arguments mk_io_state {Emu} emu io_log.
Arguments emu {Emu} i.
Arguments io_log {Emu} i.

(** A small instance: the register addresses of the console (DIV 0xFF04,
    TAC 0xFF07, IF 0xFF0F) over a timer and an interrupt flag that are
    plain bytes. *)
Definition toy_emu : Type := (Z * Z)%type.

Definition toy_read_io : Z -> io_state toy_emu -> Z * io_state toy_emu :=
  read_io toy_emu 0xFF04 0xFF07 0xFF0F
          (fun _ e => (fst e, e)) (fun _ e => (snd e, e)).

Definition toy_write_io : Z -> Z -> io_state toy_emu -> io_state toy_emu :=
  write_io toy_emu 0xFF04 0xFF07 0xFF0F
           (fun _ d e => (d, snd e)) (fun _ d e => (fst e, d)).

End IO.

(* ================================================================== *)
(** * The opcode bit fields ([CPU/instruction.h]) *)

Module Opcode.

(** Which branch of [#if __BYTE_ORDER == __BIG_ENDIAN] is compiled. *)
Inductive byte_order : Type :=
| BIG_ENDIAN
| LITTLE_ENDIAN.

(** The macros, applied to a [u8] opcode. *)
Definition OPCODE_X (order : byte_order) (opcode : Z) : Z :=
  match order with
  | BIG_ENDIAN => Z.shiftr opcode 6
  | LITTLE_ENDIAN => Z.land opcode 0x03
  end.

Definition OPCODE_Y (order : byte_order) (opcode : Z) : Z :=
  match order with
  | BIG_ENDIAN => Z.land (Z.shiftr opcode 3) 0x07
  | LITTLE_ENDIAN => Z.land (Z.shiftr opcode 2) 0x07
  end.

Definition OPCODE_Z (order : byte_order) (opcode : Z) : Z :=
  match order with
  | BIG_ENDIAN => Z.land opcode 0x07
  | LITTLE_ENDIAN => Z.shiftr opcode 5
  end.

Definition OPCODE_Q (order : byte_order) (opcode : Z) : Z :=
  match order with
  | BIG_ENDIAN => Z.land (Z.shiftr opcode 3) 0x01
  | LITTLE_ENDIAN => Z.land (Z.shiftr opcode 4) 0x01
  end.

Definition OPCODE_P (order : byte_order) (opcode : Z) : Z :=
  match order with
  | BIG_ENDIAN => Z.land (Z.shiftr opcode 4) 0x03
  | LITTLE_ENDIAN => Z.land (Z.shiftr opcode 2) 0x03
  end.

(** The value of bits [hi]..[lo] of [b], by division: the field the
    comment above the macros describes (x = bits 7-6, y = bits 5-3,
    z = bits 2-0, p = bits 5-4, q = bit 3). *)
Definition bit_field (hi lo b : Z) : Z := (b / 2 ^ lo) mod 2 ^ (hi - lo + 1).

(** The five fields one branch of the macros extracts from an opcode. *)
Definition fields (order : byte_order) (opcode : Z) : Z * Z * Z * Z * Z :=
  (OPCODE_X order opcode, OPCODE_Y order opcode, OPCODE_Z order opcode,
   OPCODE_P order opcode, OPCODE_Q order opcode).

End Opcode.

(* ================================================================== *)
(** * The cartridge loader ([load_cartridge]) *)

Module Cartridge.

(** [struct cartridge], as far as the loader fills it; [rom] is the
    buffer of [rom_size] bytes. *)
Record cartridge_t : Type := mk_cartridge {
  filename : string;
  rom : list Z;
  rom_size : Z;
  ram_size : Z;
  multicart : bool
}.

(** [cart.rom[i]]: a read past the buffer is outside the object. *)
Definition rom_at (cart : cartridge_t) (i : nat) : result Z :=
  match nth_error (rom cart) i with
  | Some b => Ok b
  | None => OutsideObject
  end.

(** The indices visited by [while (i <= 0x014C)] from [i = 0x0134]. *)
Definition checksum_range : list nat := seq 0x0134 (0x014C + 1 - 0x0134).

(** One turn of the loop, [sum -= cart.rom[i++] - 1], on an
    [unsigned char] accumulator. *)
Definition checksum_step (cart : cartridge_t) (acc : result Z) (i : nat)
  : result Z :=
  sum <- acc ;;
  b <- rom_at cart i ;;
  Ok (to_u8 (sum - (b - 1))).

(** [verify_header_checksum] *)
Definition verify_header_checksum (cart : cartridge_t) : result bool :=
  sum <- fold_left (checksum_step cart) checksum_range (Ok 0) ;;
  Ok (sum =? 0).

(** The [switch] on the RAM size code. *)
Definition ram_size_of_code (ram_size_code : Z) : Z :=
  if ram_size_code =? 2 then Z.shiftl 2 13
  else if ram_size_code =? 3 then Z.shiftl 2 15
  else if ram_size_code =? 4 then Z.shiftl 2 17
  else if ram_size_code =? 5 then Z.shiftl 2 16
  else 0.

Section Loader.

(** The world outside the loader: the readable files with their bytes
    ([fopen] gives [None] when the file cannot be opened), what a buffer
    fresh from [malloc] holds, the layout of [struct cartridge_header]
    behind the [HEADER] macro, the enumerators of [cartridge_type], the
    bank registers and [check_multicart] (which reads the cartridge
    through [read_cartridge]) are not among the sources. *)
Variable fopen : string -> option (list Z).
Variable malloc_contents : Z -> list Z.
Variables header_ram_size header_rom_version header_type : list Z -> result Z.
Variables ROM_ONLY MBC1 MBC2 : Z.
Variable Chip : Type.
Variable check_multicart : cartridge_t * Chip -> cartridge_t * Chip.

(** The globals [cartridge] and [chip_registers], and what was written to
    the standard error stream. *)
Record loader_state : Type := mk_loader_state {
  cartridge : cartridge_t;
  chip_registers : Chip;
  stderr : list string
}.

(** [load_cartridge]; the RAM size code and the ROM version are read
    through [header] before [fread] fills the buffer. *)
Definition load_cartridge (path : string) (st : loader_state)
  : result (bool * loader_state) :=
  match fopen path with
  | None =>
      Ok (false, mk_loader_state (cartridge st) (chip_registers st)
                   (stderr st ++ ["Failed to load cartridge"]))
  | Some file =>
      let size := Z.of_nat (List.length file) in
      let buffer := malloc_contents size in
      ram_size_code <- header_ram_size buffer ;;
      let ram0 := ram_size_of_code ram_size_code in
      rom_version <- header_rom_version buffer ;;
      let ram1 := if (MBC1 <? rom_version) && (rom_version <=? MBC2)
                  then 512 else ram0 in
      (* rewind(rom); fread(cartridge.rom, 1, cartridge.rom_size, rom) *)
      let cart := mk_cartridge path file size ram1 false in
      valid <- verify_header_checksum cart ;;
      if valid then
        Ok (false, mk_loader_state cart (chip_registers st)
                     (stderr st
                      ++ ["Failed to load cartridge: Invalid checksum."]))
      else
        type <- header_type (rom cart) ;;
        let (cart', chip') :=
          if negb (type =? ROM_ONLY) && (type <=? MBC1)
          then check_multicart (cart, chip_registers st)
          else (cart, chip_registers st) in
        Ok (true, mk_loader_state cart' chip' (stderr st))
  end.

End Loader.

Arguments mk_loader_state {Chip} cartridge chip_registers stderr.
Arguments cartridge {Chip} l.
Arguments chip_registers {Chip} l.
Arguments stderr {Chip} l.

(** A small instance: one readable file per test image, the header
    fields at their offsets in the cartridge header (type 0x0147, RAM
    size 0x0149, version 0x014C), no bank registers. *)
Definition header_byte (off : nat) (buffer : list Z) : result Z :=
  match nth_error buffer off with
  | Some b => Ok b
  | None => OutsideObject
  end.

(** An image of 0x0150 bytes, all equal to [b]. *)
Definition flat_image (b : Z) : list Z := repeat b 0x0150.

Definition toy_fopen (path : string) : option (list Z) :=
  if String.eqb path "zeros.gb" then Some (flat_image 0)
  else if String.eqb path "ones.gb" then Some (flat_image 1)
  else None.

Definition toy_load_cartridge
  : string -> loader_state unit -> result (bool * loader_state unit) :=
  load_cartridge toy_fopen (fun size => repeat 0 (Z.to_nat size))
                 (header_byte 0x0149) (header_byte 0x014C)
                 (header_byte 0x0147) 0 3 6 unit (fun s => s).

Definition empty_loader_state : loader_state unit :=
  mk_loader_state (mk_cartridge "" [] 0 0 false) tt [].

Section Logo.

(** The array [nintendo_logo] is declared in [cartridge.h], which is not
    among the sources. *)
Variable nintendo_logo : list Z.

(** [nintendo_logo[i]] *)
Definition logo_at (i : Z) : result Z :=
  match nth_error nintendo_logo (Z.to_nat i) with
  | Some b => Ok b
  | None => OutsideObject
  end.

(** [for (int b = 4; b--;) putchar(((n >> b) & 1) ? '*' : ' ')]: the
    body runs for b = 3, 2, 1, 0. *)
Definition nibble_chars (n : Z) : list ascii :=
  map (fun b => if Z.land (Z.shiftr n b) 1 =? 0 then " "%char else "*"%char)
      [3; 2; 1; 0].

(** One turn of the loop on [x], at index [i] of line [y]. *)
Definition logo_cell (y i : Z) : result (list ascii) :=
  byte <- logo_at i ;;
  let n := to_u8 (if Z.rem y 2 =? 0 then Z.shiftr byte 4
                  else Z.land byte 0xF) in
  Ok (nibble_chars n).

(** [count] turns of the loop on [x], [i] going up by 2. *)
Fixpoint logo_cells (count : nat) (y i : Z) : result (list ascii) :=
  match count with
  | O => Ok []
  | S count' =>
      chars <- logo_cell y i ;;
      rest <- logo_cells count' y (i + 2) ;;
      Ok (chars ++ rest)
  end.

Definition newline : ascii := "010"%char.

(** One turn of the loop on [y]. *)
Definition logo_line (y : Z) : result (list ascii) :=
  let i := Z.rem (Z.quot y 2) 2 + Z.quot y 4 * 24 in
  chars <- logo_cells 12 y i ;;
  Ok (chars ++ [newline]).

(** [count] turns of the loop on [y]. *)
Fixpoint logo_lines (count : nat) (y : Z) : result (list ascii) :=
  match count with
  | O => Ok []
  | S count' =>
      line <- logo_line y ;;
      rest <- logo_lines count' (y + 1) ;;
      Ok (line ++ rest)
  end.

(** [print_nintendo_logo]: the characters written to the standard
    output, in order. *)
Definition print_nintendo_logo : result (list ascii) := logo_lines 8 0.

End Logo.

(** The place in the output of the four characters drawn for the high
    and for the low half of byte [i]: lines have 49 characters, newline
    included. *)
Definition logo_column (i : nat) : nat := (4 * ((i mod 24) / 2))%nat.
Definition logo_high_line (i : nat) : nat := (4 * (i / 24) + 2 * (i mod 2))%nat.

(** The two characters the logo is drawn with. *)
Definition is_pixel (c : ascii) : Prop := c = "*"%char \/ c = " "%char.

(** A logo to run the printer on: the 48 bytes of the bitmap the boot
    ROM of the console compares the header with. *)
Definition sample_logo : list Z :=
  [ 0xCE; 0xED; 0x66; 0x66; 0xCC; 0x0D; 0x00; 0x0B; 0x03; 0x73; 0x00; 0x83;
    0x00; 0x0C; 0x00; 0x0D; 0x00; 0x08; 0x11; 0x1F; 0x88; 0x89; 0x00; 0x0E;
    0xDC; 0xCC; 0x6E; 0xE6; 0xDD; 0xDD; 0xD9; 0x99; 0xBB; 0xBB; 0x67; 0x63;
    0x6E; 0x0E; 0xEC; 0xCC; 0xDD; 0xDC; 0x99; 0x9F; 0xBB; 0xB9; 0x33; 0x3E ].

(** What [cartridge_info] writes to the standard output, call by call: the
    characters of [putchar], the line of [puts], a [printf] with its
    format and its argument.  [PrintfUndefined] is a [printf] whose
    argument comes from an operation C leaves undefined: what is written
    is then not determined. *)
Inductive printf_arg : Type :=
| ArgInt (n : Z)
| ArgString (s : string).

Inductive printed : Type :=
| PutChars (chars : list ascii)
| Puts (s : string)
| Printf (format : string) (arg : printf_arg)
| PrintfUndefined (format : string).

Section Info.

(** The logo and the fields of [struct cartridge_header] read through
    [HEADER(cartridge)], a pointer into the buffer [cartridge.rom]: see
    [Loader]. *)
Variable nintendo_logo : list Z.
Variable header_title : list Z -> result string.
Variables header_rom_size header_ram_size header_rom_version
  : list Z -> result Z.

(** [cartridge_info]; [32 << header->rom_size] is an [int], undefined
    from the size code 26 on. *)
Definition cartridge_info (cart : cartridge_t) : result (list printed) :=
  let header := rom cart in
  logo <- print_nintendo_logo nintendo_logo ;;
  title <- header_title header ;;
  rom_size_code <- header_rom_size header ;;
  ram_size_code <- header_ram_size header ;;
  rom_version <- header_rom_version header ;;
  Ok [ PutChars logo;
       Puts "\nCartridge information:";
       Printf "\tPath      : %s\n" (ArgString (filename cart));
       Printf "\tTitle     : %s\n" (ArgString title);
       (if rom_size_code <? 26
        then Printf "\tROM Size  : %d KB\n" (ArgInt (Z.shiftl 32 rom_size_code))
        else PrintfUndefined "\tROM Size  : %d KB\n");
       Printf "\tRAM Size  : %2.2X\n" (ArgInt ram_size_code);
       Printf "\tROM Vers  : %2.2X\n" (ArgInt rom_version);
       Printf "\tMulticart : %s\n"
              (ArgString (if multicart cart then "YES" else "NO"));
       PutChars [newline] ].

End Info.

(** The string a [%s] reads at the head of [bytes]: the characters up to
    the first zero byte; without one the read leaves the buffer. *)
Fixpoint c_string (bytes : list Z) : result string :=
  match bytes with
  | [] => OutsideObject
  | b :: rest =>
      if b =? 0 then Ok EmptyString
      else s <- c_string rest ;; Ok (String (ascii_of_nat (Z.to_nat b)) s)
  end.

(** An image the loader refuses: 0x0150 bytes, all zero but the byte at
    0x014C, which is 25; the bytes from 0x0134 to 0x014C then add up
    to 25, one for each of them. *)
Definition refused_image : list Z := repeat 0 0x014C ++ [25; 0; 0; 0].

(** The files of the small instance: the two flat images and the refused
    one. *)
Definition toy_files (path : string) : option (list Z) :=
  if String.eqb path "refused.gb" then Some refused_image
  else toy_fopen path.

(** [cartridge_info] on the small instance: the title at 0x0134, the
    ROM size code at 0x0148. *)
Definition toy_cartridge_info : cartridge_t -> result (list printed) :=
  cartridge_info sample_logo (fun buffer => c_string (skipn 0x0134 buffer))
                 (header_byte 0x0148) (header_byte 0x0149)
                 (header_byte 0x014C).

End Cartridge.

(* ================================================================== *)
(** * The command line ([options.c]) *)

Module CLI.

(** The log levels an option can select; [LOG_OFF] stands for the value
    [-1] stored by [--silent]. *)
Inductive log_level_t : Type :=
| LOG_TRACE
| LOG_INFO
| LOG_WARNING
| LOG_ERROR
| LOG_OFF.

(** [struct options]; [args] maps an index of the array to the string
    stored there (the latest store first). *)
Record options : Type := mk_options {
  log_level : log_level_t;
  trace : bool;
  blargg : bool;
  exit_infinite_loop : bool;
  gui : bool;
  args : list (nat * string);
  warnings : list log_entry
}.

(** [arguments->args[i]] *)
Fixpoint args_at (i : nat) (a : list (nat * string)) : option string :=
  match a with
  | [] => None
  | (j, v) :: rest => if Nat.eqb i j then Some v else args_at i rest
  end.

(** The static [options] of [get_options]. *)
Definition get_options : options :=
  mk_options LOG_INFO false false false true [] [].

(** The keys argp hands to the parser function: an option character, or
    one of the special keys.  [ARGP_KEY_OTHER] stands for the special keys
    the parser has no case for (INIT, NO_ARGS, SUCCESS, FINI, ...). *)
Inductive argp_key : Type :=
| KEY (c : ascii)
| ARGP_KEY_ARG
| ARGP_KEY_END
| ARGP_KEY_OTHER.

Inductive error_t : Type :=
| NO_ERROR
| ARGP_ERR_UNKNOWN.

(** What a call of the parser function does: it returns an error code
    and leaves the options updated, or it calls [argp_usage], which (the
    parser being run with flags 0) prints the usage message and exits
    with [argp_err_exit_status]. *)
Inductive parser_step : Type :=
| Returns (e : error_t) (arguments : options)
| ArgpUsage.

Definition STR_EQ (str1 str2 : string) : bool := String.eqb str1 str2.

Definition set_trace (o : options) : options :=
  mk_options (log_level o) true (blargg o) (exit_infinite_loop o) (gui o)
             (args o) (warnings o).
Definition set_exit_infinite_loop (o : options) : options :=
  mk_options (log_level o) (trace o) (blargg o) true (gui o)
             (args o) (warnings o).
Definition set_blargg (o : options) : options :=
  mk_options (log_level o) (trace o) true (exit_infinite_loop o) (gui o)
             (args o) (warnings o).
Definition set_log_level (l : log_level_t) (o : options) : options :=
  mk_options l (trace o) (blargg o) (exit_infinite_loop o) (gui o)
             (args o) (warnings o).
Definition set_gui (g : bool) (o : options) : options :=
  mk_options (log_level o) (trace o) (blargg o) (exit_infinite_loop o) g
             (args o) (warnings o).
Definition set_arg (i : nat) (v : string) (o : options) : options :=
  mk_options (log_level o) (trace o) (blargg o) (exit_infinite_loop o)
             (gui o) ((i, v) :: args o) (warnings o).
Definition warn (e : log_entry) (o : options) : options :=
  mk_options (log_level o) (trace o) (blargg o) (exit_infinite_loop o)
             (gui o) (args o) (warnings o ++ [e]).

Section Parser.

(** [GBEMU_NB_ARGS] is defined in [options.h], which is not among the
    sources. *)
Variable GBEMU_NB_ARGS : nat.

(** [parse_opt]; [arg_num] is [state->arg_num], [arguments] is
    [state->input]. *)
Definition parse_opt (key : argp_key) (value : string) (arg_num : nat)
           (arguments : options) : parser_step :=
  match key with
  | KEY "t" => Returns NO_ERROR (set_trace arguments)
  | KEY "x" => Returns NO_ERROR (set_exit_infinite_loop arguments)
  | KEY "b" => Returns NO_ERROR (set_blargg arguments)
  | KEY "s" => Returns NO_ERROR (set_log_level LOG_OFF arguments)
  | KEY "l" =>
      if STR_EQ value "TRACE"
      then Returns NO_ERROR (set_log_level LOG_TRACE arguments)
      else if STR_EQ value "WARNING"
      then Returns NO_ERROR (set_log_level LOG_WARNING arguments)
      else if STR_EQ value "ERROR"
      then Returns NO_ERROR (set_log_level LOG_ERROR arguments)
      else Returns NO_ERROR
             (set_log_level LOG_INFO
                (warn (log_warn
                         "Invalid argument for option -l / --log-level: %s"
                         (ArgStr value)) arguments))
  | KEY "g" =>
      Returns NO_ERROR
              (set_gui (STR_EQ value "yes" || STR_EQ value "y") arguments)
  | ARGP_KEY_ARG =>
      (* Too many arguments, if your program expects only one argument. *)
      if (GBEMU_NB_ARGS <? arg_num)%nat
      then ArgpUsage
      else Returns NO_ERROR (set_arg arg_num value arguments)
  | ARGP_KEY_END =>
      if (arg_num <? GBEMU_NB_ARGS)%nat
      then ArgpUsage
      else Returns NO_ERROR arguments
  | _ => Returns ARGP_ERR_UNKNOWN arguments
  end.

(** The keys of the table [long_options]: the options [parse_opt] is
    called for. *)
Definition known_option (c : ascii) : bool :=
  existsb (Ascii.eqb c) ["t"; "x"; "b"; "s"; "l"; "g"]%char.

(** The options argp adds of its own when it is run with flags 0 and that
    have no character: [--usage], and the hidden [--program-name] and
    [--HANG].  ([--help] has the character [?].) *)
Inductive argp_own_option : Type :=
| OPT_USAGE
| OPT_PROGNAME
| OPT_HANG.

(** The command line after getopt has split it: options given by their
    character (a long name stands for the character of its table entry,
    [--help] for [?]) with their argument (empty when the option takes
    none), the options argp has of its own, and positional arguments, in
    the order of the command line. *)
Inductive cli_item : Type :=
| Opt (c : ascii) (value : string)
| Own (o : argp_own_option)
| Arg (value : string).

(** The positional arguments of a command line, in order. *)
Definition positionals (items : list cli_item) : list string :=
  flat_map (fun i => match i with Arg v => [v] | _ => [] end) items.

(** The outcome of [parse_options]: the options struct is returned, or
    the process has exited with the given code after a help, usage or
    error message. *)
Inductive parse_outcome : Type :=
| Parsed (o : options)
| Exited (code : Z).

(** glibc's default [argp_err_exit_status] ([EX_USAGE]). *)
Definition argp_err_exit_status : Z := 64.

(** The options of the command line, which getopt hands over before any
    positional argument: [-?] and [--usage] are answered by argp itself,
    which prints the help or the usage message and exits with status 0;
    the hidden options of argp change nothing in the options struct; the
    parser function is called for the keys of its table; for any other
    option argp reports an error and exits with
    [argp_err_exit_status]. *)
Fixpoint argp_parse_options (items : list cli_item) (arg_num : nat)
         (arguments : options) : parse_outcome :=
  match items with
  | [] => Parsed arguments
  | Opt c value :: rest =>
      if Ascii.eqb c "?" then Exited 0
      else if known_option c then
        match parse_opt (KEY c) value arg_num arguments with
        | ArgpUsage => Exited argp_err_exit_status
        | Returns NO_ERROR o => argp_parse_options rest arg_num o
        | Returns ARGP_ERR_UNKNOWN _ => Exited argp_err_exit_status
        end
      else Exited argp_err_exit_status
  | Own OPT_USAGE :: _ => Exited 0
  | Own _ :: rest => argp_parse_options rest arg_num arguments
  | Arg _ :: rest => argp_parse_options rest arg_num arguments
  end.

(** The positional arguments, handed over one by one once the options
    are done, [state->arg_num] counting those handed over so far, then
    [ARGP_KEY_END]. *)
Fixpoint argp_parse_args (values : list string) (arg_num : nat)
         (arguments : options) : parse_outcome :=
  match values with
  | [] =>
      match parse_opt ARGP_KEY_END "" arg_num arguments with
      | ArgpUsage => Exited argp_err_exit_status
      | Returns _ o => Parsed o
      end
  | value :: rest =>
      match parse_opt ARGP_KEY_ARG value arg_num arguments with
      | ArgpUsage => Exited argp_err_exit_status
      | Returns NO_ERROR o => argp_parse_args rest (S arg_num) o
      | Returns ARGP_ERR_UNKNOWN _ => Exited argp_err_exit_status
      end
  end.

(** [argp_parse] with flags 0: getopt permutes the command line, so that
    every option is parsed before the first positional argument. *)
Definition argp_parse (items : list cli_item) (arg_num : nat)
           (arguments : options) : parse_outcome :=
  match argp_parse_options items arg_num arguments with
  | Exited code => Exited code
  | Parsed o => argp_parse_args (positionals items) arg_num o
  end.

(** [parse_options] *)
Definition parse_options (argv : list cli_item) : parse_outcome :=
  argp_parse argv 0 get_options.

End Parser.

(** The items [parse_options] lets through: an option of the table, a
    hidden option of argp, a positional argument. *)
Definition known_item (i : cli_item) : bool :=
  match i with
  | Opt c _ => known_option c
  | Own OPT_USAGE => false
  | Own _ => true
  | Arg _ => true
  end.

(** Whether the option [c] occurs on a command line. *)
Definition has_option (c : ascii) (items : list cli_item) : bool :=
  existsb (fun i => match i with
                    | Opt c' _ => Ascii.eqb c c'
                    | _ => false
                    end) items.

(** The [-l] options whose level is none of TRACE, WARNING, ERROR, in
    order. *)
Definition invalid_level (c : ascii) (value : string) : bool :=
  Ascii.eqb c "l"
  && negb (STR_EQ value "TRACE" || STR_EQ value "WARNING"
           || STR_EQ value "ERROR").

Definition invalid_levels (items : list cli_item) : list string :=
  flat_map (fun i => match i with
                     | Opt c v => if invalid_level c v then [v] else []
                     | _ => []
                     end) items.

(** Whether an item asks argp for its help or usage message: [-?],
    [--help], [--usage]. *)
Definition asks_help (i : cli_item) : bool :=
  match i with
  | Opt c _ => Ascii.eqb c "?"
  | Own OPT_USAGE => true
  | _ => false
  end.

(** Whether the first item of a command line that is not let through asks
    for the help or usage message. *)
Fixpoint help_comes_first (items : list cli_item) : bool :=
  match items with
  | [] => false
  | i :: rest => if known_item i then help_comes_first rest else asks_help i
  end.

End CLI.

(* ================================================================== *)
(** * The entry point and the main loop ([main]) *)

Module Main.

(** What [main] does that can be observed from outside the functions it
    calls: each test of [cpu.is_running] with its outcome, and each call,
    in program order. *)
Inductive event : Type :=
| CallLoadCartridge (path : option string) (loaded : bool)
| CallCartridgeInfo
| CallResetCpu
| CallResetTimer
| TestIsRunning (set : bool)
| CallTimerTick
| CallExecuteInstruction
| CallHandleInterrupts
| CallTestRomUpdate
| CallTestRomPrint.

(** How a run of the loop bounded by a number of iterations ends. *)
Inductive loop_status : Type :=
| LoopExited
| LoopStillRunning.

Section Program.

(** The machine state (CPU, timer, interrupt controller, cartridge) and
    the functions the loop calls are not among the sources; the two flags
    of [cpu] that [main] reads are projections of the state. *)
Variable World : Type.
Variables is_running halt : World -> bool.
Variables timer_tick execute_instruction handle_interrupts : World -> World.
Variables test_rom_update test_rom_print : World -> World.

(** The body of the [while] loop. *)
Definition loop_body (blargg : bool) (w : World) : World * list event :=
  let (w1, unit) :=
    if halt w
    then (timer_tick w, CallTimerTick)
    else (execute_instruction w, CallExecuteInstruction) in
  let w2 := handle_interrupts w1 in
  if blargg
  then (test_rom_print (test_rom_update w2),
        [unit; CallHandleInterrupts; CallTestRomUpdate; CallTestRomPrint])
  else (w2, [unit; CallHandleInterrupts]).

(** [while (cpu.is_running) { ... }], cut after [fuel] iterations. *)
Fixpoint main_loop (fuel : nat) (blargg : bool) (w : World)
  : World * list event * loop_status :=
  match fuel with
  | O => (w, [], LoopStillRunning)
  | S fuel' =>
      if is_running w then
        let (w', body) := loop_body blargg w in
        let '(w'', rest, status) := main_loop fuel' blargg w' in
        (w'', TestIsRunning true :: body ++ rest, status)
      else (w, [TestIsRunning false], LoopExited)
  end.

(** The claim about the loop, in its own words: a run of the loop from
    [w] to [w'] is a sequence of iterations, each begun by a test that
    sees the flag set and made of one unit of work (a timer tick when
    halted, an instruction otherwise) followed by one call of
    [handle_interrupts] (and by the two test-ROM calls in blargg mode);
    it ends at a test that sees the flag clear. *)
Inductive loop_run (blargg : bool) : World -> list event -> World -> Prop :=
| run_exit : forall w,
    is_running w = false ->
    loop_run blargg w [TestIsRunning false] w
| run_iteration : forall w unit w1 w2 w3 extras rest w',
    is_running w = true ->
    (halt w = true /\ unit = CallTimerTick /\ w1 = timer_tick w) \/
    (halt w = false /\ unit = CallExecuteInstruction
     /\ w1 = execute_instruction w) ->
    w2 = handle_interrupts w1 ->
    (blargg = true /\ extras = [CallTestRomUpdate; CallTestRomPrint]
     /\ w3 = test_rom_print (test_rom_update w2)) \/
    (blargg = false /\ extras = [] /\ w3 = w2) ->
    loop_run blargg w3 rest w' ->
    loop_run blargg w
             (TestIsRunning true :: unit :: CallHandleInterrupts
                :: extras ++ rest) w'.

(** The same for a run that is watched for a number of iterations only:
    it is made of whole iterations of the same shape, and it is either
    over, at a test that saw the flag clear, or still going, the watch
    having stopped between two iterations. *)
Inductive loop_watched (blargg : bool)
  : World -> list event -> World -> loop_status -> Prop :=
| watched_exit : forall w,
    is_running w = false ->
    loop_watched blargg w [TestIsRunning false] w LoopExited
| watched_so_far : forall w,
    loop_watched blargg w [] w LoopStillRunning
| watched_iteration : forall w unit w1 w2 w3 extras rest w' status,
    is_running w = true ->
    (halt w = true /\ unit = CallTimerTick /\ w1 = timer_tick w) \/
    (halt w = false /\ unit = CallExecuteInstruction
     /\ w1 = execute_instruction w) ->
    w2 = handle_interrupts w1 ->
    (blargg = true /\ extras = [CallTestRomUpdate; CallTestRomPrint]
     /\ w3 = test_rom_print (test_rom_update w2)) \/
    (blargg = false /\ extras = [] /\ w3 = w2) ->
    loop_watched blargg w3 rest w' status ->
    loop_watched blargg w
                 (TestIsRunning true :: unit :: CallHandleInterrupts
                    :: extras ++ rest) w' status.

End Program.

(** The loop iterations entered in a trace: the tests that saw the flag
    set. *)
Definition iterations_entered (trace : list event) : nat :=
  List.length
    (filter (fun e => match e with TestIsRunning true => true | _ => false end)
            trace).

(** How [main] ends: argument parsing exited the process, [main]
    returned, the loop is still running after [fuel] iterations, or a
    call made before the loop left an object (a null path handed to
    [fopen], a header read through a pointer that is null or leaves the
    ROM buffer): the behaviour is undefined from there on, in practice
    the process is killed. *)
Inductive main_status : Type :=
| ExitedInParse (code : Z)
| MainReturned (code : Z)
| MainStillRunning
| MainCrashed.

Section EntryPoint.

(** The world outside [main]: what the loader and [cartridge_info] read
    (see [Cartridge]), and the rest of the machine (CPU, timer, interrupt
    controller), whose functions are not among the sources.  They act on
    the whole state, cartridge included: instructions are fetched from
    the ROM and write to the bank registers. *)
Variable fopen : string -> option (list Z).
Variable malloc_contents : Z -> list Z.
Variable header_title : list Z -> result string.
Variables header_rom_size header_ram_size header_rom_version header_type
  : list Z -> result Z.
Variables ROM_ONLY MBC1 MBC2 : Z.
Variable Chip : Type.
Variable check_multicart
  : Cartridge.cartridge_t * Chip -> Cartridge.cartridge_t * Chip.
Variable nintendo_logo : list Z.
Variable Machine : Type.

Definition World : Type := (Cartridge.loader_state Chip * Machine)%type.

Variables is_running halt : World -> bool.
Variables timer_tick execute_instruction handle_interrupts : World -> World.
Variables test_rom_update test_rom_print : World -> World.
Variables reset_cpu reset_timer : World -> World.
Variable GBEMU_NB_ARGS : nat.

(** [main]; the value returned by [load_cartridge] is not used, and
    [cartridge_info] reads the header of whatever [cartridge.rom] points
    to.  [CallLoadCartridge] records a call that returned, with what it
    returned. *)
Definition main (fuel : nat) (argv : list CLI.cli_item) (w : World)
  : World * list event * main_status :=
  match CLI.parse_options GBEMU_NB_ARGS argv with
  | CLI.Exited code => (w, [], ExitedInParse code)
  | CLI.Parsed options =>
      match CLI.args_at 0 (CLI.args options) with
      | None => (w, [], MainCrashed)
      | Some path =>
          match Cartridge.load_cartridge
                  fopen malloc_contents header_ram_size header_rom_version
                  header_type ROM_ONLY MBC1 MBC2 Chip check_multicart
                  path (fst w) with
          | Ok (loaded, st) =>
              let w1 := (st, snd w) in
              match Cartridge.cartridge_info
                      nintendo_logo header_title header_rom_size
                      header_ram_size header_rom_version
                      (Cartridge.cartridge st) with
              | Ok _ =>
                  let w3 := reset_cpu w1 in
                  let w4 := reset_timer w3 in
                  let '(w5, trace, status) :=
                    main_loop World is_running halt timer_tick
                              execute_instruction handle_interrupts
                              test_rom_update test_rom_print
                              fuel (CLI.blargg options) w4 in
                  (w5,
                   [CallLoadCartridge (Some path) loaded; CallCartridgeInfo;
                    CallResetCpu; CallResetTimer] ++ trace,
                   match status with
                   | LoopExited => MainReturned 0
                   | LoopStillRunning => MainStillRunning
                   end)
              | _ =>
                  (w1,
                   [CallLoadCartridge (Some path) loaded; CallCartridgeInfo],
                   MainCrashed)
              end
          | _ => (w, [], MainCrashed)
          end
      end
  end.

End EntryPoint.

(** A small instance: the state is a countdown together with the halt
    flag; the CPU runs while the countdown is positive, every unit of
    work decrements it, [reset_cpu] starts it at 2; the cartridge comes
    from the files of [Cartridge.toy_files], and one cartridge is
    expected on the command line. *)
Definition toy_world : Type := (nat * bool)%type.

Definition toy_step (w : toy_world) : toy_world := (Nat.pred (fst w), snd w).

Definition toy_main_loop
  : nat -> bool -> toy_world -> toy_world * list event * loop_status :=
  main_loop toy_world (fun w => Nat.ltb 0 (fst w)) snd toy_step toy_step
            (fun w => w) (fun w => w) (fun w => w).

Definition toy_loop_run
  : bool -> toy_world -> list event -> toy_world -> Prop :=
  loop_run toy_world (fun w => Nat.ltb 0 (fst w)) snd toy_step toy_step
           (fun w => w) (fun w => w) (fun w => w).

Definition toy_machine : Type := World unit toy_world.

Definition on_machine (f : toy_world -> toy_world) (w : toy_machine)
  : toy_machine := (fst w, f (snd w)).

Definition toy_start : toy_machine := (Cartridge.empty_loader_state, (0%nat, false)).

Definition toy_main
  : nat -> list CLI.cli_item -> toy_machine
    -> toy_machine * list event * main_status :=
  main Cartridge.toy_files (fun size => repeat 0 (Z.to_nat size))
       (fun buffer => Cartridge.c_string (skipn 0x0134 buffer))
       (Cartridge.header_byte 0x0148) (Cartridge.header_byte 0x0149)
       (Cartridge.header_byte 0x014C) (Cartridge.header_byte 0x0147)
       0 3 6 unit (fun s => s) Cartridge.sample_logo toy_world
       (fun w => Nat.ltb 0 (fst (snd w))) (fun w => snd (snd w))
       (on_machine toy_step) (on_machine toy_step)
       (fun w => w) (fun w => w) (fun w => w)
       (on_machine (fun _ => (2%nat, false))) (fun w => w) 1.

Section Iterations.

Variable World : Type.
Variable halt : World -> bool.
Variables timer_tick execute_instruction handle_interrupts : World -> World.
Variables test_rom_update test_rom_print : World -> World.

(** The machine state after [k] turns of the loop body. *)
Fixpoint iterations (k : nat) (blargg : bool) (w : World) : World :=
  match k with
  | O => w
  | S k' =>
      iterations k' blargg
        (fst (loop_body World halt timer_tick execute_instruction
                        handle_interrupts test_rom_update test_rom_print
                        blargg w))
  end.

End Iterations.

(** The events of a trace that satisfy a test. *)
Definition count_events (p : event -> bool) (trace : list event) : nat :=
  List.length (filter p trace).

Definition is_work (e : event) : bool :=
  match e with
  | CallTimerTick | CallExecuteInstruction => true
  | _ => false
  end.

Definition is_interrupt_check (e : event) : bool :=
  match e with
  | CallHandleInterrupts => true
  | _ => false
  end.

Definition is_test_rom_update (e : event) : bool :=
  match e with
  | CallTestRomUpdate => true
  | _ => false
  end.

Definition is_test_rom_print (e : event) : bool :=
  match e with
  | CallTestRomPrint => true
  | _ => false
  end.

Definition is_entry (e : event) : bool :=
  match e with
  | TestIsRunning true => true
  | _ => false
  end.

(** The calls [main] makes before the loop. *)
Definition is_setup (e : event) : bool :=
  match e with
  | CallLoadCartridge _ _ | CallCartridgeInfo | CallResetCpu
  | CallResetTimer => true
  | _ => false
  end.

(** The toy machine with a flag that is never cleared. *)
Definition toy_endless_loop
  : nat -> bool -> toy_world -> toy_world * list event * loop_status :=
  main_loop toy_world (fun _ => true) snd toy_step toy_step
            (fun w => w) (fun w => w) (fun w => w).

End Main.

(* ================================================================== *)
(** * Properties *)

(** ** Bytes and bits *)

Lemma to_u8_range (x : Z) : is_u8 (to_u8 x).
Proof.
  unfold is_u8, to_u8. change (2 ^ 8) with 256.
  pose proof (Z.mod_pos_bound x 256). lia.
Qed.

Lemma to_u8_testbit (x i : Z) :
  0 <= i -> Z.testbit (to_u8 x) i = (i <? 8) && Z.testbit x i.
Proof. intros Hi. unfold to_u8. now rewrite Z.testbit_mod_pow2 by lia. Qed.

(** A bit of a byte constant above position 7 is clear. *)
Lemma byte_const_high_bit (c i : Z) :
  0 <= c < 256 -> 8 <= i -> Z.testbit c i = false.
Proof.
  intros Hc Hi. destruct (Z.eq_dec c 0) as [-> | Hnz].
  - apply Z.testbit_0_l.
  - apply Z.bits_above_log2; [lia |].
    assert (Z.log2 c < 8) by (apply Z.log2_lt_pow2; simpl; lia). lia.
Qed.

(** Positions 0..7, one by one. *)
Lemma bit_position_cases (i : Z) :
  0 <= i < 8 ->
  i = 0 \/ i = 1 \/ i = 2 \/ i = 3 \/ i = 4 \/ i = 5 \/ i = 6 \/ i = 7.
Proof. lia. Qed.

(** Equality of two bit-wise expressions over byte constants: compare
    them bit by bit, the low eight positions by evaluation of the
    constants, the others by [byte_const_high_bit]. *)
Ltac byte_bits :=
  apply Z.bits_inj'; intros i Hi;
  repeat first
    [ rewrite Z.land_spec | rewrite Z.lor_spec
    | rewrite to_u8_testbit by exact Hi ];
  destruct (Z.ltb_spec i 8) as [Hlt | Hge];
  [ destruct (bit_position_cases i (conj Hi Hlt))
      as [-> | [-> | [-> | [-> | [-> | [-> | [-> | ->]]]]]]];
    repeat match goal with
           | |- context [Z.testbit ?x ?n] =>
               is_var x; destruct (Z.testbit x n)
           end; vm_compute; reflexivity
  | repeat match goal with
           | |- context [Z.testbit (Zpos ?c) i] =>
               rewrite (byte_const_high_bit (Zpos c) i) by lia
           end;
    repeat rewrite ?andb_false_r, ?andb_false_l, ?orb_false_r, ?orb_false_l;
    reflexivity ].

Lemma stat_after_write_low (old value : Z) :
  Z.land (LCD.stat_after_write old value) 0x07 = Z.land old 0x07.
Proof. unfold LCD.stat_after_write. byte_bits. Qed.

Lemma stat_after_write_mid (old value : Z) :
  Z.land (LCD.stat_after_write old value) 0x78 = Z.land value 0x78.
Proof. unfold LCD.stat_after_write. byte_bits. Qed.

Lemma stat_after_write_top (old value : Z) :
  Z.testbit (LCD.stat_after_write old value) 7 = true.
Proof.
  unfold LCD.stat_after_write.
  rewrite to_u8_testbit, Z.lor_spec by lia.
  change (Z.testbit 0x80 7) with true. now rewrite orb_true_r.
Qed.

(** ** The LCD register block *)

(** The setters touch one field. *)
Lemma set_stat_same_except_stat (v : Z) (l : LCD.lcd) :
  LCD.same_except_stat l (LCD.set_stat v l).
Proof. destruct l. unfold LCD.same_except_stat. cbn. tauto. Qed.

Lemma stat_set_stat (v : Z) (l : LCD.lcd) : LCD.stat (LCD.set_stat v l) = v.
Proof. now destruct l. Qed.

Lemma set_stat_set_stat (u v : Z) (l : LCD.lcd) :
  LCD.set_stat v (LCD.set_stat u l) = LCD.set_stat v l.
Proof. now destruct l. Qed.

(** A write to STAT stores [stat_after_write] and nothing else. *)
Lemma write_lcd_stat_eq (BG_PALETTE value : Z) (st : LCD.lcd_state) :
  LCD.write_lcd BG_PALETTE 0xFF41 value st =
  Ok (LCD.with_lcd
        (LCD.set_stat (LCD.stat_after_write (LCD.stat (LCD.g_lcd st)) value)
                      (LCD.g_lcd st)) st).
Proof.
  unfold LCD.write_lcd. change (0xFF41 =? 0xFF41) with true. cbv iota zeta.
  rewrite !stat_set_stat, !set_stat_set_stat. reflexivity.
Qed.

(** C9: for every value [v] and every prior LCD state, [write_lcd(0xFF41, v)]
    returns normally; afterwards bits 0-2 of STAT are the prior ones, bits
    3-6 are bits 3-6 of [v], bit 7 is set, and every other LCD register,
    the palettes and the log are unchanged. *)
Theorem write_lcd_stat_bits (BG_PALETTE v : Z) (st : LCD.lcd_state) :
  exists st',
    LCD.write_lcd BG_PALETTE 0xFF41 v st = Ok st' /\
    Z.land (LCD.stat (LCD.g_lcd st')) 0x07
      = Z.land (LCD.stat (LCD.g_lcd st)) 0x07 /\
    Z.land (LCD.stat (LCD.g_lcd st')) 0x78 = Z.land v 0x78 /\
    Z.testbit (LCD.stat (LCD.g_lcd st')) 7 = true /\
    is_u8 (LCD.stat (LCD.g_lcd st')) /\
    LCD.same_except_stat (LCD.g_lcd st) (LCD.g_lcd st') /\
    LCD.g_palettes st' = LCD.g_palettes st /\
    LCD.lcd_log st' = LCD.lcd_log st.
Proof.
  eexists. split; [apply write_lcd_stat_eq |].
  cbn [LCD.with_lcd LCD.g_lcd LCD.g_palettes LCD.lcd_log].
  rewrite stat_set_stat.
  split; [apply stat_after_write_low |].
  split; [apply stat_after_write_mid |].
  split; [apply stat_after_write_top |].
  split; [apply to_u8_range |].
  split; [apply set_stat_same_except_stat |].
  split; reflexivity.
Qed.

(** C6: for every value [v], [write_lcd(0xFF44, v)] returns normally after
    logging one warning; the LCD registers (LY and STAT among them) and
    the palettes are what they were. *)
Theorem write_lcd_ly_is_read_only (BG_PALETTE v : Z) (st : LCD.lcd_state) :
  exists st',
    LCD.write_lcd BG_PALETTE 0xFF44 v st = Ok st' /\
    LCD.g_lcd st' = LCD.g_lcd st /\
    LCD.g_palettes st' = LCD.g_palettes st /\
    LCD.lcd_log st' =
      LCD.lcd_log st
      ++ [log_warn "LCD: Writing to read only address (HEX). Skipping."
                   (ArgHex 0xFF44)].
Proof. eexists. split; [reflexivity |]. cbn. auto. Qed.

(** [lcd_set_mode] writes the mode into bits 1-0 of STAT and keeps the
    other bits. *)
Lemma lcd_set_mode_bits (mode : Z) (st : LCD.lcd_state) :
  let stat' := LCD.stat (LCD.g_lcd (LCD.lcd_set_mode mode st)) in
  Z.land stat' 0x03 = Z.land mode 0x03 /\
  Z.land stat' 0xFC = Z.land (LCD.stat (LCD.g_lcd st)) 0xFC.
Proof.
  unfold LCD.lcd_set_mode. cbn [LCD.with_lcd LCD.g_lcd].
  rewrite stat_set_stat. generalize (LCD.stat (LCD.g_lcd st)) as old.
  intros old. split; byte_bits.
Qed.

(** After [init_lcd] the registers read as the power-up values. *)
Lemma init_lcd_registers :
  LCD.read_lcd 0xFF40 (LCD.init_lcd LCD.static_lcd_state) = Ok 0x91 /\
  LCD.read_lcd 0xFF41 (LCD.init_lcd LCD.static_lcd_state) = Ok 0x04 /\
  LCD.read_lcd 0xFF47 (LCD.init_lcd LCD.static_lcd_state) = Ok 0xFC.
Proof. repeat split. Qed.

(** A write to LYC refreshes the LYC flag, bit 2 of STAT. *)
Lemma write_lcd_lyc_flag (BG_PALETTE v : Z) (st : LCD.lcd_state) :
  exists st',
    LCD.write_lcd BG_PALETTE 0xFF45 v st = Ok st' /\
    LCD.lyc (LCD.g_lcd st') = v /\
    Z.testbit (LCD.stat (LCD.g_lcd st')) 2 = (LCD.ly (LCD.g_lcd st) =? v).
Proof.
  destruct st as [l p lg]. destruct l.
  unfold LCD.write_lcd, LCD.write_lcd_default, LCD.update_lyc_flag.
  cbn -[Z.testbit to_u8 Z.lor Z.land].
  destruct (ly =? v); eexists; (split; [reflexivity |]);
    cbn -[Z.testbit to_u8 Z.lor Z.land];
    (split; [reflexivity |]);
    rewrite to_u8_testbit by lia.
  - rewrite Z.lor_spec. change (Z.testbit 4 2) with true.
    now rewrite orb_true_r.
  - rewrite Z.land_spec. change (Z.testbit (-5) 2) with false.
    now rewrite andb_false_r.
Qed.

(** A palette write never fails for the three palette registers: the
    index handed to [lcd_get_palette] is 0, 1 or 2. *)
Lemma lcd_update_palette_completes (BG_PALETTE name data : Z)
      (st : LCD.lcd_state) :
  0 <= name < LCD.INVALID ->
  exists p,
    LCD.lcd_update_palette BG_PALETTE name data st
    = Ok (LCD.with_palettes p st).
Proof.
  intros H. unfold LCD.lcd_update_palette, LCD.lcd_get_palette.
  destruct (Z.ltb_spec name LCD.INVALID) as [_ | Hge]; [| lia].
  cbn [bind]. eexists. reflexivity.
Qed.

(** A store through the byte view is read back through it. *)
Lemma poke_then_peek (off v : Z) (l : LCD.lcd) :
  0 <= off < LCD.sizeof_lcd ->
  exists l', LCD.poke off v l = Ok l' /\ LCD.peek off l' = Ok v.
Proof.
  unfold LCD.sizeof_lcd. intros H.
  assert (off = 0 \/ off = 1 \/ off = 2 \/ off = 3 \/ off = 4 \/ off = 5 \/
          off = 6 \/ off = 7 \/ off = 8 \/ off = 9 \/ off = 10 \/ off = 11 \/
          off = 12 \/ off = 13 \/ off = 14 \/ off = 15) as Hoff by lia.
  destruct l.
  repeat (destruct Hoff as [-> | Hoff]; [eexists; split; reflexivity |]).
  subst off. eexists; split; reflexivity.
Qed.

Lemma peek_completes (off : Z) (l : LCD.lcd) :
  0 <= off < LCD.sizeof_lcd -> completes (LCD.peek off l).
Proof.
  intros H. destruct (poke_then_peek off (LCD.lcdc l) l H) as (l' & Hpoke & _).
  unfold LCD.poke in Hpoke. unfold LCD.peek, completes.
  destruct off as [| q | q]; [eexists; reflexivity | | discriminate].
  repeat (destruct q as [q | q |]; try discriminate;
          try (eexists; reflexivity)).
Qed.

(** The refresh of the LYC flag only touches STAT (offset 1). *)
Lemma update_lyc_flag_peek (address off : Z) (st : LCD.lcd_state) :
  off <> 1 ->
  LCD.peek off (LCD.g_lcd (LCD.update_lyc_flag address st))
  = LCD.peek off (LCD.g_lcd st).
Proof.
  intros Hoff. unfold LCD.update_lyc_flag.
  destruct (BETWEEN address 0xFF44 0xFF45); [| reflexivity].
  destruct st as [l p lg]. destruct l. cbn.
  destruct (ly =? lyc); cbn;
    (destruct off as [| q | q]; [reflexivity | | reflexivity]);
    repeat (destruct q as [q | q |]; try congruence; try reflexivity).
Qed.

(** The default label over the monochrome block and over the colour
    block. *)
Lemma write_lcd_default_mono (address v : Z) (st : LCD.lcd_state) :
  0xFF40 <= address <= 0xFF4B ->
  exists l',
    LCD.write_lcd_default address v st = Ok (LCD.with_lcd l' st) /\
    LCD.peek (address - 0xFF40) l' = Ok v.
Proof.
  intros H. unfold LCD.write_lcd_default.
  destruct (Z.leb_spec address 0xFF4B) as [_ | Hgt]; [| lia].
  destruct (poke_then_peek (address - 0xFF40) v (LCD.g_lcd st))
    as (l' & -> & Hpeek); [unfold LCD.sizeof_lcd; lia |].
  exists l'. split; [reflexivity | exact Hpeek].
Qed.

Lemma write_lcd_default_color (address v : Z) (st : LCD.lcd_state) :
  0xFF68 <= address <= 0xFF6B ->
  exists l', LCD.write_lcd_default address v st = Ok (LCD.with_lcd l' st).
Proof.
  intros H. unfold LCD.write_lcd_default, BETWEEN.
  destruct (Z.leb_spec address 0xFF4B) as [Hle | _]; [lia |].
  destruct (Z.leb_spec 0xFF68 address) as [_ | Hlt]; [| lia].
  destruct (Z.leb_spec address 0xFF6B) as [_ | Hgt]; [| lia].
  cbn [andb].
  destruct (poke_then_peek (LCD.offsetof_cgb_colors + (address - 0xFF68)) v
                           (LCD.g_lcd st))
    as (l' & -> & _);
    [unfold LCD.sizeof_lcd, LCD.offsetof_cgb_colors; lia |].
  exists l'. reflexivity.
Qed.

(** [write_lcd] away from the three registers with a case of their own:
    the palette update for 0xFF47..0xFF49, then the default label, then
    the refresh of the LYC flag. *)
Lemma write_lcd_palette_registers (BG_PALETTE address v : Z)
      (st : LCD.lcd_state) :
  0xFF47 <= address <= 0xFF49 ->
  LCD.write_lcd BG_PALETTE address v st =
  (st1 <- LCD.lcd_update_palette BG_PALETTE (address - 0xFF47) v st ;;
   st2 <- LCD.write_lcd_default address v st1 ;;
   Ok (LCD.update_lyc_flag address st2)).
Proof.
  intros H. unfold LCD.write_lcd.
  destruct (Z.eqb_spec address 0xFF41); [lia |].
  destruct (Z.eqb_spec address 0xFF44); [lia |].
  destruct (Z.eqb_spec address 0xFF46); [lia |].
  destruct (Z.eqb_spec address 0xFF47); [reflexivity |].
  destruct (Z.eqb_spec address 0xFF48); [reflexivity |].
  destruct (Z.eqb_spec address 0xFF49); [reflexivity | lia].
Qed.

Lemma write_lcd_other_registers (BG_PALETTE address v : Z)
      (st : LCD.lcd_state) :
  address <> 0xFF41 -> address <> 0xFF44 -> address <> 0xFF46 ->
  ~ 0xFF47 <= address <= 0xFF49 ->
  LCD.write_lcd BG_PALETTE address v st =
  (st2 <- LCD.write_lcd_default address v st ;;
   Ok (LCD.update_lyc_flag address st2)).
Proof.
  intros H41 H44 H46 Hpal. unfold LCD.write_lcd.
  destruct (Z.eqb_spec address 0xFF41); [contradiction |].
  destruct (Z.eqb_spec address 0xFF44); [contradiction |].
  destruct (Z.eqb_spec address 0xFF46); [contradiction |].
  destruct (Z.eqb_spec address 0xFF47); [lia |].
  destruct (Z.eqb_spec address 0xFF48); [lia |].
  destruct (Z.eqb_spec address 0xFF49); [lia | reflexivity].
Qed.

(** A write to a register of the monochrome block other than STAT, LY
    and DMA returns normally, and the byte view then holds the value at
    the register's offset. *)
Lemma write_lcd_stores (BG_PALETTE address v : Z) (st : LCD.lcd_state) :
  0xFF40 <= address <= 0xFF4B ->
  address <> 0xFF41 -> address <> 0xFF44 -> address <> 0xFF46 ->
  exists st',
    LCD.write_lcd BG_PALETTE address v st = Ok st' /\
    LCD.peek (address - 0xFF40) (LCD.g_lcd st') = Ok v.
Proof.
  intros Hrange H41 H44 H46.
  assert (0xFF47 <= address <= 0xFF49 \/ ~ 0xFF47 <= address <= 0xFF49)
    as [Hpal | Hplain] by lia.
  - rewrite write_lcd_palette_registers by exact Hpal.
    destruct (lcd_update_palette_completes BG_PALETTE (address - 0xFF47) v st)
      as [p ->]; [unfold LCD.INVALID; lia |].
    cbn [bind].
    destruct (write_lcd_default_mono address v (LCD.with_palettes p st) Hrange)
      as (l' & -> & Hpeek).
    cbn [bind]. eexists. split; [reflexivity |].
    rewrite update_lyc_flag_peek by lia. exact Hpeek.
  - rewrite write_lcd_other_registers by assumption.
    destruct (write_lcd_default_mono address v st Hrange)
      as (l' & -> & Hpeek).
    cbn [bind]. eexists. split; [reflexivity |].
    rewrite update_lyc_flag_peek by lia. exact Hpeek.
Qed.

(** C10: for every address among 0xFF42, 0xFF43, 0xFF45, 0xFF47, 0xFF48,
    0xFF49 and 0xFF4A and every value [v], [write_lcd(address, v)] returns
    normally and [read_lcd(address)] then returns [v]. *)
Theorem write_then_read_lcd (BG_PALETTE address v : Z) (st : LCD.lcd_state) :
  In address [0xFF42; 0xFF43; 0xFF45; 0xFF47; 0xFF48; 0xFF49; 0xFF4A] ->
  exists st',
    LCD.write_lcd BG_PALETTE address v st = Ok st' /\
    LCD.read_lcd address st' = Ok v.
Proof.
  intros Hin.
  assert (0xFF40 <= address <= 0xFF4A /\ address <> 0xFF41 /\
          address <> 0xFF44 /\ address <> 0xFF46) as (Hr & H41 & H44 & H46).
  { cbn [In] in Hin. lia. }
  destruct (write_lcd_stores BG_PALETTE address v st) as (st' & Hw & Hpeek);
    try assumption; [lia |].
  exists st'. split; [exact Hw |].
  unfold LCD.read_lcd, BETWEEN.
  destruct (Z.leb_spec 0xFF40 address); [| lia].
  destruct (Z.leb_spec address 0xFF4A); [| lia].
  exact Hpeek.
Qed.

(** The round trip at SCY, from the state [init_lcd] leaves. *)
Lemma write_then_read_lcd_witness :
  In 0xFF42 [0xFF42; 0xFF43; 0xFF45; 0xFF47; 0xFF48; 0xFF49; 0xFF4A] /\
  exists st',
    LCD.write_lcd 0 0xFF42 0x5A (LCD.init_lcd LCD.static_lcd_state) = Ok st' /\
    LCD.read_lcd 0xFF42 st' = Ok 0x5A.
Proof.
  split; [simpl; auto |].
  apply (write_then_read_lcd 0 0xFF42 0x5A (LCD.init_lcd LCD.static_lcd_state)).
  simpl; auto.
Defined.

(** [read_lcd] stops at its assertion for WX, the last register of the
    monochrome block. *)
Lemma read_lcd_wx_fails :
  ~ completes (LCD.read_lcd 0xFF4B (LCD.init_lcd LCD.static_lcd_state)).
Proof. intros [v Hv]. discriminate Hv. Qed.

(** C7, amended: [write_lcd] returns normally for every address of the
    monochrome block 0xFF40-0xFF4B other than the DMA register 0xFF46 and
    for every address of the colour block 0xFF68-0xFF6B; [read_lcd]
    returns normally for every address in 0xFF40-0xFF4A, the range its
    assertion admits. *)
Theorem lcd_accessors_defined (BG_PALETTE address v : Z)
        (st : LCD.lcd_state) :
  ((0xFF40 <= address <= 0xFF4B /\ address <> 0xFF46) \/
   0xFF68 <= address <= 0xFF6B ->
   completes (LCD.write_lcd BG_PALETTE address v st)) /\
  (0xFF40 <= address <= 0xFF4A -> completes (LCD.read_lcd address st)).
Proof.
  split.
  - intros [[Hmono H46] | Hcolor].
    + destruct (Z.eq_dec address 0xFF41) as [-> | H41].
      { eexists. apply write_lcd_stat_eq. }
      destruct (Z.eq_dec address 0xFF44) as [-> | H44].
      { eexists. reflexivity. }
      destruct (write_lcd_stores BG_PALETTE address v st)
        as (st' & Hw & _); try assumption.
      exists st'. exact Hw.
    + rewrite write_lcd_other_registers by lia.
      destruct (write_lcd_default_color address v st Hcolor) as [l' ->].
      eexists. reflexivity.
  - intros Hread. unfold LCD.read_lcd, BETWEEN.
    destruct (Z.leb_spec 0xFF40 address); [| lia].
    destruct (Z.leb_spec address 0xFF4A); [| lia].
    cbn [andb]. apply peek_completes. unfold LCD.sizeof_lcd. lia.
Qed.

(** Both accessors at WY, the last register [read_lcd] admits. *)
Lemma lcd_accessors_defined_witness :
  (0xFF40 <= 0xFF4A <= 0xFF4B /\ 0xFF4A <> 0xFF46) /\
  completes (LCD.write_lcd 0 0xFF4A 7 (LCD.init_lcd LCD.static_lcd_state)) /\
  completes (LCD.read_lcd 0xFF4A (LCD.init_lcd LCD.static_lcd_state)).
Proof.
  destruct (lcd_accessors_defined 0 0xFF4A 7 (LCD.init_lcd LCD.static_lcd_state))
    as [Hw Hr].
  split; [lia |].
  split; [apply Hw; left; lia | apply Hr; lia].
Defined.

(** ** The I/O dispatch *)

(** [read_io] at an address no register is mapped to does not give 0xFF:
    0xFF00 lies outside DIV..TAC and is not IF. *)
Lemma read_io_unmapped_is_not_0xFF :
  IN_RANGE 0xFF00 0xFF04 0xFF07 = false /\ 0xFF00 <> 0xFF0F /\
  fst (IO.toy_read_io 0xFF00 (IO.mk_io_state (0, 0) [])) <> 0xFF.
Proof. repeat split; cbn; discriminate. Qed.

(** C4, amended: for every address outside the timer range and different
    from the interrupt-flag register, [read_io] logs a diagnostic and
    returns 0, [write_io] logs a diagnostic, and both leave the emulated
    state as it was; both return. *)
Theorem io_unmapped_address
        (Emu : Type) (TIMER_DIV TIMER_TAC IF_ADDRESS : Z)
        (write_timer : Z -> Z -> Emu -> Emu) (read_timer : Z -> Emu -> Z * Emu)
        (write_interrupt : Z -> Z -> Emu -> Emu)
        (read_interrupt : Z -> Emu -> Z * Emu)
        (address data : Z) (st : IO.io_state Emu) :
  IN_RANGE address TIMER_DIV TIMER_TAC = false ->
  address <> IF_ADDRESS ->
  IO.read_io Emu TIMER_DIV TIMER_TAC IF_ADDRESS read_timer read_interrupt
             address st
  = (0, IO.mk_io_state
          (IO.emu st)
          (IO.io_log st ++ [log_err "IO write: HEX" (ArgHex address)])) /\
  IO.write_io Emu TIMER_DIV TIMER_TAC IF_ADDRESS write_timer write_interrupt
              address data st
  = IO.mk_io_state
      (IO.emu st)
      (IO.io_log st ++ [log_err "IO write: HEX" (ArgHex address)]).
Proof.
  intros Hrange Hif. unfold IO.read_io, IO.write_io.
  rewrite Hrange.
  destruct (Z.eqb_spec address IF_ADDRESS) as [Heq | _]; [contradiction |].
  split; reflexivity.
Qed.

(** The joypad register 0xFF00, which this dispatch does not map. *)
Lemma io_unmapped_address_witness :
  IN_RANGE 0xFF00 0xFF04 0xFF07 = false /\ 0xFF00 <> 0xFF0F /\
  IO.toy_read_io 0xFF00 (IO.mk_io_state (3, 4) [])
  = (0, IO.mk_io_state (3, 4) [log_err "IO write: HEX" (ArgHex 0xFF00)]) /\
  IO.toy_write_io 0xFF00 9 (IO.mk_io_state (3, 4) [])
  = IO.mk_io_state (3, 4) [log_err "IO write: HEX" (ArgHex 0xFF00)].
Proof.
  split; [reflexivity |]. split; [discriminate |].
  apply (io_unmapped_address IO.toy_emu 0xFF04 0xFF07 0xFF0F
           (fun _ d e => (d, snd e)) (fun _ e => (fst e, e))
           (fun _ d e => (fst e, d)) (fun _ e => (snd e, e))
           0xFF00 9 (IO.mk_io_state (3, 4) []));
    [reflexivity | discriminate].
Defined.

(** The mapped registers are forwarded to their owners. *)
Lemma io_timer_forwarded
      (Emu : Type) (TIMER_DIV TIMER_TAC IF_ADDRESS : Z)
      (write_timer : Z -> Z -> Emu -> Emu)
      (write_interrupt : Z -> Z -> Emu -> Emu)
      (address data : Z) (st : IO.io_state Emu) :
  TIMER_DIV <= address <= TIMER_TAC ->
  IO.write_io Emu TIMER_DIV TIMER_TAC IF_ADDRESS write_timer write_interrupt
              address data st
  = IO.mk_io_state (write_timer address data (IO.emu st)) (IO.io_log st).
Proof.
  intros H. unfold IO.write_io, IN_RANGE.
  destruct (Z.leb_spec TIMER_DIV address); [| lia].
  destruct (Z.leb_spec address TIMER_TAC); [| lia].
  reflexivity.
Qed.

(** ** The opcode bit fields *)

(** Shifting right then masking with [w] ones extracts a field. *)
Lemma shiftr_land_field (b lo w : Z) :
  0 <= lo -> 0 <= w ->
  Z.land (Z.shiftr b lo) (Z.ones w) = (b / 2 ^ lo) mod 2 ^ w.
Proof.
  intros Hlo Hw. now rewrite Z.land_ones, Z.shiftr_div_pow2 by lia.
Qed.

(** Under the big-endian branch the macros are the fields of the
    comment, for every opcode byte. *)
Lemma opcode_fields_big_endian (b : Z) :
  is_u8 b ->
  Opcode.OPCODE_X Opcode.BIG_ENDIAN b = Opcode.bit_field 7 6 b /\
  Opcode.OPCODE_Y Opcode.BIG_ENDIAN b = Opcode.bit_field 5 3 b /\
  Opcode.OPCODE_Z Opcode.BIG_ENDIAN b = Opcode.bit_field 2 0 b /\
  Opcode.OPCODE_P Opcode.BIG_ENDIAN b = Opcode.bit_field 5 4 b /\
  Opcode.OPCODE_Q Opcode.BIG_ENDIAN b = Opcode.bit_field 3 3 b.
Proof.
  intros Hb. unfold is_u8 in Hb.
  unfold Opcode.bit_field, Opcode.OPCODE_X, Opcode.OPCODE_Y, Opcode.OPCODE_Z,
    Opcode.OPCODE_P, Opcode.OPCODE_Q.
  repeat split.
  - rewrite Z.shiftr_div_pow2 by lia. symmetry. apply Z.mod_small.
    change (2 ^ (7 - 6 + 1)) with 4. change (2 ^ 6) with 64. split.
    + apply Z.div_pos; lia.
    + apply Z.div_lt_upper_bound; lia.
  - exact (shiftr_land_field b 3 3 ltac:(lia) ltac:(lia)).
  - rewrite <- (Z.shiftr_0_r b) at 1.
    exact (shiftr_land_field b 0 3 ltac:(lia) ltac:(lia)).
  - exact (shiftr_land_field b 4 2 ltac:(lia) ltac:(lia)).
  - exact (shiftr_land_field b 3 1 ltac:(lia) ltac:(lia)).
Qed.

(** What the little-endian branch extracts instead: x from bits 1-0, y
    from bits 4-2, z from bits 7-5, p from bits 3-2, q from bit 4. *)
Lemma opcode_fields_little_endian (b : Z) :
  is_u8 b ->
  Opcode.OPCODE_X Opcode.LITTLE_ENDIAN b = Opcode.bit_field 1 0 b /\
  Opcode.OPCODE_Y Opcode.LITTLE_ENDIAN b = Opcode.bit_field 4 2 b /\
  Opcode.OPCODE_Z Opcode.LITTLE_ENDIAN b = Opcode.bit_field 7 5 b /\
  Opcode.OPCODE_P Opcode.LITTLE_ENDIAN b = Opcode.bit_field 3 2 b /\
  Opcode.OPCODE_Q Opcode.LITTLE_ENDIAN b = Opcode.bit_field 4 4 b.
Proof.
  intros Hb. unfold is_u8 in Hb.
  unfold Opcode.bit_field, Opcode.OPCODE_X, Opcode.OPCODE_Y, Opcode.OPCODE_Z,
    Opcode.OPCODE_P, Opcode.OPCODE_Q.
  repeat split.
  - rewrite <- (Z.shiftr_0_r b) at 1.
    exact (shiftr_land_field b 0 2 ltac:(lia) ltac:(lia)).
  - exact (shiftr_land_field b 2 3 ltac:(lia) ltac:(lia)).
  - rewrite Z.shiftr_div_pow2 by lia. symmetry. apply Z.mod_small.
    change (2 ^ (7 - 5 + 1)) with 8. change (2 ^ 5) with 32. split.
    + apply Z.div_pos; lia.
    + apply Z.div_lt_upper_bound; lia.
  - exact (shiftr_land_field b 2 2 ltac:(lia) ltac:(lia)).
  - exact (shiftr_land_field b 4 1 ltac:(lia) ltac:(lia)).
Qed.

(** C3, at the opcode 0x4B (x = 1, y = 1, z = 3, p = 0, q = 1): the
    big-endian branch of the macros gives these fields, the little-endian
    branch gives x = 3, y = 2, z = 2, p = 2, q = 0, so the fields
    extracted depend on the branch compiled. *)
Theorem opcode_fields_depend_on_branch :
  (Opcode.bit_field 7 6 0x4B, Opcode.bit_field 5 3 0x4B,
   Opcode.bit_field 2 0 0x4B, Opcode.bit_field 5 4 0x4B,
   Opcode.bit_field 3 3 0x4B) = (1, 1, 3, 0, 1) /\
  (Opcode.OPCODE_X Opcode.BIG_ENDIAN 0x4B, Opcode.OPCODE_Y Opcode.BIG_ENDIAN 0x4B,
   Opcode.OPCODE_Z Opcode.BIG_ENDIAN 0x4B, Opcode.OPCODE_P Opcode.BIG_ENDIAN 0x4B,
   Opcode.OPCODE_Q Opcode.BIG_ENDIAN 0x4B) = (1, 1, 3, 0, 1) /\
  (Opcode.OPCODE_X Opcode.LITTLE_ENDIAN 0x4B,
   Opcode.OPCODE_Y Opcode.LITTLE_ENDIAN 0x4B,
   Opcode.OPCODE_Z Opcode.LITTLE_ENDIAN 0x4B,
   Opcode.OPCODE_P Opcode.LITTLE_ENDIAN 0x4B,
   Opcode.OPCODE_Q Opcode.LITTLE_ENDIAN 0x4B) = (3, 2, 2, 2, 0).
Proof. repeat split. Qed.

(** ** The cartridge loader *)

(** The check only depends on the ROM bytes. *)
Lemma verify_header_checksum_rom (c1 c2 : Cartridge.cartridge_t) :
  Cartridge.rom c1 = Cartridge.rom c2 ->
  Cartridge.verify_header_checksum c1 = Cartridge.verify_header_checksum c2.
Proof.
  intros H. unfold Cartridge.verify_header_checksum.
  f_equal. generalize (@Ok Z 0) as acc.
  induction Cartridge.checksum_range as [| i rest IH]; intros acc.
  - reflexivity.
  - cbn [fold_left]. rewrite IH. f_equal.
    unfold Cartridge.checksum_step, Cartridge.rom_at. now rewrite H.
Qed.

(** What [load_cartridge] returns once the file is open and the header
    fields can be read: the negation of the checksum test. *)
Lemma load_cartridge_returns_negated_check
      (fopen : string -> option (list Z)) (malloc_contents : Z -> list Z)
      (header_ram_size header_rom_version header_type : list Z -> result Z)
      (ROM_ONLY MBC1 MBC2 : Z) (Chip : Type)
      (check_multicart :
         Cartridge.cartridge_t * Chip -> Cartridge.cartridge_t * Chip)
      (path : string) (st : Cartridge.loader_state Chip)
      (file : list Z) (code version type : Z) (valid : bool) :
  fopen path = Some file ->
  header_ram_size (malloc_contents (Z.of_nat (List.length file))) = Ok code ->
  header_rom_version (malloc_contents (Z.of_nat (List.length file)))
    = Ok version ->
  header_type file = Ok type ->
  Cartridge.verify_header_checksum
    (Cartridge.mk_cartridge "" file 0 0 false) = Ok valid ->
  exists st',
    Cartridge.load_cartridge fopen malloc_contents header_ram_size
      header_rom_version header_type ROM_ONLY MBC1 MBC2 Chip check_multicart
      path st = Ok (negb valid, st').
Proof.
  intros Hopen Hcode Hversion Htype Hvalid.
  unfold Cartridge.load_cartridge.
  rewrite Hopen, Hcode. cbn [bind]. rewrite Hversion. cbn [bind].
  erewrite verify_header_checksum_rom
    with (c2 := Cartridge.mk_cartridge "" file 0 0 false) by reflexivity.
  rewrite Hvalid.
  cbn [bind].
  destruct valid.
  - eexists. reflexivity.
  - cbn [Cartridge.rom]. rewrite Htype. cbn [bind].
    destruct (negb (type =? ROM_ONLY) && (type <=? MBC1));
      [destruct (check_multicart _) |]; eexists; reflexivity.
Qed.

(** C5, on two images: the image of zero bytes fails the check of
    [verify_header_checksum] and yet [load_cartridge] returns true without
    a message; the image of bytes 1 passes the check and [load_cartridge]
    returns false after the message ``Invalid checksum''. *)
Theorem load_cartridge_inverts_checksum :
  Cartridge.verify_header_checksum
    (Cartridge.mk_cartridge "zeros.gb" (Cartridge.flat_image 0) 0x0150 0 false)
  = Ok false /\
  (exists st',
      Cartridge.toy_load_cartridge "zeros.gb" Cartridge.empty_loader_state
      = Ok (true, st') /\ Cartridge.stderr st' = []) /\
  Cartridge.verify_header_checksum
    (Cartridge.mk_cartridge "ones.gb" (Cartridge.flat_image 1) 0x0150 0 false)
  = Ok true /\
  (exists st',
      Cartridge.toy_load_cartridge "ones.gb" Cartridge.empty_loader_state
      = Ok (false, st') /\
      Cartridge.stderr st' = ["Failed to load cartridge: Invalid checksum."]).
Proof.
  split; [vm_compute; reflexivity |].
  split; [eexists; split; vm_compute; reflexivity |].
  split; [vm_compute; reflexivity |].
  eexists; split; vm_compute; reflexivity.
Qed.

(** A file that cannot be opened is reported and refused, whatever the
    rest of the world. *)
Lemma load_cartridge_unreadable :
  exists st',
    Cartridge.toy_load_cartridge "missing.gb" Cartridge.empty_loader_state
    = Ok (false, st') /\
    Cartridge.stderr st' = ["Failed to load cartridge"].
Proof. eexists; split; vm_compute; reflexivity. Qed.

(** ** The command line *)

Section PositionalArguments.

Variable GBEMU_NB_ARGS : nat.

(** The positional arguments handed over once the options are done, of
    which [arg_num] have been handed over already: they are let through
    when they number [GBEMU_NB_ARGS] or one more in all, and the options
    then hold every one of them at its index. *)
Lemma argp_parse_args_accepts (vs : list string) :
  forall (arg_num : nat) (o : CLI.options),
    (arg_num + List.length vs <= S GBEMU_NB_ARGS)%nat ->
    (GBEMU_NB_ARGS <= arg_num + List.length vs)%nat ->
    exists o',
      CLI.argp_parse_args GBEMU_NB_ARGS vs arg_num o = CLI.Parsed o' /\
      forall i,
        CLI.args_at i (CLI.args o') =
        if (i <? arg_num)%nat then CLI.args_at i (CLI.args o)
        else match nth_error vs (i - arg_num) with
             | Some v => Some v
             | None => CLI.args_at i (CLI.args o)
             end.
Proof.
  induction vs as [| v rest IH]; intros arg_num o Hmax Hmin;
    cbn -[Nat.ltb] in *.
  - destruct (Nat.ltb_spec arg_num GBEMU_NB_ARGS); [lia |].
    eexists. split; [reflexivity |]. intros i.
    destruct (i <? arg_num)%nat; [reflexivity |].
    now destruct (i - arg_num)%nat.
  - destruct (Nat.ltb_spec GBEMU_NB_ARGS arg_num); [lia |].
    destruct (IH (S arg_num) (CLI.set_arg arg_num v o)) as (o' & -> & Hargs);
      [lia | lia |].
    exists o'. split; [reflexivity |]. intros i. rewrite Hargs.
    cbn -[Nat.ltb Nat.eqb].
    destruct (Nat.ltb_spec i (S arg_num)) as [Hlt | Hge].
    + destruct (Nat.eqb_spec i arg_num) as [-> | Hne].
      * rewrite Nat.ltb_irrefl, Nat.sub_diag. reflexivity.
      * destruct (Nat.ltb_spec i arg_num); [reflexivity | lia].
    + destruct (Nat.ltb_spec i arg_num); [lia |].
      replace (i - arg_num)%nat with (S (i - S arg_num)) by lia.
      cbn [nth_error].
      destruct (nth_error rest (i - S arg_num)); [reflexivity |].
      destruct (Nat.eqb_spec i arg_num); [lia | reflexivity].
Qed.

Lemma argp_parse_args_too_few (vs : list string) :
  forall (arg_num : nat) (o : CLI.options),
    (arg_num + List.length vs < GBEMU_NB_ARGS)%nat ->
    CLI.argp_parse_args GBEMU_NB_ARGS vs arg_num o
    = CLI.Exited CLI.argp_err_exit_status.
Proof.
  induction vs as [| v rest IH]; intros arg_num o Hfew; cbn -[Nat.ltb] in *.
  - destruct (Nat.ltb_spec arg_num GBEMU_NB_ARGS); [reflexivity | lia].
  - destruct (Nat.ltb_spec GBEMU_NB_ARGS arg_num); [reflexivity |].
    apply IH; lia.
Qed.

Lemma argp_parse_args_too_many (vs : list string) :
  forall (arg_num : nat) (o : CLI.options),
    vs <> [] ->
    (S GBEMU_NB_ARGS < arg_num + List.length vs)%nat ->
    CLI.argp_parse_args GBEMU_NB_ARGS vs arg_num o
    = CLI.Exited CLI.argp_err_exit_status.
Proof.
  induction vs as [| v rest IH]; intros arg_num o Hne Hmany;
    cbn -[Nat.ltb] in *.
  - contradiction.
  - destruct (Nat.ltb_spec GBEMU_NB_ARGS arg_num) as [| Hle]; [reflexivity |].
    destruct rest as [| v' rest'].
    + cbn in Hmany. lia.
    + apply IH; [discriminate | cbn in *; lia].
Qed.

(** A command line of positional arguments only has no option to parse
    first. *)
Lemma argp_parse_positionals_only (vs : list string) (arg_num : nat)
      (o : CLI.options) :
  CLI.argp_parse GBEMU_NB_ARGS (map CLI.Arg vs) arg_num o
  = CLI.argp_parse_args GBEMU_NB_ARGS vs arg_num o.
Proof.
  unfold CLI.argp_parse.
  assert (CLI.argp_parse_options GBEMU_NB_ARGS (map CLI.Arg vs) arg_num o
          = CLI.Parsed o) as ->
      by (induction vs as [| v rest IH]; [reflexivity | exact IH]).
  assert (CLI.positionals (map CLI.Arg vs) = vs) as ->
      by (induction vs as [| v rest IH]; [reflexivity | cbn; now f_equal]).
  reflexivity.
Qed.

(** A command line of positional arguments only, of which [arg_num] have
    been handed over already: it is let through when the arguments number
    [GBEMU_NB_ARGS] or one more in all, and the options then hold every
    one of them at its index. *)
Lemma argp_parse_accepts (vs : list string) :
  forall (arg_num : nat) (o : CLI.options),
    (arg_num + List.length vs <= S GBEMU_NB_ARGS)%nat ->
    (GBEMU_NB_ARGS <= arg_num + List.length vs)%nat ->
    exists o',
      CLI.argp_parse GBEMU_NB_ARGS (map CLI.Arg vs) arg_num o = CLI.Parsed o' /\
      forall i,
        CLI.args_at i (CLI.args o') =
        if (i <? arg_num)%nat then CLI.args_at i (CLI.args o)
        else match nth_error vs (i - arg_num) with
             | Some v => Some v
             | None => CLI.args_at i (CLI.args o)
             end.
Proof.
  intros arg_num o Hmax Hmin. rewrite argp_parse_positionals_only.
  now apply argp_parse_args_accepts.
Qed.

Lemma argp_parse_too_few (vs : list string) :
  forall (arg_num : nat) (o : CLI.options),
    (arg_num + List.length vs < GBEMU_NB_ARGS)%nat ->
    CLI.argp_parse GBEMU_NB_ARGS (map CLI.Arg vs) arg_num o
    = CLI.Exited CLI.argp_err_exit_status.
Proof.
  intros arg_num o Hfew. rewrite argp_parse_positionals_only.
  now apply argp_parse_args_too_few.
Qed.

Lemma argp_parse_too_many (vs : list string) :
  forall (arg_num : nat) (o : CLI.options),
    vs <> [] ->
    (S GBEMU_NB_ARGS < arg_num + List.length vs)%nat ->
    CLI.argp_parse GBEMU_NB_ARGS (map CLI.Arg vs) arg_num o
    = CLI.Exited CLI.argp_err_exit_status.
Proof.
  intros arg_num o Hne Hmany. rewrite argp_parse_positionals_only.
  now apply argp_parse_args_too_many.
Qed.

(** The numbers of positional arguments the parser lets through are
    [GBEMU_NB_ARGS] and [GBEMU_NB_ARGS + 1]; every other number ends in
    the usage message and the exit status of argp. *)
Lemma parse_options_positional_counts (vs : list string) :
  (List.length vs = GBEMU_NB_ARGS \/ List.length vs = S GBEMU_NB_ARGS ->
   exists o,
     CLI.parse_options GBEMU_NB_ARGS (map CLI.Arg vs) = CLI.Parsed o) /\
  (List.length vs <> GBEMU_NB_ARGS /\ List.length vs <> S GBEMU_NB_ARGS ->
   CLI.parse_options GBEMU_NB_ARGS (map CLI.Arg vs)
   = CLI.Exited CLI.argp_err_exit_status).
Proof.
  unfold CLI.parse_options. split.
  - intros H.
    destruct (argp_parse_accepts vs 0 CLI.get_options) as (o & Ho & _);
      [cbn; lia | cbn; lia |].
    exists o. exact Ho.
  - intros [Hn Hs].
    destruct (Nat.lt_ge_cases (List.length vs) GBEMU_NB_ARGS) as [Hlt | Hge].
    + apply argp_parse_too_few. cbn. lia.
    + apply argp_parse_too_many; [| cbn; lia].
      intros ->. cbn in *. lia.
Qed.

End PositionalArguments.

(** With [GBEMU_NB_ARGS] = 1: no cartridge, or three and more, end in the
    usage message. *)
Lemma parse_options_usage (vs : list string) :
  vs = [] \/ (3 <= List.length vs)%nat ->
  CLI.parse_options 1 (map CLI.Arg vs) = CLI.Exited CLI.argp_err_exit_status.
Proof.
  intros H. apply parse_options_positional_counts.
  destruct H as [-> | H]; cbn; lia.
Qed.

(** C8, on the command lines with one positional argument more than
    [GBEMU_NB_ARGS]: the parser stores every one of them and
    [parse_options] returns the options struct; no usage message, no
    exit. *)
Theorem parse_options_accepts_one_more (GBEMU_NB_ARGS : nat)
        (vs : list string) :
  List.length vs = S GBEMU_NB_ARGS ->
  exists o,
    CLI.parse_options GBEMU_NB_ARGS (map CLI.Arg vs) = CLI.Parsed o /\
    forall i, (i <= GBEMU_NB_ARGS)%nat ->
              CLI.args_at i (CLI.args o) = nth_error vs i.
Proof.
  intros Hlen. unfold CLI.parse_options.
  destruct (argp_parse_accepts GBEMU_NB_ARGS vs 0 CLI.get_options)
    as (o & Ho & Hargs); [cbn; lia | cbn; lia |].
  exists o. split; [exact Ho |]. intros i Hi. rewrite Hargs.
  cbn -[nth_error]. rewrite Nat.sub_0_r.
  destruct (nth_error vs i) eqn:Hnth; [reflexivity |].
  apply nth_error_None in Hnth. lia.
Qed.

(** Two cartridges on the command line, the parser expecting one. *)
Lemma parse_options_accepts_one_more_witness :
  List.length ["a.gb"; "b.gb"] = 2%nat /\
  exists o,
    CLI.parse_options 1 (map CLI.Arg ["a.gb"; "b.gb"]) = CLI.Parsed o /\
    forall i, (i <= 1)%nat ->
              CLI.args_at i (CLI.args o) = nth_error ["a.gb"; "b.gb"] i.
Proof.
  split; [reflexivity |].
  apply (parse_options_accepts_one_more 1 ["a.gb"; "b.gb"]). reflexivity.
Defined.

(** ** The main loop *)

Section MainLoop.

Variable World : Type.
Variables is_running halt : World -> bool.
Variables timer_tick execute_instruction handle_interrupts : World -> World.
Variables test_rom_update test_rom_print : World -> World.

Local Abbreviation loop_body :=
  (Main.loop_body World halt timer_tick execute_instruction handle_interrupts
                  test_rom_update test_rom_print).
Local Abbreviation main_loop :=
  (Main.main_loop World is_running halt timer_tick execute_instruction
                  handle_interrupts test_rom_update test_rom_print).
Local Abbreviation loop_run :=
  (Main.loop_run World is_running halt timer_tick execute_instruction
                 handle_interrupts test_rom_update test_rom_print).
Local Abbreviation loop_watched :=
  (Main.loop_watched World is_running halt timer_tick execute_instruction
                     handle_interrupts test_rom_update test_rom_print).

(** The body, event by event: one unit of work chosen by the halt flag,
    one interrupt check, the test-ROM calls in blargg mode. *)
Lemma loop_body_events (blargg : bool) (w : World) :
  snd (loop_body blargg w) =
  (if halt w then Main.CallTimerTick else Main.CallExecuteInstruction)
    :: Main.CallHandleInterrupts
    :: (if blargg then [Main.CallTestRomUpdate; Main.CallTestRomPrint]
        else []).
Proof. unfold Main.loop_body. destruct (halt w), blargg; reflexivity. Qed.

Lemma loop_body_state (blargg : bool) (w : World) :
  fst (loop_body blargg w) =
  let w2 := handle_interrupts
              (if halt w then timer_tick w else execute_instruction w) in
  if blargg then test_rom_print (test_rom_update w2) else w2.
Proof. unfold Main.loop_body. destruct (halt w), blargg; reflexivity. Qed.

(** One more iteration in front of a run. *)
Lemma main_loop_step (fuel : nat) (blargg : bool) (w : World) :
  is_running w = true ->
  main_loop (S fuel) blargg w =
  (fst (fst (main_loop fuel blargg (fst (loop_body blargg w)))),
   Main.TestIsRunning true
     :: snd (loop_body blargg w)
     ++ snd (fst (main_loop fuel blargg (fst (loop_body blargg w)))),
   snd (main_loop fuel blargg (fst (loop_body blargg w)))).
Proof.
  intros Hrun. cbn [Main.main_loop]. rewrite Hrun.
  destruct (loop_body blargg w) as [w' body]. cbn [fst snd].
  destruct (main_loop fuel blargg w') as [[w'' rest] status]. reflexivity.
Qed.

Lemma main_loop_stop (fuel : nat) (blargg : bool) (w : World) :
  is_running w = false ->
  main_loop (S fuel) blargg w = (w, [Main.TestIsRunning false], Main.LoopExited).
Proof. intros Hrun. cbn [Main.main_loop]. now rewrite Hrun. Qed.

(** A loop that has ended has run as the claim says. *)
Lemma main_loop_exited_run (fuel : nat) (blargg : bool) (w w' : World)
      (trace : list Main.event) :
  main_loop fuel blargg w = (w', trace, Main.LoopExited) ->
  loop_run blargg w trace w'.
Proof.
  revert w w' trace. induction fuel as [| fuel IH]; intros w w' trace Hrun.
  - discriminate Hrun.
  - destruct (is_running w) eqn:Hflag.
    + rewrite main_loop_step in Hrun by exact Hflag.
      destruct (main_loop fuel blargg (fst (loop_body blargg w)))
        as [[w'' rest] status] eqn:Hrest.
      cbn [fst snd] in Hrun. injection Hrun as <- <- ->.
      apply IH in Hrest.
      rewrite loop_body_events. rewrite loop_body_state in Hrest.
      cbn [app].
      eapply Main.run_iteration with
        (w1 := if halt w then timer_tick w else execute_instruction w);
        [exact Hflag | | reflexivity | | exact Hrest].
      * destruct (halt w); [left | right]; auto.
      * destruct blargg; [left | right]; auto.
    + rewrite main_loop_stop in Hrun by exact Hflag.
      injection Hrun as <- <-. now apply Main.run_exit.
Qed.

(** C1: the loop, watched for any number [fuel] of iterations, runs as a
    sequence of whole iterations, each entered on a test that saw the
    running flag set and made of exactly one unit of work (one timer tick
    if the CPU is halted, one instruction otherwise) followed by exactly
    one call of [handle_interrupts], the machine state passing through
    them in this order; the flag is tested at the start of an iteration
    only.  The run is over, before [fuel] iterations, exactly at a test
    that saw the flag clear; otherwise all [fuel] iterations have been
    made. *)
Theorem main_loop_iterations (fuel : nat) (blargg : bool) (w : World) :
  loop_watched blargg w
               (snd (fst (main_loop fuel blargg w)))
               (fst (fst (main_loop fuel blargg w)))
               (snd (main_loop fuel blargg w)) /\
  match snd (main_loop fuel blargg w) with
  | Main.LoopExited =>
      (Main.iterations_entered (snd (fst (main_loop fuel blargg w))) < fuel)%nat
  | Main.LoopStillRunning =>
      Main.iterations_entered (snd (fst (main_loop fuel blargg w))) = fuel
  end.
Proof.
  revert w. induction fuel as [| fuel IH]; intros w.
  - split; [apply Main.watched_so_far | reflexivity].
  - destruct (is_running w) eqn:Hflag.
    + rewrite main_loop_step by exact Hflag. cbn [fst snd].
      destruct (IH (fst (loop_body blargg w))) as [Hrest Hcount].
      rewrite loop_body_events. rewrite loop_body_state in Hrest, Hcount |- *.
      cbv zeta in *. cbn [app]. split.
      * eapply Main.watched_iteration with
          (w1 := if halt w then timer_tick w else execute_instruction w);
          [exact Hflag | | reflexivity | | exact Hrest].
        -- destruct (halt w); [left | right]; auto.
        -- destruct blargg; [left | right]; auto.
      * unfold Main.iterations_entered in *.
        destruct (Main.main_loop _ _ _ _ _ _ _ _ fuel blargg _)
          as [[w'' rest] status].
        cbn [fst snd] in *.
        destruct (halt w), blargg, status; cbn [filter List.length app] in *;
          lia.
    + rewrite main_loop_stop by exact Hflag. cbn [fst snd]. split.
      * now apply Main.watched_exit.
      * cbn. lia.
Qed.

(** Conversely every such run is the run of the loop, given enough
    iterations: a loop whose flag is cleared does end. *)
Lemma loop_run_is_run (blargg : bool) (w w' : World)
      (trace : list Main.event) :
  loop_run blargg w trace w' ->
  exists fuel, main_loop fuel blargg w = (w', trace, Main.LoopExited).
Proof.
  induction 1 as [w Hflag
                 | w unit w1 w2 w3 extras rest w' Hflag Hunit Hw2 Hextras
                     Hrest [fuel IH]].
  - exists 1%nat. now apply main_loop_stop.
  - exists (S fuel). rewrite main_loop_step by exact Hflag.
    rewrite loop_body_events, loop_body_state.
    destruct Hunit as [(Hh & -> & ->) | (Hh & -> & ->)];
      destruct Hextras as [(-> & -> & ->) | (-> & -> & ->)];
      rewrite Hh; subst w2; cbn zeta; rewrite IH; reflexivity.
Qed.

(** In a run every test of the flag but the last sees it set, and no
    unit of work or interrupt check follows the test that sees it
    clear. *)
Lemma loop_run_ends_clear (blargg : bool) (w w' : World)
      (trace : list Main.event) :
  loop_run blargg w trace w' ->
  is_running w' = false /\
  exists front, trace = front ++ [Main.TestIsRunning false] /\
                ~ In (Main.TestIsRunning false) front.
Proof.
  induction 1 as [w Hflag
                 | w unit w1 w2 w3 extras rest w' Hflag Hunit Hw2 Hextras
                     Hrest (Hclear & front & -> & Hfront)].
  - split; [exact Hflag |]. exists []. split; [reflexivity | intros []].
  - split; [exact Hclear |].
    exists (Main.TestIsRunning true :: unit :: Main.CallHandleInterrupts
              :: extras ++ front).
    split; [now rewrite app_assoc |].
    cbn [In]. rewrite in_app_iff. intros [H | [H | [H | [H | H]]]];
      try discriminate H; try contradiction.
    + destruct Hunit as [(_ & -> & _) | (_ & -> & _)]; discriminate H.
    + destruct Hextras as [(_ & -> & _) | (_ & -> & _)]; cbn in H;
        intuition discriminate.
Qed.

End MainLoop.

(** The countdown from 2, not halted: two instructions, each followed by
    an interrupt check, then the test that ends the loop. *)
Lemma main_loop_countdown :
  Main.toy_main_loop 3 false (2%nat, false) =
  ((0%nat, false),
   [Main.TestIsRunning true; Main.CallExecuteInstruction;
    Main.CallHandleInterrupts;
    Main.TestIsRunning true; Main.CallExecuteInstruction;
    Main.CallHandleInterrupts;
    Main.TestIsRunning false],
   Main.LoopExited) /\
  Main.toy_loop_run false (2%nat, false)
    [Main.TestIsRunning true; Main.CallExecuteInstruction;
     Main.CallHandleInterrupts;
     Main.TestIsRunning true; Main.CallExecuteInstruction;
     Main.CallHandleInterrupts;
     Main.TestIsRunning false]
    (0%nat, false).
Proof.
  split; [reflexivity |].
  apply (main_loop_exited_run
           Main.toy_world (fun w => Nat.ltb 0 (fst w)) snd
           Main.toy_step Main.toy_step (fun w => w) (fun w => w) (fun w => w)
           3 false (2%nat, false) (0%nat, false)).
  reflexivity.
Qed.

(** ** The entry point *)

Section EntryPoint.

Variable fopen : string -> option (list Z).
Variable malloc_contents : Z -> list Z.
Variable header_title : list Z -> result string.
Variables header_rom_size header_ram_size header_rom_version header_type
  : list Z -> result Z.
Variables ROM_ONLY MBC1 MBC2 : Z.
Variable Chip : Type.
Variable check_multicart
  : Cartridge.cartridge_t * Chip -> Cartridge.cartridge_t * Chip.
Variable nintendo_logo : list Z.
Variable Machine : Type.

Local Abbreviation World := (Main.World Chip Machine).

Variables is_running halt : World -> bool.
Variables timer_tick execute_instruction handle_interrupts : World -> World.
Variables test_rom_update test_rom_print : World -> World.
Variables reset_cpu reset_timer : World -> World.
Variable GBEMU_NB_ARGS : nat.

Local Abbreviation load_cartridge :=
  (Cartridge.load_cartridge fopen malloc_contents header_ram_size
                            header_rom_version header_type ROM_ONLY MBC1 MBC2
                            Chip check_multicart).
Local Abbreviation cartridge_info :=
  (Cartridge.cartridge_info nintendo_logo header_title header_rom_size
                            header_ram_size header_rom_version).
Local Abbreviation loop_body :=
  (Main.loop_body World halt timer_tick execute_instruction handle_interrupts
                  test_rom_update test_rom_print).
Local Abbreviation main_loop :=
  (Main.main_loop World is_running halt timer_tick execute_instruction
                  handle_interrupts test_rom_update test_rom_print).
Local Abbreviation main :=
  (Main.main fopen malloc_contents header_title header_rom_size
             header_ram_size header_rom_version header_type ROM_ONLY MBC1 MBC2
             Chip check_multicart nintendo_logo Machine
             is_running halt timer_tick execute_instruction
             handle_interrupts test_rom_update test_rom_print
             reset_cpu reset_timer GBEMU_NB_ARGS).

(** [main] up to the loop, when the two calls before the resets come
    back. *)
Lemma main_reaches_loop (fuel : nat) (argv : list CLI.cli_item) (w : World)
      (options : CLI.options) (path : string) (loaded : bool)
      (st : Cartridge.loader_state Chip) :
  CLI.parse_options GBEMU_NB_ARGS argv = CLI.Parsed options ->
  CLI.args_at 0 (CLI.args options) = Some path ->
  load_cartridge path (fst w) = Ok (loaded, st) ->
  completes (cartridge_info (Cartridge.cartridge st)) ->
  let run := main_loop fuel (CLI.blargg options)
                       (reset_timer (reset_cpu (st, snd w))) in
  main fuel argv w =
  (fst (fst run),
   [Main.CallLoadCartridge (Some path) loaded; Main.CallCartridgeInfo;
    Main.CallResetCpu; Main.CallResetTimer] ++ snd (fst run),
   match snd run with
   | Main.LoopExited => Main.MainReturned 0
   | Main.LoopStillRunning => Main.MainStillRunning
   end).
Proof.
  intros Hparse Hpath Hload [text Hinfo]. cbv zeta.
  unfold Main.main. rewrite Hparse, Hpath, Hload, Hinfo.
  destruct (Main.main_loop _ _ _ _ _ _ _ _ fuel _ _) as [[w5 trace] status].
  reflexivity.
Qed.

(** A cartridge file that cannot be opened: [load_cartridge] comes back
    before [cartridge.rom] is set, and if the header cannot be read
    through the pointer left there (null at the start of the program)
    [cartridge_info] does not come back; the loop is not reached. *)
Lemma main_stops_at_unreadable_file (fuel : nat) (argv : list CLI.cli_item)
      (w : World) (options : CLI.options) (path : string) :
  CLI.parse_options GBEMU_NB_ARGS argv = CLI.Parsed options ->
  CLI.args_at 0 (CLI.args options) = Some path ->
  fopen path = None ->
  ~ completes (cartridge_info (Cartridge.cartridge (fst w))) ->
  exists w',
    main fuel argv w =
    (w', [Main.CallLoadCartridge (Some path) false; Main.CallCartridgeInfo],
     Main.MainCrashed).
Proof.
  intros Hparse Hpath Hopen Hinfo.
  unfold Main.main, Cartridge.load_cartridge.
  rewrite Hparse, Hpath, Hopen. cbn [fst snd Cartridge.cartridge].
  destruct (Cartridge.cartridge_info _ _ _ _ _ _) as [text | | |] eqn:Hcall;
    [exfalso; apply Hinfo; now exists text | | |]; eexists; reflexivity.
Qed.

(** C2, on the runs in which [load_cartridge] returns false after it has
    read the file (the image is refused for its checksum): [main] goes on
    to [cartridge_info], which prints the header of the refused image,
    and to the two resets, and as soon as the reset leaves the running
    flag set it enters the loop and performs a unit of work and an
    interrupt check. *)
Theorem main_enters_loop_after_failed_load
        (fuel : nat) (argv : list CLI.cli_item) (w : World)
        (options : CLI.options) (path : string)
        (st : Cartridge.loader_state Chip) :
  CLI.parse_options GBEMU_NB_ARGS argv = CLI.Parsed options ->
  CLI.args_at 0 (CLI.args options) = Some path ->
  load_cartridge path (fst w) = Ok (false, st) ->
  completes (cartridge_info (Cartridge.cartridge st)) ->
  is_running (reset_timer (reset_cpu (st, snd w))) = true ->
  exists unit rest,
    snd (fst (main (S fuel) argv w)) =
    [Main.CallLoadCartridge (Some path) false; Main.CallCartridgeInfo;
     Main.CallResetCpu; Main.CallResetTimer; Main.TestIsRunning true;
     unit; Main.CallHandleInterrupts] ++ rest /\
    (unit = Main.CallTimerTick \/ unit = Main.CallExecuteInstruction) /\
    (1 <= Main.iterations_entered (snd (fst (main (S fuel) argv w))))%nat.
Proof.
  intros Hparse Hpath Hload Hinfo Hflag.
  rewrite (main_reaches_loop (S fuel) argv w options path false st
             Hparse Hpath Hload Hinfo).
  cbv zeta. cbn [fst snd].
  rewrite (main_loop_step World is_running halt timer_tick execute_instruction
             handle_interrupts test_rom_update test_rom_print
             fuel (CLI.blargg options) _ Hflag).
  cbn [fst snd]. rewrite loop_body_events. cbn [app].
  eexists. eexists. split; [reflexivity |].
  split; [destruct (halt _); auto |].
  unfold Main.iterations_entered. cbn [filter List.length]. lia.
Qed.

End EntryPoint.

(** The refused image passes the test of [verify_header_checksum], and
    for that the loader refuses it, after it has read it. *)
Lemma load_cartridge_refused_image :
  Cartridge.verify_header_checksum
    (Cartridge.mk_cartridge "refused.gb" Cartridge.refused_image 0x0150 0 false)
  = Ok true /\
  Cartridge.load_cartridge
    Cartridge.toy_files (fun size => repeat 0 (Z.to_nat size))
    (Cartridge.header_byte 0x0149) (Cartridge.header_byte 0x014C)
    (Cartridge.header_byte 0x0147) 0 3 6 unit (fun s => s)
    "refused.gb" Cartridge.empty_loader_state
  = Ok (false,
        Cartridge.mk_loader_state
          (Cartridge.mk_cartridge "refused.gb" Cartridge.refused_image
                                  0x0150 0 false)
          tt ["Failed to load cartridge: Invalid checksum."]).
Proof. split; vm_compute; reflexivity. Qed.

(** The emulator started on the refused image: the load fails, and the
    loop is entered all the same. *)
Lemma main_enters_loop_after_failed_load_witness :
  CLI.parse_options 1 [CLI.Arg "refused.gb"]
  = CLI.Parsed (CLI.set_arg 0 "refused.gb" CLI.get_options) /\
  exists unit rest,
    snd (fst (Main.toy_main 1 [CLI.Arg "refused.gb"] Main.toy_start)) =
    [Main.CallLoadCartridge (Some "refused.gb") false; Main.CallCartridgeInfo;
     Main.CallResetCpu; Main.CallResetTimer; Main.TestIsRunning true;
     unit; Main.CallHandleInterrupts] ++ rest /\
    (unit = Main.CallTimerTick \/ unit = Main.CallExecuteInstruction) /\
    (1 <= Main.iterations_entered
            (snd (fst (Main.toy_main 1 [CLI.Arg "refused.gb"]
                                     Main.toy_start))))%nat.
Proof.
  split; [reflexivity |].
  apply (main_enters_loop_after_failed_load
           Cartridge.toy_files (fun size => repeat 0 (Z.to_nat size))
           (fun buffer => Cartridge.c_string (skipn 0x0134 buffer))
           (Cartridge.header_byte 0x0148) (Cartridge.header_byte 0x0149)
           (Cartridge.header_byte 0x014C) (Cartridge.header_byte 0x0147)
           0 3 6 unit (fun s => s) Cartridge.sample_logo Main.toy_world
           (fun w => Nat.ltb 0 (fst (snd w))) (fun w => snd (snd w))
           (Main.on_machine Main.toy_step) (Main.on_machine Main.toy_step)
           (fun w => w) (fun w => w) (fun w => w)
           (Main.on_machine (fun _ => (2%nat, false))) (fun w => w) 1
           0 [CLI.Arg "refused.gb"] Main.toy_start
           (CLI.set_arg 0 "refused.gb" CLI.get_options) "refused.gb"
           (Cartridge.mk_loader_state
              (Cartridge.mk_cartridge "refused.gb" Cartridge.refused_image
                                      0x0150 0 false)
              tt ["Failed to load cartridge: Invalid checksum."])).
  - reflexivity.
  - reflexivity.
  - vm_compute. reflexivity.
  - eexists. vm_compute. reflexivity.
  - reflexivity.
Defined.

(** The emulator started on a file that does not exist: the header is
    read through the null [cartridge.rom], and the loop is not
    reached. *)
Lemma main_stops_at_missing_file :
  Main.toy_main 3 [CLI.Arg "missing.gb"] Main.toy_start
  = ((Cartridge.mk_loader_state (Cartridge.mk_cartridge "" [] 0 0 false) tt
                                ["Failed to load cartridge"],
      (0%nat, false)),
     [Main.CallLoadCartridge (Some "missing.gb") false; Main.CallCartridgeInfo],
     Main.MainCrashed).
Proof. vm_compute. reflexivity. Qed.

(* ================================================================== *)
(** * Further properties of the LCD register block *)

(** What a store through the byte view changes: the byte at its offset,
    and no other. *)
Lemma poke_spec (off v : Z) (l l' : LCD.lcd) :
  LCD.poke off v l = Ok l' ->
  0 <= off < LCD.sizeof_lcd /\
  forall off', LCD.peek off' l' = if off' =? off then Ok v else LCD.peek off' l.
Proof.
  intros H. unfold LCD.poke in H. destruct l. unfold LCD.sizeof_lcd.
  destruct off as [| q | q]; [| | discriminate H].
  - injection H as <-. split; [lia |]. intros off'.
    destruct off' as [| q' | q']; [reflexivity | | reflexivity].
    repeat (destruct q' as [q' | q' |]; try reflexivity).
  - repeat (destruct q as [q | q |]; try discriminate H);
      injection H as <-; (split; [lia |]); intros off';
      (destruct off' as [| q' | q']; [reflexivity | | reflexivity]);
      repeat (destruct q' as [q' | q' |]; try reflexivity).
Qed.

Lemma peek_set_stat_eq (off s : Z) (l : LCD.lcd) :
  LCD.peek off (LCD.set_stat s l) = if off =? 1 then Ok s else LCD.peek off l.
Proof. now apply (poke_spec 1 s l (LCD.set_stat s l)). Qed.

(** The palette update leaves the registers and the log alone. *)
Lemma lcd_update_palette_inv (BG_PALETTE name data : Z)
      (st st1 : LCD.lcd_state) :
  LCD.lcd_update_palette BG_PALETTE name data st = Ok st1 ->
  LCD.g_lcd st1 = LCD.g_lcd st /\ LCD.lcd_log st1 = LCD.lcd_log st /\
  name < LCD.INVALID.
Proof.
  unfold LCD.lcd_update_palette, LCD.lcd_get_palette.
  destruct (Z.ltb_spec name LCD.INVALID) as [Hlt | Hge]; cbn [bind];
    [| discriminate].
  intros Hw. injection Hw as <-. auto.
Qed.

(** The three ways through the default label. *)
Lemma write_lcd_default_inv (address v : Z) (st st2 : LCD.lcd_state) :
  LCD.write_lcd_default address v st = Ok st2 ->
  (exists l,
      LCD.poke (address - 0xFF40) v (LCD.g_lcd st) = Ok l /\
      st2 = LCD.with_lcd l st /\ address <= 0xFF4B) \/
  (exists l,
      LCD.poke (LCD.offsetof_cgb_colors + (address - 0xFF68)) v (LCD.g_lcd st)
      = Ok l /\
      st2 = LCD.with_lcd l st /\ 0xFF68 <= address <= 0xFF6B) \/
  (0xFF4B < address /\ ~ 0xFF68 <= address <= 0xFF6B /\
   st2 = LCD.add_log (log_warn "LCD: Invalid write address: HEX. Skipping."
                               (ArgHex address)) st).
Proof.
  unfold LCD.write_lcd_default, BETWEEN. intros H.
  destruct (Z.leb_spec address 0xFF4B) as [Hle | Hgt].
  - left. destruct (LCD.poke _ v _) as [l | | |]; try discriminate H.
    injection H as <-. exists l. auto.
  - destruct (Z.leb_spec 0xFF68 address) as [Hlo | Hlo];
      destruct (Z.leb_spec address 0xFF6B) as [Hhi | Hhi]; cbn [andb] in H.
    + right. left. destruct (LCD.poke _ v _) as [l | | |]; try discriminate H.
      injection H as <-. exists l. auto.
    + right. right. injection H as <-. repeat split; [lia | lia].
    + right. right. injection H as <-. repeat split; [lia | lia].
    + right. right. injection H as <-. repeat split; [lia | lia].
Qed.

(** The three ways through [write_lcd] that return. *)
Lemma write_lcd_inv (BG_PALETTE address v : Z) (st st' : LCD.lcd_state) :
  LCD.write_lcd BG_PALETTE address v st = Ok st' ->
  (address = 0xFF41 /\
   st' = LCD.with_lcd
           (LCD.set_stat (LCD.stat_after_write (LCD.stat (LCD.g_lcd st)) v)
                         (LCD.g_lcd st)) st) \/
  (address = 0xFF44 /\
   st' = LCD.add_log
           (log_warn "LCD: Writing to read only address (HEX). Skipping."
                     (ArgHex address)) st) \/
  (address <> 0xFF41 /\ address <> 0xFF44 /\ address <> 0xFF46 /\
   exists st1 st2,
     LCD.g_lcd st1 = LCD.g_lcd st /\ LCD.lcd_log st1 = LCD.lcd_log st /\
     (~ 0xFF47 <= address <= 0xFF49 /\ st1 = st \/
      0xFF47 <= address <= 0xFF49 /\
      LCD.lcd_update_palette BG_PALETTE (address - 0xFF47) v st = Ok st1) /\
     LCD.write_lcd_default address v st1 = Ok st2 /\
     st' = LCD.update_lyc_flag address st2).
Proof.
  intros H.
  destruct (Z.eq_dec address 0xFF41) as [-> | H41].
  { left. rewrite write_lcd_stat_eq in H. injection H as <-. auto. }
  destruct (Z.eq_dec address 0xFF44) as [-> | H44].
  { right. left. cbn in H. injection H as <-. auto. }
  destruct (Z.eq_dec address 0xFF46) as [-> | H46]; [discriminate H |].
  right. right. repeat split; try assumption.
  assert (0xFF47 <= address <= 0xFF49 \/ ~ 0xFF47 <= address <= 0xFF49)
    as [Hpal | Hplain] by lia.
  - rewrite write_lcd_palette_registers in H by exact Hpal.
    destruct (LCD.lcd_update_palette BG_PALETTE (address - 0xFF47) v st)
      as [st1 | | |] eqn:Hst1; try discriminate H.
    cbn [bind] in H.
    destruct (LCD.write_lcd_default address v st1) as [st2 | | |] eqn:Hst2;
      try discriminate H.
    cbn [bind] in H. injection H as <-.
    destruct (lcd_update_palette_inv _ _ _ _ _ Hst1) as (Hl & Hlog & _).
    exists st1, st2. auto 10.
  - rewrite write_lcd_other_registers in H by assumption.
    destruct (LCD.write_lcd_default address v st) as [st2 | | |] eqn:Hst2;
      try discriminate H.
    cbn [bind] in H. injection H as <-.
    exists st, st2. auto 10.
Qed.

(** Away from LY and LYC the tail of [write_lcd] does nothing. *)
Lemma update_lyc_flag_other (address : Z) (st : LCD.lcd_state) :
  address <> 0xFF44 -> address <> 0xFF45 ->
  LCD.update_lyc_flag address st = st.
Proof.
  intros H44 H45. unfold LCD.update_lyc_flag, BETWEEN.
  destruct (Z.leb_spec 0xFF44 address); [| reflexivity].
  destruct (Z.leb_spec address 0xFF45); [lia | reflexivity].
Qed.

(** The registers after a write that goes through the default label,
    byte by byte. *)
Lemma write_lcd_default_peek (address v : Z) (st st2 : LCD.lcd_state) :
  LCD.write_lcd_default address v st = Ok st2 ->
  forall off,
    LCD.peek off (LCD.g_lcd st2) =
    if ((off =? address - 0xFF40) && (address <=? 0xFF4B))
       || ((off =? 12 + (address - 0xFF68)) && BETWEEN address 0xFF68 0xFF6B)
    then Ok v else LCD.peek off (LCD.g_lcd st).
Proof.
  intros H off. unfold BETWEEN.
  destruct (write_lcd_default_inv _ _ _ _ H)
    as [(l & Hpoke & -> & Hle) | [(l & Hpoke & -> & Hcgb) | (Hgt & Hno & ->)]].
  - destruct (poke_spec _ _ _ _ Hpoke) as [_ Hpeek].
    cbn [LCD.with_lcd LCD.g_lcd]. rewrite Hpeek.
    destruct (Z.leb_spec address 0xFF4B); [| lia].
    destruct (Z.leb_spec 0xFF68 address); [lia |].
    cbn [andb]. rewrite andb_true_r, andb_false_r, orb_false_r. reflexivity.
  - destruct (poke_spec _ _ _ _ Hpoke) as [_ Hpeek].
    cbn [LCD.with_lcd LCD.g_lcd]. rewrite Hpeek.
    unfold LCD.offsetof_cgb_colors.
    destruct (Z.leb_spec address 0xFF4B); [lia |].
    destruct (Z.leb_spec 0xFF68 address); [| lia].
    destruct (Z.leb_spec address 0xFF6B); [| lia].
    cbn [andb]. rewrite andb_true_r, andb_false_r. reflexivity.
  - cbn [LCD.add_log LCD.g_lcd].
    destruct (Z.leb_spec address 0xFF4B); [lia |].
    destruct (Z.leb_spec 0xFF68 address);
      destruct (Z.leb_spec address 0xFF6B); try lia;
      cbn [andb]; rewrite ?andb_false_r; reflexivity.
Qed.

(** X1: a write that returns changes what [read_lcd] gives at most at the
    address written, and at STAT when LYC is written. *)
Theorem write_lcd_frame (BG_PALETTE a v b : Z) (st st' : LCD.lcd_state) :
  LCD.write_lcd BG_PALETTE a v st = Ok st' ->
  b <> a ->
  (a = 0xFF45 -> b <> 0xFF41) ->
  LCD.read_lcd b st' = LCD.read_lcd b st.
Proof.
  intros Hw Hne Hstat. unfold LCD.read_lcd, BETWEEN.
  destruct (Z.leb_spec 0xFF40 b) as [Hlo | Hlo]; [| reflexivity].
  destruct (Z.leb_spec b 0xFF4A) as [Hhi | Hhi]; [| reflexivity].
  cbn [andb].
  destruct (write_lcd_inv _ _ _ _ _ Hw)
    as [(-> & ->) | [(-> & ->) | (H41 & H44 & H46 & st1 & st2 & Hl1 & _ & _
                                  & Hdef & ->)]].
  - cbn [LCD.with_lcd LCD.g_lcd]. rewrite peek_set_stat_eq.
    destruct (Z.eqb_spec (b - 0xFF40) 1); [lia | reflexivity].
  - reflexivity.
  - assert (LCD.peek (b - 0xFF40) (LCD.g_lcd (LCD.update_lyc_flag a st2))
            = LCD.peek (b - 0xFF40) (LCD.g_lcd st2)) as ->.
    { destruct (Z.eq_dec a 0xFF45) as [H45 | H45].
      - apply update_lyc_flag_peek. specialize (Hstat H45). lia.
      - now rewrite update_lyc_flag_other. }
    rewrite (write_lcd_default_peek _ _ _ _ Hdef), Hl1. unfold BETWEEN.
    destruct (Z.eqb_spec (b - 0xFF40) (a - 0xFF40)); [lia |].
    destruct (Z.eqb_spec (b - 0xFF40) (12 + (a - 0xFF68))); [| reflexivity].
    destruct (Z.leb_spec 0xFF68 a); [lia | reflexivity].
Qed.

(** A write to the window position leaves the scroll register as it
    was. *)
Lemma write_lcd_frame_witness :
  LCD.write_lcd 0 0xFF4A 9 (LCD.init_lcd LCD.static_lcd_state)
  = Ok (LCD.with_lcd
          (LCD.set_wy 9 (LCD.g_lcd (LCD.init_lcd LCD.static_lcd_state)))
          (LCD.init_lcd LCD.static_lcd_state)) /\
  LCD.read_lcd 0xFF42
    (LCD.with_lcd
       (LCD.set_wy 9 (LCD.g_lcd (LCD.init_lcd LCD.static_lcd_state)))
       (LCD.init_lcd LCD.static_lcd_state))
  = LCD.read_lcd 0xFF42 (LCD.init_lcd LCD.static_lcd_state).
Proof.
  split; [reflexivity |].
  apply (write_lcd_frame 0 0xFF4A 9 0xFF42 (LCD.init_lcd LCD.static_lcd_state));
    [reflexivity | lia | lia].
Defined.

Lemma ly_lyc_set_stat (s : Z) (l : LCD.lcd) :
  LCD.ly (LCD.set_stat s l) = LCD.ly l /\
  LCD.lyc (LCD.set_stat s l) = LCD.lyc l.
Proof. now destruct l. Qed.

Lemma stat_after_write_bit2 (old v : Z) :
  Z.testbit (LCD.stat_after_write old v) 2 = Z.testbit old 2.
Proof.
  pose proof (f_equal (fun x => Z.testbit x 2) (stat_after_write_low old v))
    as H.
  cbv beta in H. rewrite !Z.land_spec in H.
  change (Z.testbit 7 2) with true in H. now rewrite !andb_true_r in H.
Qed.

(** The refresh of the LYC flag: the flag is right afterwards, and the
    registers are bytes if they were. *)
Lemma update_lyc_flag_consistent (st : LCD.lcd_state) :
  LCD.lyc_flag_consistent (LCD.g_lcd (LCD.update_lyc_flag 0xFF45 st)).
Proof.
  unfold LCD.update_lyc_flag, LCD.lyc_flag_consistent.
  change (BETWEEN 0xFF45 0xFF44 0xFF45) with true. cbv iota.
  destruct (LCD.ly (LCD.g_lcd st) =? LCD.lyc (LCD.g_lcd st)) eqn:Heq;
    cbn [LCD.with_lcd LCD.g_lcd];
    rewrite stat_set_stat;
    rewrite (proj1 (ly_lyc_set_stat _ _)), (proj2 (ly_lyc_set_stat _ _)), Heq;
    rewrite to_u8_testbit by lia.
  - rewrite Z.lor_spec. change (Z.testbit (Z.shiftl 1 2) 2) with true.
    now rewrite orb_true_r.
  - rewrite Z.land_spec.
    change (Z.testbit (Z.lnot (Z.shiftl 1 2)) 2) with false.
    now rewrite andb_false_r.
Qed.

Lemma update_lyc_flag_bytes (address : Z) (st : LCD.lcd_state) :
  LCD.lcd_bytes (LCD.g_lcd st) ->
  LCD.lcd_bytes (LCD.g_lcd (LCD.update_lyc_flag address st)).
Proof.
  intros Hb. unfold LCD.update_lyc_flag.
  destruct (BETWEEN address 0xFF44 0xFF45); [| exact Hb].
  destruct (LCD.ly (LCD.g_lcd st) =? LCD.lyc (LCD.g_lcd st));
    cbn [LCD.with_lcd LCD.g_lcd]; intros off x; rewrite peek_set_stat_eq;
    (destruct (off =? 1); [intros Hx; injection Hx as <-; apply to_u8_range
                           | apply Hb]).
Qed.

(** The registers a write through the default label does not name keep
    their bytes. *)
Lemma write_lcd_default_keeps (address v off : Z) (st st2 : LCD.lcd_state) :
  LCD.write_lcd_default address v st = Ok st2 ->
  0 <= off < 12 -> off <> address - 0xFF40 ->
  LCD.peek off (LCD.g_lcd st2) = LCD.peek off (LCD.g_lcd st).
Proof.
  intros Hdef Hoff Hne. rewrite (write_lcd_default_peek _ _ _ _ Hdef).
  unfold BETWEEN.
  destruct (Z.eqb_spec off (address - 0xFF40)); [contradiction |].
  destruct (Z.eqb_spec off (12 + (address - 0xFF68))); [| reflexivity].
  destruct (Z.leb_spec 0xFF68 address); [lia | reflexivity].
Qed.

(** X2: every write of a byte that returns keeps the registers bytes and
    keeps the LYC flag of STAT equal to the comparison of LY and LYC. *)
Theorem write_lcd_keeps_invariant (BG_PALETTE a v : Z)
        (st st' : LCD.lcd_state) :
  is_u8 v ->
  LCD.lcd_bytes (LCD.g_lcd st) ->
  LCD.lyc_flag_consistent (LCD.g_lcd st) ->
  LCD.write_lcd BG_PALETTE a v st = Ok st' ->
  LCD.lcd_bytes (LCD.g_lcd st') /\ LCD.lyc_flag_consistent (LCD.g_lcd st').
Proof.
  intros Hv Hb Hc Hw.
  destruct (write_lcd_inv _ _ _ _ _ Hw)
    as [(-> & ->) | [(-> & ->) | (H41 & H44 & H46 & st1 & st2 & Hl1 & _ & _
                                  & Hdef & ->)]].
  - cbn [LCD.with_lcd LCD.g_lcd]. split.
    + intros off x. rewrite peek_set_stat_eq.
      destruct (off =? 1); [| apply Hb].
      intros Hx. injection Hx as <-. apply to_u8_range.
    + unfold LCD.lyc_flag_consistent in *.
      rewrite stat_set_stat, stat_after_write_bit2.
      now rewrite (proj1 (ly_lyc_set_stat _ _)), (proj2 (ly_lyc_set_stat _ _)).
  - cbn [LCD.add_log LCD.g_lcd]. auto.
  - assert (LCD.lcd_bytes (LCD.g_lcd st2)) as Hb2.
    { intros off x. rewrite (write_lcd_default_peek _ _ _ _ Hdef), Hl1.
      destruct (_ || _); [| apply Hb].
      intros Hx. now injection Hx as <-. }
    split; [now apply update_lyc_flag_bytes |].
    destruct (Z.eq_dec a 0xFF45) as [-> | H45];
      [apply update_lyc_flag_consistent |].
    rewrite update_lyc_flag_other by assumption.
    pose proof (write_lcd_default_keeps a v 1 st1 st2 Hdef) as H1.
    pose proof (write_lcd_default_keeps a v 4 st1 st2 Hdef) as H4.
    pose proof (write_lcd_default_keeps a v 5 st1 st2 Hdef) as H5.
    rewrite Hl1 in H1, H4, H5. cbn [LCD.peek] in H1, H4, H5.
    unfold LCD.lyc_flag_consistent in *.
    injection (H1 ltac:(lia) ltac:(lia)) as ->.
    injection (H4 ltac:(lia) ltac:(lia)) as ->.
    injection (H5 ltac:(lia) ltac:(lia)) as ->.
    exact Hc.
Qed.

(** The registers of the static state are bytes. *)
Lemma static_lcd_bytes : LCD.lcd_bytes (LCD.g_lcd LCD.static_lcd_state).
Proof.
  intros off x Hx. cbn in Hx.
  destruct off as [| q | q]; try discriminate Hx;
    [| repeat (destruct q as [q | q |]; try discriminate Hx)];
    injection Hx as <-; unfold is_u8; lia.
Qed.

(** [init_lcd] establishes the invariants of the register block. *)
Lemma init_lcd_invariant (st : LCD.lcd_state) :
  LCD.lcd_bytes (LCD.g_lcd st) ->
  LCD.lcd_bytes (LCD.g_lcd (LCD.init_lcd st)) /\
  LCD.lyc_flag_consistent (LCD.g_lcd (LCD.init_lcd st)) /\
  LCD.palettes_wf (LCD.g_palettes (LCD.init_lcd st)).
Proof.
  intros Hb. destruct st as [l p lg]. destruct l. cbn [LCD.g_lcd] in Hb.
  split.
  { intros off x Hx. cbn in Hx.
    destruct off as [| q | q]; try discriminate Hx;
      [| repeat (destruct q as [q | q |]; try discriminate Hx)];
      injection Hx as <-;
      first [ apply to_u8_range | unfold is_u8; lia
            | exact (Hb 6 _ eq_refl) | exact (Hb 12 _ eq_refl)
            | exact (Hb 13 _ eq_refl) | exact (Hb 14 _ eq_refl)
            | exact (Hb 15 _ eq_refl) ]. }
  split; [reflexivity |].
  split; [reflexivity |]. cbn.
  repeat (apply Forall_cons; [cbn; tauto |]). apply Forall_nil.
Qed.

(** X3: [init_lcd] gives the registers it sets their power-up values
    whatever they held, keeps DMA and the colour registers, resets the
    three palettes to the default shades, and establishes the two
    invariants of the register block. *)
Theorem init_lcd_establishes (st : LCD.lcd_state) :
  LCD.lcd_bytes (LCD.g_lcd st) ->
  let st' := LCD.init_lcd st in
  LCD.lcd_bytes (LCD.g_lcd st') /\
  LCD.lyc_flag_consistent (LCD.g_lcd st') /\
  LCD.g_palettes st'
  = LCD.default_palette ++ LCD.default_palette ++ LCD.default_palette /\
  map (fun a => LCD.read_lcd a st')
      [0xFF40; 0xFF41; 0xFF42; 0xFF43; 0xFF44; 0xFF45; 0xFF47; 0xFF48;
       0xFF49; 0xFF4A]
  = map Ok [0x91; 0x04; 0; 0; 0; 0; 0xFC; 0xFF; 0xFF; 0] /\
  LCD.wx (LCD.g_lcd st') = 0 /\
  LCD.read_lcd 0xFF46 st' = LCD.read_lcd 0xFF46 st /\
  (forall off, 12 <= off ->
               LCD.peek off (LCD.g_lcd st') = LCD.peek off (LCD.g_lcd st)) /\
  LCD.lcd_log st' = LCD.lcd_log st.
Proof.
  intros Hb st'. subst st'.
  destruct (init_lcd_invariant st Hb) as (Hb' & Hc' & _).
  split; [exact Hb' |]. split; [exact Hc' |].
  destruct st as [l p lg]. destruct l.
  split; [reflexivity |].
  split; [reflexivity |].
  split; [reflexivity |].
  split; [reflexivity |].
  split; [| reflexivity].
  intros off Hoff. cbn.
  destruct off as [| q | q]; [lia | | reflexivity].
  repeat (destruct q as [q | q |]; try reflexivity; try lia).
Qed.

Lemma init_lcd_establishes_witness :
  LCD.lcd_bytes (LCD.g_lcd LCD.static_lcd_state) /\
  LCD.lcd_bytes (LCD.g_lcd (LCD.init_lcd LCD.static_lcd_state)) /\
  LCD.lyc_flag_consistent (LCD.g_lcd (LCD.init_lcd LCD.static_lcd_state)).
Proof.
  split; [exact static_lcd_bytes |].
  destruct (init_lcd_establishes LCD.static_lcd_state static_lcd_bytes)
    as (Hb & Hc & _).
  auto.
Defined.

(** A write of 0x90 to LYC after [init_lcd]: the invariants hold before
    and after. *)
Lemma write_lcd_keeps_invariant_witness :
  is_u8 0x90 /\
  LCD.lcd_bytes (LCD.g_lcd (LCD.init_lcd LCD.static_lcd_state)) /\
  LCD.lyc_flag_consistent (LCD.g_lcd (LCD.init_lcd LCD.static_lcd_state)) /\
  exists st',
    LCD.write_lcd 0 0xFF45 0x90 (LCD.init_lcd LCD.static_lcd_state) = Ok st' /\
    LCD.lcd_bytes (LCD.g_lcd st') /\ LCD.lyc_flag_consistent (LCD.g_lcd st').
Proof.
  destruct (init_lcd_invariant LCD.static_lcd_state static_lcd_bytes)
    as (Hb & Hc & _).
  split; [unfold is_u8; lia |]. split; [exact Hb |]. split; [exact Hc |].
  eexists. split; [reflexivity |].
  apply (write_lcd_keeps_invariant 0 0xFF45 0x90
           (LCD.init_lcd LCD.static_lcd_state));
    [unfold is_u8; lia | exact Hb | exact Hc | reflexivity].
Defined.

(** X4: [lcd_set_mode] writes the two low bits of [mode] into bits 1-0 of
    STAT, keeps bits 7-2 of the STAT byte, and changes no other register,
    palette or log line. *)
Theorem lcd_set_mode_effect (mode : Z) (st : LCD.lcd_state) :
  let st' := LCD.lcd_set_mode mode st in
  Z.land (LCD.stat (LCD.g_lcd st')) 0x03 = Z.land mode 0x03 /\
  Z.land (LCD.stat (LCD.g_lcd st')) 0xFC
  = Z.land (LCD.stat (LCD.g_lcd st)) 0xFC /\
  is_u8 (LCD.stat (LCD.g_lcd st')) /\
  LCD.same_except_stat (LCD.g_lcd st) (LCD.g_lcd st') /\
  LCD.g_palettes st' = LCD.g_palettes st /\
  LCD.lcd_log st' = LCD.lcd_log st.
Proof.
  intros st'. destruct (lcd_set_mode_bits mode st) as [Hlow Hhigh].
  split; [exact Hlow |]. split; [exact Hhigh |].
  subst st'. unfold LCD.lcd_set_mode. cbn [LCD.with_lcd LCD.g_lcd].
  rewrite stat_set_stat.
  split; [apply to_u8_range |].
  split; [apply set_stat_same_except_stat |].
  split; reflexivity.
Qed.

(** X5: [read_lcd] returns a value exactly for the addresses 0xFF40 to
    0xFF4A; everywhere else, WX and the colour block included, it stops at
    its assertion. *)
Theorem read_lcd_defined_iff (address : Z) (st : LCD.lcd_state) :
  (completes (LCD.read_lcd address st) <-> 0xFF40 <= address <= 0xFF4A) /\
  (completes (LCD.read_lcd address st) \/
   LCD.read_lcd address st = AssertFailed "Invalid LCD read address: %d").
Proof.
  unfold LCD.read_lcd, BETWEEN.
  destruct (Z.leb_spec 0xFF40 address) as [Hlo | Hlo];
    destruct (Z.leb_spec address 0xFF4A) as [Hhi | Hhi]; cbn [andb];
    (split; [split |]); try lia; try (right; reflexivity);
    try (intros [x Hx]; discriminate Hx).
  - intros _. apply peek_completes. unfold LCD.sizeof_lcd. lia.
  - left. apply peek_completes. unfold LCD.sizeof_lcd. lia.
Qed.

(** Above the monochrome block and outside the colour block a write
    only logs a warning. *)
Lemma write_lcd_invalid_address (BG_PALETTE address v : Z)
      (st : LCD.lcd_state) :
  0xFF4B < address ->
  ~ 0xFF68 <= address <= 0xFF6B ->
  LCD.write_lcd BG_PALETTE address v st
  = Ok (LCD.add_log (log_warn "LCD: Invalid write address: HEX. Skipping."
                              (ArgHex address)) st).
Proof.
  intros Hgt Hno. rewrite write_lcd_other_registers by lia.
  unfold LCD.write_lcd_default, BETWEEN.
  destruct (Z.leb_spec address 0xFF4B); [lia |].
  assert ((0xFF68 <=? address) && (address <=? 0xFF6B) = false) as ->.
  { destruct (Z.leb_spec 0xFF68 address);
      destruct (Z.leb_spec address 0xFF6B); try reflexivity; lia. }
  cbn [bind]. now rewrite update_lyc_flag_other by lia.
Qed.

(** Below the monochrome block the store through the byte view falls
    outside [g_lcd]. *)
Lemma write_lcd_below_block (BG_PALETTE address v : Z)
      (st : LCD.lcd_state) :
  address < 0xFF40 ->
  LCD.write_lcd BG_PALETTE address v st = OutsideObject.
Proof.
  intros Hlt. rewrite write_lcd_other_registers by lia.
  unfold LCD.write_lcd_default.
  destruct (Z.leb_spec address 0xFF4B); [| lia].
  assert (LCD.poke (address - 0xFF40) v (LCD.g_lcd st) = OutsideObject) as ->.
  { destruct (LCD.poke (address - 0xFF40) v (LCD.g_lcd st)) eqn:Hp;
      try reflexivity; try discriminate.
    - apply poke_spec in Hp. lia.
    - unfold LCD.poke in Hp. destruct (address - 0xFF40) as [| q | q];
        try discriminate Hp;
        repeat (destruct q as [q | q |]; try discriminate Hp).
    - unfold LCD.poke in Hp. destruct (address - 0xFF40) as [| q | q];
        try discriminate Hp;
        repeat (destruct q as [q | q |]; try discriminate Hp). }
  reflexivity.
Qed.

(** X6: outside the two register blocks [write_lcd] guards one side
    only: above the monochrome block it logs a warning and changes
    nothing else, below 0xFF40 it has no guard and the store through the
    byte view falls outside [g_lcd]. *)
Theorem write_lcd_outside_blocks (BG_PALETTE address v : Z)
        (st : LCD.lcd_state) :
  ~ 0xFF40 <= address <= 0xFF4B ->
  ~ 0xFF68 <= address <= 0xFF6B ->
  LCD.write_lcd BG_PALETTE address v st =
  if address <? 0xFF40 then OutsideObject
  else Ok (LCD.mk_lcd_state
             (LCD.g_lcd st) (LCD.g_palettes st)
             (LCD.lcd_log st
              ++ [log_warn "LCD: Invalid write address: HEX. Skipping."
                           (ArgHex address)])).
Proof.
  intros Hmono Hcolor. destruct (Z.ltb_spec address 0xFF40) as [Hlt | Hge].
  - now apply write_lcd_below_block.
  - rewrite write_lcd_invalid_address by lia. reflexivity.
Qed.

(** One address on each side of the monochrome block. *)
Lemma write_lcd_outside_blocks_witness :
  (~ 0xFF40 <= 0xFF4C <= 0xFF4B) /\ (~ 0xFF68 <= 0xFF4C <= 0xFF6B) /\
  LCD.write_lcd 0 0xFF4C 1 LCD.static_lcd_state
  = Ok (LCD.mk_lcd_state
          LCD.zero_lcd (repeat 0 12)
          [log_warn "LCD: Invalid write address: HEX. Skipping."
                    (ArgHex 0xFF4C)]) /\
  LCD.write_lcd 0 0xFF3F 1 LCD.static_lcd_state = OutsideObject.
Proof.
  split; [lia |]. split; [lia |]. split.
  - apply (write_lcd_outside_blocks 0 0xFF4C 1 LCD.static_lcd_state); lia.
  - apply (write_lcd_outside_blocks 0 0xFF3F 1 LCD.static_lcd_state); lia.
Defined.

(** Every shade the palette update stores is one of the four of
    [default_palette]: the index is masked to two bits. *)
Lemma SHADE_in_default (data index : Z) :
  In (LCD.SHADE data index) LCD.default_palette.
Proof.
  unfold LCD.SHADE.
  remember (Z.land (Z.shiftr data (2 * index)) 3) as k eqn:Hk.
  assert (0 <= k < 4) as Hrange.
  { subst k. change 3 with (Z.ones 2). rewrite Z.land_ones by lia.
    apply Z.mod_pos_bound. lia. }
  assert (k = 0 \/ k = 1 \/ k = 2 \/ k = 3) as [-> | [-> | [-> | ->]]] by lia;
    cbn; tauto.
Qed.

(** The palette update in detail, on twelve shades. *)
Lemma lcd_update_palette_shades (BG_PALETTE name data : Z)
      (st st1 : LCD.lcd_state) :
  LCD.palettes_wf (LCD.g_palettes st) ->
  LCD.lcd_update_palette BG_PALETTE name data st = Ok st1 ->
  LCD.palettes_wf (LCD.g_palettes st1) /\
  firstn 4 (LCD.g_palettes st1) = firstn 4 (LCD.g_palettes st) /\
  skipn 8 (LCD.g_palettes st1) = skipn 8 (LCD.g_palettes st) /\
  firstn 3 (skipn 4 (LCD.g_palettes st1))
  = [LCD.SHADE data 0; LCD.SHADE data 1; LCD.SHADE data 2].
Proof.
  intros [Hlen Hall] Hup.
  unfold LCD.lcd_update_palette, LCD.lcd_get_palette in Hup.
  destruct (name <? LCD.INVALID); cbn [bind] in Hup; [| discriminate Hup].
  injection Hup as <-. cbn [LCD.with_palettes LCD.g_palettes].
  destruct st as [l p lg]. cbn [LCD.g_palettes] in *.
  do 12 (destruct p as [| ? p]; [discriminate Hlen |]).
  destruct p; [| discriminate Hlen].
  repeat match goal with
         | H : Forall _ (_ :: _) |- _ => inversion H; subst; clear H
         end.
  destruct (name =? BG_PALETTE); cbn -[LCD.SHADE LCD.default_palette];
    (split; [split; [reflexivity |];
             repeat (apply Forall_cons;
                     [first [assumption | apply SHADE_in_default] |]);
             apply Forall_nil
            | repeat split]).
Qed.

Lemma update_lyc_flag_palettes (address : Z) (st : LCD.lcd_state) :
  LCD.g_palettes (LCD.update_lyc_flag address st) = LCD.g_palettes st.
Proof.
  unfold LCD.update_lyc_flag. destruct (BETWEEN address 0xFF44 0xFF45);
    [destruct (_ =? _) |]; reflexivity.
Qed.

Lemma write_lcd_default_palettes (address v : Z) (st st2 : LCD.lcd_state) :
  LCD.write_lcd_default address v st = Ok st2 ->
  LCD.g_palettes st2 = LCD.g_palettes st.
Proof.
  intros H.
  destruct (write_lcd_default_inv _ _ _ _ H)
    as [(l & _ & -> & _) | [(l & _ & -> & _) | (_ & _ & ->)]]; reflexivity.
Qed.

(** X7: a write that returns keeps the palettes twelve shades of the
    default palette and never changes the background palette (shades 0-3)
    nor the second object palette (shades 8-11); a write to any of the
    three palette registers 0xFF47-0xFF49 stores the shades selected by
    the value into the first object palette, every other write leaves the
    palettes as they were. *)
Theorem write_lcd_palettes (BG_PALETTE a v : Z) (st st' : LCD.lcd_state) :
  LCD.palettes_wf (LCD.g_palettes st) ->
  LCD.write_lcd BG_PALETTE a v st = Ok st' ->
  LCD.palettes_wf (LCD.g_palettes st') /\
  firstn 4 (LCD.g_palettes st') = firstn 4 (LCD.g_palettes st) /\
  skipn 8 (LCD.g_palettes st') = skipn 8 (LCD.g_palettes st) /\
  if BETWEEN a 0xFF47 0xFF49
  then firstn 3 (skipn 4 (LCD.g_palettes st'))
       = [LCD.SHADE v 0; LCD.SHADE v 1; LCD.SHADE v 2]
  else LCD.g_palettes st' = LCD.g_palettes st.
Proof.
  intros Hwf Hw.
  destruct (write_lcd_inv _ _ _ _ _ Hw)
    as [(-> & ->) | [(-> & ->) | (H41 & H44 & H46 & st1 & st2 & _ & _ & Hst1
                                  & Hdef & ->)]].
  - cbn. auto.
  - cbn. auto.
  - rewrite update_lyc_flag_palettes, (write_lcd_default_palettes _ _ _ _ Hdef).
    unfold BETWEEN.
    destruct Hst1 as [[Hplain ->] | [Hpal Hup]].
    + assert ((0xFF47 <=? a) && (a <=? 0xFF49) = false) as ->; [| auto].
      destruct (Z.leb_spec 0xFF47 a); destruct (Z.leb_spec a 0xFF49);
        try reflexivity; lia.
    + destruct (Z.leb_spec 0xFF47 a); [| lia].
      destruct (Z.leb_spec a 0xFF49); [| lia]. cbn [andb].
      exact (lcd_update_palette_shades _ _ _ _ _ Hwf Hup).
Qed.

(** A write to BGP after [init_lcd]: the background palette keeps the
    default shades, the first object palette takes the shades of the
    value. *)
Lemma write_lcd_palettes_witness :
  LCD.palettes_wf (LCD.g_palettes (LCD.init_lcd LCD.static_lcd_state)) /\
  exists st',
    LCD.write_lcd 0 0xFF47 0x1B (LCD.init_lcd LCD.static_lcd_state) = Ok st' /\
    LCD.palettes_wf (LCD.g_palettes st') /\
    firstn 4 (LCD.g_palettes st')
    = firstn 4 (LCD.g_palettes (LCD.init_lcd LCD.static_lcd_state)) /\
    skipn 8 (LCD.g_palettes st')
    = skipn 8 (LCD.g_palettes (LCD.init_lcd LCD.static_lcd_state)) /\
    firstn 3 (skipn 4 (LCD.g_palettes st'))
    = [LCD.SHADE 0x1B 0; LCD.SHADE 0x1B 1; LCD.SHADE 0x1B 2].
Proof.
  destruct (init_lcd_invariant LCD.static_lcd_state static_lcd_bytes)
    as (_ & _ & Hwf).
  split; [exact Hwf |].
  eexists. split; [reflexivity |].
  apply (write_lcd_palettes 0 0xFF47 0x1B (LCD.init_lcd LCD.static_lcd_state)
           _ Hwf).
  reflexivity.
Defined.

(** X8: a write to the colour block 0xFF68-0xFF6B returns normally and
    stores the value in the register of [cgb_colors] at that index; no
    register [read_lcd] can read, nor WX, nor a palette changes, and
    nothing is logged. *)
Theorem write_lcd_color_block (BG_PALETTE a v : Z) (st : LCD.lcd_state) :
  0xFF68 <= a <= 0xFF6B ->
  exists st',
    LCD.write_lcd BG_PALETTE a v st = Ok st' /\
    map (fun f => f (LCD.g_lcd st'))
        [LCD.cgb_bgpi; LCD.cgb_bgpd; LCD.cgb_obpi; LCD.cgb_obpd]
    = list_set (Z.to_nat (a - 0xFF68)) v
        (map (fun f => f (LCD.g_lcd st))
             [LCD.cgb_bgpi; LCD.cgb_bgpd; LCD.cgb_obpi; LCD.cgb_obpd]) /\
    (forall b, LCD.read_lcd b st' = LCD.read_lcd b st) /\
    LCD.wx (LCD.g_lcd st') = LCD.wx (LCD.g_lcd st) /\
    LCD.g_palettes st' = LCD.g_palettes st /\
    LCD.lcd_log st' = LCD.lcd_log st.
Proof.
  intros Ha.
  rewrite write_lcd_other_registers by lia.
  destruct (write_lcd_default_color a v st Ha) as [l' Hdef].
  pose proof (write_lcd_default_peek _ _ _ _ Hdef) as Hpeek.
  rewrite Hdef. cbn [bind]. rewrite update_lyc_flag_other by lia.
  exists (LCD.with_lcd l' st). split; [reflexivity |].
  cbn [LCD.with_lcd LCD.g_lcd LCD.g_palettes LCD.lcd_log] in *.
  assert (forall off,
             LCD.peek off l' =
             if off =? 12 + (a - 0xFF68) then Ok v
             else LCD.peek off (LCD.g_lcd st)) as Hp.
  { intros off. rewrite Hpeek. unfold BETWEEN.
    destruct (Z.leb_spec a 0xFF4B); [lia |].
    destruct (Z.leb_spec 0xFF68 a); [| lia].
    destruct (Z.leb_spec a 0xFF6B); [| lia].
    cbn [andb]. now rewrite andb_false_r, andb_true_r. }
  clear Hpeek Hdef.
  pose proof (Hp 11) as H11. pose proof (Hp 12) as H12.
  pose proof (Hp 13) as H13. pose proof (Hp 14) as H14.
  pose proof (Hp 15) as H15. cbn [LCD.peek] in H11, H12, H13, H14, H15.
  split; [| split; [| split; [| split; reflexivity]]].
  - cbn [map].
    assert (a = 0xFF68 \/ a = 0xFF69 \/ a = 0xFF6A \/ a = 0xFF6B)
      as [-> | [-> | [-> | ->]]] by lia;
      match goal with
      | |- context [Z.to_nat ?e] =>
          let n := eval vm_compute in (Z.to_nat e) in
          change (Z.to_nat e) with n
      end;
      cbn in H12, H13, H14, H15 |- *; congruence.
  - intros b. unfold LCD.read_lcd, BETWEEN.
    destruct (Z.leb_spec 0xFF40 b); [| reflexivity].
    destruct (Z.leb_spec b 0xFF4A); [| reflexivity].
    cbn [andb]. rewrite Hp.
    destruct (Z.eqb_spec (b - 0xFF40) (12 + (a - 0xFF68))); [lia | reflexivity].
  - destruct (Z.eqb_spec 11 (12 + (a - 0xFF68))); [lia | congruence].
Qed.

Lemma write_lcd_color_block_witness :
  0xFF68 <= 0xFF69 <= 0xFF6B /\
  exists st',
    LCD.write_lcd 0 0xFF69 0x3C LCD.static_lcd_state = Ok st' /\
    LCD.cgb_bgpd (LCD.g_lcd st') = 0x3C.
Proof.
  split; [lia |].
  destruct (write_lcd_color_block 0 0xFF69 0x3C LCD.static_lcd_state)
    as (st' & Hw & Hregs & _); [lia |].
  exists st'. split; [exact Hw |].
  change (Z.to_nat (0xFF69 - 0xFF68)) with 1%nat in Hregs.
  cbn in Hregs. congruence.
Defined.

(** The last write to STAT decides its writable bits. *)
Lemma stat_after_write_twice (old u v : Z) :
  LCD.stat_after_write (LCD.stat_after_write old u) v
  = LCD.stat_after_write old v.
Proof. unfold LCD.stat_after_write. byte_bits. Qed.

(** X9: two writes to STAT in a row leave the state the second write
    alone would leave. *)
Theorem write_lcd_stat_twice (BG_PALETTE u v : Z) (st : LCD.lcd_state) :
  (st1 <- LCD.write_lcd BG_PALETTE 0xFF41 u st ;;
   LCD.write_lcd BG_PALETTE 0xFF41 v st1)
  = LCD.write_lcd BG_PALETTE 0xFF41 v st.
Proof.
  rewrite (write_lcd_stat_eq BG_PALETTE u st). cbn [bind].
  rewrite !write_lcd_stat_eq. destruct st as [l p lg].
  cbn [LCD.with_lcd LCD.g_lcd LCD.g_palettes LCD.lcd_log].
  now rewrite stat_set_stat, set_stat_set_stat, stat_after_write_twice.
Qed.

(** X10: a write to LYC returns normally, stores the value, sets bit 2 of
    STAT exactly when LY equals the value written, keeps the other bits of
    the STAT byte, and leaves LY alone. *)
Theorem write_lcd_lyc_refreshes_flag (BG_PALETTE v : Z) (st : LCD.lcd_state) :
  exists st',
    LCD.write_lcd BG_PALETTE 0xFF45 v st = Ok st' /\
    LCD.lyc (LCD.g_lcd st') = v /\
    LCD.ly (LCD.g_lcd st') = LCD.ly (LCD.g_lcd st) /\
    Z.testbit (LCD.stat (LCD.g_lcd st')) 2 = (LCD.ly (LCD.g_lcd st) =? v) /\
    Z.land (LCD.stat (LCD.g_lcd st')) 0xFB
    = Z.land (LCD.stat (LCD.g_lcd st)) 0xFB.
Proof.
  destruct (write_lcd_lyc_flag BG_PALETTE v st) as (st' & Hw & Hlyc & Hbit).
  exists st'. split; [exact Hw |]. split; [exact Hlyc |].
  destruct st as [l p lg]. destruct l.
  unfold LCD.write_lcd, LCD.write_lcd_default, LCD.update_lyc_flag in Hw.
  cbn -[Z.testbit to_u8 Z.lor Z.land] in Hw, Hbit |- *.
  destruct (ly =? v); injection Hw as <-;
    cbn -[Z.testbit to_u8 Z.lor Z.land] in *;
    (split; [reflexivity |]); (split; [exact Hbit |]).
  - byte_bits.
  - byte_bits.
Qed.

(* ================================================================== *)
(** * Further properties of the opcode bit fields *)

(** A property checked on the 256 byte values holds of every byte. *)
Lemma byte_forall (P : Z -> bool) :
  forallb P (map Z.of_nat (seq 0 256)) = true ->
  forall b, is_u8 b -> P b = true.
Proof.
  intros Hall b Hb. rewrite forallb_forall in Hall. apply Hall.
  apply in_map_iff. exists (Z.to_nat b). unfold is_u8 in Hb. split; [lia |].
  apply in_seq. lia.
Qed.

(** X11: under the big-endian branch the five fields are the bits the
    header documents (x = bits 7-6, y = bits 5-3, z = bits 2-0, p = bits
    5-4, q = bit 3), for every opcode byte. *)
Theorem opcode_big_endian_documented_bits (b : Z) :
  is_u8 b ->
  Opcode.fields Opcode.BIG_ENDIAN b
  = (Opcode.bit_field 7 6 b, Opcode.bit_field 5 3 b, Opcode.bit_field 2 0 b,
     Opcode.bit_field 5 4 b, Opcode.bit_field 3 3 b).
Proof.
  intros Hb. destruct (opcode_fields_big_endian b Hb) as (Hx & Hy & Hz & Hp & Hq).
  unfold Opcode.fields. now rewrite Hx, Hy, Hz, Hp, Hq.
Qed.

Lemma opcode_big_endian_documented_bits_witness :
  is_u8 0xCB /\
  Opcode.fields Opcode.BIG_ENDIAN 0xCB
  = (Opcode.bit_field 7 6 0xCB, Opcode.bit_field 5 3 0xCB,
     Opcode.bit_field 2 0 0xCB, Opcode.bit_field 5 4 0xCB,
     Opcode.bit_field 3 3 0xCB).
Proof.
  split; [unfold is_u8; lia |].
  apply (opcode_big_endian_documented_bits 0xCB). unfold is_u8. lia.
Defined.

(** X12: under the big-endian branch the fields are the octal digits of
    the opcode: x, y, z lie in 0..3, 0..7, 0..7 and rebuild the byte as
    64 x + 8 y + z, and p, q split y as 2 p + q with q a single bit. *)
Theorem opcode_big_endian_octal_digits (b : Z) :
  is_u8 b ->
  let '(x, y, z, p, q) := Opcode.fields Opcode.BIG_ENDIAN b in
  b = 64 * x + 8 * y + z /\ y = 2 * p + q /\
  0 <= x < 4 /\ 0 <= y < 8 /\ 0 <= z < 8 /\ 0 <= p < 4 /\ 0 <= q < 2.
Proof.
  intros Hb.
  pose proof (byte_forall
    (fun b => let '(x, y, z, p, q) := Opcode.fields Opcode.BIG_ENDIAN b in
              (b =? 64 * x + 8 * y + z) && (y =? 2 * p + q) &&
              (0 <=? x) && (x <? 4) && (0 <=? y) && (y <? 8) &&
              (0 <=? z) && (z <? 8) && (0 <=? p) && (p <? 4) &&
              (0 <=? q) && (q <? 2))
    ltac:(vm_compute; reflexivity) b Hb) as H.
  cbv beta in H.
  destruct (Opcode.fields Opcode.BIG_ENDIAN b) as [[[[x y] z] p] q].
  repeat rewrite andb_true_iff in H.
  rewrite !Z.eqb_eq, !Z.leb_le, !Z.ltb_lt in H. intuition lia.
Qed.

Lemma opcode_big_endian_octal_digits_witness :
  is_u8 0xCB /\
  Opcode.fields Opcode.BIG_ENDIAN 0xCB = (3, 1, 3, 0, 1) /\
  0xCB = 64 * 3 + 8 * 1 + 3 /\ 1 = 2 * 0 + 1.
Proof.
  split; [unfold is_u8; lia |]. split; [reflexivity |].
  pose proof (opcode_big_endian_octal_digits 0xCB ltac:(unfold is_u8; lia))
    as H.
  cbn in H. tauto.
Defined.

(** X13: the little-endian branch extracts the mirrored partition of the
    byte: x from bits 1-0, y from bits 4-2, z from bits 7-5, p from bits
    3-2 and q from bit 4, so that the byte is 32 z + 4 y + x and y is
    4 q + p. *)
Theorem opcode_little_endian_mirrored (b : Z) :
  is_u8 b ->
  let '(x, y, z, p, q) := Opcode.fields Opcode.LITTLE_ENDIAN b in
  (x, y, z, p, q)
  = (Opcode.bit_field 1 0 b, Opcode.bit_field 4 2 b, Opcode.bit_field 7 5 b,
     Opcode.bit_field 3 2 b, Opcode.bit_field 4 4 b) /\
  b = 32 * z + 4 * y + x /\ y = 4 * q + p /\
  0 <= x < 4 /\ 0 <= y < 8 /\ 0 <= z < 8 /\ 0 <= p < 4 /\ 0 <= q < 2.
Proof.
  intros Hb.
  destruct (opcode_fields_little_endian b Hb) as (Hx & Hy & Hz & Hp & Hq).
  pose proof (byte_forall
    (fun b => let '(x, y, z, p, q) := Opcode.fields Opcode.LITTLE_ENDIAN b in
              (b =? 32 * z + 4 * y + x) && (y =? 4 * q + p) &&
              (0 <=? x) && (x <? 4) && (0 <=? y) && (y <? 8) &&
              (0 <=? z) && (z <? 8) && (0 <=? p) && (p <? 4) &&
              (0 <=? q) && (q <? 2))
    ltac:(vm_compute; reflexivity) b Hb) as H.
  cbv beta in H. unfold Opcode.fields in *.
  rewrite <- Hx, <- Hy, <- Hz, <- Hp, <- Hq.
  repeat rewrite andb_true_iff in H.
  rewrite !Z.eqb_eq, !Z.leb_le, !Z.ltb_lt in H. intuition lia.
Qed.

Lemma opcode_little_endian_mirrored_witness :
  is_u8 0xCB /\
  Opcode.fields Opcode.LITTLE_ENDIAN 0xCB = (3, 2, 6, 2, 0) /\
  0xCB = 32 * 6 + 4 * 2 + 3.
Proof.
  split; [unfold is_u8; lia |]. split; [reflexivity |].
  pose proof (opcode_little_endian_mirrored 0xCB ltac:(unfold is_u8; lia))
    as H.
  cbn in H. tauto.
Defined.

(** X14: the two branches extract the same five fields from an opcode
    byte only when the byte is 0x00 or 0xFF. *)
Theorem opcode_branches_agree_iff (b : Z) :
  is_u8 b ->
  (Opcode.fields Opcode.BIG_ENDIAN b = Opcode.fields Opcode.LITTLE_ENDIAN b
   <-> b = 0x00 \/ b = 0xFF).
Proof.
  intros Hb. split.
  - intros Heq.
    pose proof (byte_forall
      (fun b =>
         negb ((Opcode.OPCODE_X Opcode.BIG_ENDIAN b
                =? Opcode.OPCODE_X Opcode.LITTLE_ENDIAN b)
               && (Opcode.OPCODE_Y Opcode.BIG_ENDIAN b
                   =? Opcode.OPCODE_Y Opcode.LITTLE_ENDIAN b)
               && (Opcode.OPCODE_Z Opcode.BIG_ENDIAN b
                   =? Opcode.OPCODE_Z Opcode.LITTLE_ENDIAN b)
               && (Opcode.OPCODE_P Opcode.BIG_ENDIAN b
                   =? Opcode.OPCODE_P Opcode.LITTLE_ENDIAN b)
               && (Opcode.OPCODE_Q Opcode.BIG_ENDIAN b
                   =? Opcode.OPCODE_Q Opcode.LITTLE_ENDIAN b))
         || (b =? 0x00) || (b =? 0xFF))
      ltac:(vm_compute; reflexivity) b Hb) as H.
    cbv beta in H.
    unfold Opcode.fields, Opcode.OPCODE_X, Opcode.OPCODE_Y, Opcode.OPCODE_Z,
      Opcode.OPCODE_P, Opcode.OPCODE_Q in *.
    injection Heq as Hx Hy Hz Hp Hq.
    rewrite Hx, Hy, Hz, Hp, Hq, !Z.eqb_refl in H. cbn [andb negb orb] in H.
    apply orb_true_iff in H. rewrite !Z.eqb_eq in H. exact H.
  - intros [-> | ->]; reflexivity.
Qed.

Lemma opcode_branches_agree_iff_witness :
  is_u8 0xFF /\
  Opcode.fields Opcode.BIG_ENDIAN 0xFF = Opcode.fields Opcode.LITTLE_ENDIAN 0xFF.
Proof.
  split; [unfold is_u8; lia |].
  apply (opcode_branches_agree_iff 0xFF); [unfold is_u8; lia | right; reflexivity].
Defined.

(* ================================================================== *)
(** * Further properties of the cartridge loader *)

(** The rest of a list at a position where it has an element. *)
Lemma skipn_nth_error {A : Type} (l : list A) (n : nat) (a : A) :
  nth_error l n = Some a -> skipn n l = a :: skipn (S n) l.
Proof.
  revert n. induction l as [| h t IH]; intros [| n] H; cbn in *;
    try discriminate.
  - now injection H as ->.
  - now apply IH.
Qed.

(** The loop of [verify_header_checksum] over [n] bytes from [start],
    when the buffer holds them all: the accumulator goes down by each
    byte and up by one per byte, modulo 256. *)
Lemma checksum_loop_sum (cart : Cartridge.cartridge_t) (n : nat) :
  forall (start : nat) (acc : Z),
    (start + n <= List.length (Cartridge.rom cart))%nat ->
    0 <= acc < 256 ->
    fold_left (Cartridge.checksum_step cart) (seq start n) (Ok acc)
    = Ok ((acc + Z.of_nat n
           - fold_right Z.add 0 (firstn n (skipn start (Cartridge.rom cart))))
          mod 256).
Proof.
  induction n as [| n IH]; intros start acc Hlen Hacc.
  - cbn. rewrite Z.mod_small by lia. f_equal. lia.
  - cbn [seq fold_left].
    destruct (nth_error (Cartridge.rom cart) start) as [b |] eqn:Hb.
    2: { apply nth_error_None in Hb. lia. }
    unfold Cartridge.checksum_step at 2. unfold Cartridge.rom_at.
    rewrite Hb. cbn [bind].
    rewrite IH by (try apply to_u8_range; lia).
    rewrite (skipn_nth_error _ _ _ Hb). cbn [firstn fold_right].
    f_equal. unfold to_u8. change (2 ^ 8) with 256.
    rewrite <- Z.add_sub_assoc, Zplus_mod_idemp_l.
    f_equal. lia.
Qed.

(** Once an access has left the buffer the loop keeps that outcome. *)
Lemma checksum_step_not_ok (cart : Cartridge.cartridge_t)
      (acc : result Z) (i : nat) :
  (List.length (Cartridge.rom cart) <= i)%nat ->
  ~ completes (Cartridge.checksum_step cart acc i).
Proof.
  intros Hi [x Hx]. unfold Cartridge.checksum_step, Cartridge.rom_at in Hx.
  apply nth_error_None in Hi. rewrite Hi in Hx.
  destruct acc; discriminate Hx.
Qed.

(** X15: on a ROM buffer that holds the header (at least 0x014D bytes),
    [verify_header_checksum] returns true exactly when the 25 bytes at
    0x0134-0x014C add up to 25 modulo 256; the byte at 0x014D, where the
    header stores its checksum, is not read. *)
Theorem verify_header_checksum_closed_form (cart : Cartridge.cartridge_t) :
  (0x014D <= List.length (Cartridge.rom cart))%nat ->
  Cartridge.verify_header_checksum cart
  = Ok ((25 - fold_right Z.add 0
                (firstn 25 (skipn 0x0134 (Cartridge.rom cart)))) mod 256
        =? 0).
Proof.
  intros Hlen. unfold Cartridge.verify_header_checksum, Cartridge.checksum_range.
  change (0x014C + 1 - 0x0134)%nat with 25%nat.
  rewrite checksum_loop_sum by (cbn; lia). reflexivity.
Qed.

Lemma verify_header_checksum_closed_form_witness :
  (0x014D <= List.length
               (Cartridge.rom
                  (Cartridge.mk_cartridge "ones.gb" (Cartridge.flat_image 1)
                                          0x0150 0 false)))%nat /\
  Cartridge.verify_header_checksum
    (Cartridge.mk_cartridge "ones.gb" (Cartridge.flat_image 1) 0x0150 0 false)
  = Ok true.
Proof.
  split; [vm_compute; repeat constructor |].
  rewrite (verify_header_checksum_closed_form
             (Cartridge.mk_cartridge "ones.gb" (Cartridge.flat_image 1)
                                     0x0150 0 false));
    [reflexivity | vm_compute; repeat constructor].
Defined.

(** X16: [verify_header_checksum] returns a verdict exactly when the ROM
    buffer has at least 0x014D bytes; on a shorter buffer its loop reads
    past the end. *)
Theorem verify_header_checksum_defined_iff (cart : Cartridge.cartridge_t) :
  completes (Cartridge.verify_header_checksum cart)
  <-> (0x014D <= List.length (Cartridge.rom cart))%nat.
Proof.
  split.
  - intros [ok Hok].
    destruct (Nat.le_gt_cases 0x014D (List.length (Cartridge.rom cart)))
      as [Hle | Hgt]; [exact Hle | exfalso].
    unfold Cartridge.verify_header_checksum, Cartridge.checksum_range in Hok.
    change (0x014C + 1 - 0x0134)%nat with (S 24) in Hok.
    rewrite seq_S, fold_left_app in Hok. cbn [fold_left] in Hok.
    destruct (Cartridge.checksum_step cart _ (0x0134 + 24)) as [s | | |] eqn:Hs;
      try discriminate Hok.
    apply (checksum_step_not_ok cart
             (fold_left (Cartridge.checksum_step cart) (seq 0x0134 24) (Ok 0))
             (0x0134 + 24)).
    + change (0x0134 + 24)%nat with 0x014C%nat. lia.
    + exists s. exact Hs.
  - intros Hlen.
    unfold Cartridge.verify_header_checksum, Cartridge.checksum_range.
    change (0x014C + 1 - 0x0134)%nat with 25%nat.
    rewrite checksum_loop_sum by (cbn; lia). eexists. reflexivity.
Qed.

(** X17: whenever [load_cartridge] returns, it has written one message to
    the standard error stream if it returns false and none if it returns
    true.  A file that cannot be opened leaves the cartridge and the bank
    registers untouched; a file that can be opened is refused exactly when
    [verify_header_checksum] accepts its bytes, and the buffer then holds
    the file under the path given. *)
Theorem load_cartridge_outcomes
        (fopen : string -> option (list Z)) (malloc_contents : Z -> list Z)
        (header_ram_size header_rom_version header_type : list Z -> result Z)
        (ROM_ONLY MBC1 MBC2 : Z) (Chip : Type)
        (check_multicart :
           Cartridge.cartridge_t * Chip -> Cartridge.cartridge_t * Chip)
        (path : string) (st st' : Cartridge.loader_state Chip) (ok : bool) :
  Cartridge.load_cartridge fopen malloc_contents header_ram_size
    header_rom_version header_type ROM_ONLY MBC1 MBC2 Chip check_multicart
    path st = Ok (ok, st') ->
  match fopen path with
  | None =>
      ok = false /\
      Cartridge.cartridge st' = Cartridge.cartridge st /\
      Cartridge.chip_registers st' = Cartridge.chip_registers st /\
      Cartridge.stderr st' = Cartridge.stderr st ++ ["Failed to load cartridge"]
  | Some file =>
      exists valid,
        Cartridge.verify_header_checksum
          (Cartridge.mk_cartridge "" file 0 0 false) = Ok valid /\
        ok = negb valid /\
        Cartridge.stderr st' =
        Cartridge.stderr st
        ++ (if valid then ["Failed to load cartridge: Invalid checksum."]
            else []) /\
        if valid
        then Cartridge.filename (Cartridge.cartridge st') = path /\
             Cartridge.rom (Cartridge.cartridge st') = file /\
             Cartridge.rom_size (Cartridge.cartridge st')
             = Z.of_nat (List.length file) /\
             Cartridge.multicart (Cartridge.cartridge st') = false /\
             Cartridge.chip_registers st' = Cartridge.chip_registers st
        else True
  end.
Proof.
  intros H. unfold Cartridge.load_cartridge in H.
  destruct (fopen path) as [file |].
  - destruct (header_ram_size _) as [code | | |]; try discriminate H.
    cbn [bind] in H.
    destruct (header_rom_version _) as [version | | |]; try discriminate H.
    cbn [bind] in H.
    erewrite verify_header_checksum_rom
      with (c2 := Cartridge.mk_cartridge "" file 0 0 false) in H
      by reflexivity.
    destruct (Cartridge.verify_header_checksum _) as [valid | | |];
      try discriminate H.
    cbn [bind] in H. exists valid. split; [reflexivity |].
    destruct valid.
    + injection H as <- <-. cbn. auto 10.
    + cbn [Cartridge.rom] in H.
      destruct (header_type file) as [type | | |]; try discriminate H.
      cbn [bind] in H.
      destruct (if negb (type =? ROM_ONLY) && (type <=? MBC1)
                then check_multicart _ else _) as [cart' chip'].
      injection H as <- <-. cbn. rewrite app_nil_r. auto.
  - injection H as <- <-. cbn. auto.
Qed.

Lemma load_cartridge_outcomes_witness :
  exists st',
    Cartridge.toy_load_cartridge "ones.gb" Cartridge.empty_loader_state
    = Ok (false, st') /\
    Cartridge.stderr st' = ["Failed to load cartridge: Invalid checksum."] /\
    Cartridge.rom (Cartridge.cartridge st') = Cartridge.flat_image 1.
Proof.
  eexists. split; [reflexivity |].
  pose proof (load_cartridge_outcomes
                Cartridge.toy_fopen (fun size => repeat 0 (Z.to_nat size))
                (Cartridge.header_byte 0x0149) (Cartridge.header_byte 0x014C)
                (Cartridge.header_byte 0x0147) 0 3 6 unit (fun s => s)
                "ones.gb" Cartridge.empty_loader_state _ false eq_refl) as H.
  cbn [Cartridge.toy_fopen String.eqb Ascii.eqb Bool.eqb] in H.
  destruct H as (valid & Hvalid & Hok & Herr & Hrest).
  destruct valid; [| discriminate Hok].
  destruct Hrest as (_ & Hrom & _). split; [exact Herr | exact Hrom].
Defined.

(* ================================================================== *)
(** * The logo printed by [cartridge_info] *)

Section LogoProperties.

Variable nintendo_logo : list Z.

Local Abbreviation logo_cell := (Cartridge.logo_cell nintendo_logo).
Local Abbreviation logo_cells := (Cartridge.logo_cells nintendo_logo).
Local Abbreviation logo_line := (Cartridge.logo_line nintendo_logo).
Local Abbreviation logo_lines := (Cartridge.logo_lines nintendo_logo).

Lemma nibble_chars_pixels (n : Z) :
  List.length (Cartridge.nibble_chars n) = 4%nat /\
  Forall Cartridge.is_pixel (Cartridge.nibble_chars n).
Proof.
  unfold Cartridge.nibble_chars. cbn [map]. split; [reflexivity |].
  repeat (apply Forall_cons;
          [destruct (_ =? 0); [right | left]; reflexivity |]).
  apply Forall_nil.
Qed.

Lemma logo_cell_pixels (y i : Z) :
  (Z.to_nat i < List.length nintendo_logo)%nat ->
  exists chars,
    logo_cell y i = Ok chars /\ List.length chars = 4%nat /\
    Forall Cartridge.is_pixel chars.
Proof.
  intros Hi. unfold Cartridge.logo_cell, Cartridge.logo_at.
  destruct (nth_error nintendo_logo (Z.to_nat i)) as [b |] eqn:Hb.
  - cbn [bind]. eexists. split; [reflexivity |]. apply nibble_chars_pixels.
  - apply nth_error_None in Hb. lia.
Qed.

Lemma logo_cells_pixels (count : nat) :
  forall y i,
    0 <= i ->
    (count = 0%nat \/
     (Z.to_nat i + 2 * (count - 1) < List.length nintendo_logo)%nat) ->
    exists chars,
      logo_cells count y i = Ok chars /\
      List.length chars = (4 * count)%nat /\ Forall Cartridge.is_pixel chars.
Proof.
  induction count as [| count IH]; intros y i Hi Hlen.
  - exists []. repeat split. constructor.
  - destruct Hlen as [Hlen | Hlen]; [discriminate |].
    cbn [Cartridge.logo_cells].
    destruct (logo_cell_pixels y i) as (chars & -> & Hc4 & Hcp); [lia |].
    cbn [bind].
    destruct (IH y (i + 2)) as (rest & -> & Hr & Hrp); [lia | |].
    { destruct count; [left; reflexivity | right].
      rewrite Z2Nat.inj_add by lia. change (Z.to_nat 2) with 2%nat. lia. }
    cbn [bind]. eexists. split; [reflexivity |].
    split; [rewrite length_app; lia | now apply Forall_app].
Qed.

(** The index a line starts from, for the eight lines. *)
Lemma logo_line_start (y : Z) :
  0 <= y < 8 ->
  0 <= Z.rem (Z.quot y 2) 2 + Z.quot y 4 * 24 <= 25.
Proof.
  intros Hy.
  assert (y = 0 \/ y = 1 \/ y = 2 \/ y = 3 \/ y = 4 \/ y = 5 \/ y = 6 \/ y = 7)
    as [-> | [-> | [-> | [-> | [-> | [-> | [-> | ->]]]]]]] by lia;
    cbn; lia.
Qed.

Lemma logo_line_pixels (y : Z) :
  0 <= y < 8 ->
  (48 <= List.length nintendo_logo)%nat ->
  exists chars,
    logo_line y = Ok (chars ++ [Cartridge.newline]) /\
    List.length chars = 48%nat /\ Forall Cartridge.is_pixel chars.
Proof.
  intros Hy Hlen. unfold Cartridge.logo_line.
  pose proof (logo_line_start y Hy) as Hstart.
  destruct (logo_cells_pixels 12 y (Z.rem (Z.quot y 2) 2 + Z.quot y 4 * 24))
    as (chars & -> & Hc & Hp); [lia | right; lia |].
  cbn [bind]. exists chars. auto.
Qed.

Lemma logo_lines_pixels (count : nat) :
  forall y,
    0 <= y -> y + Z.of_nat count <= 8 ->
    (48 <= List.length nintendo_logo)%nat ->
    exists lines,
      logo_lines count y
      = Ok (List.concat (map (fun l => l ++ [Cartridge.newline]) lines)) /\
      List.length lines = count /\
      Forall (fun l => List.length l = 48%nat /\ Forall Cartridge.is_pixel l)
             lines.
Proof.
  induction count as [| count IH]; intros y Hy Hmax Hlen.
  - exists []. repeat split. constructor.
  - cbn [Cartridge.logo_lines].
    destruct (logo_line_pixels y) as (chars & -> & Hc & Hp); [lia | exact Hlen |].
    cbn [bind].
    destruct (IH (y + 1)) as (lines & -> & Hn & Hall); [lia | lia | exact Hlen |].
    cbn [bind]. exists (chars :: lines). split; [reflexivity |].
    split; [cbn; lia |]. constructor; auto.
Qed.

(** X18: when [nintendo_logo] has its 48 bytes, [print_nintendo_logo]
    writes eight lines of 48 characters, each a star or a blank, every
    line ended by a newline. *)
Theorem print_nintendo_logo_shape :
  (48 <= List.length nintendo_logo)%nat ->
  exists lines,
    Cartridge.print_nintendo_logo nintendo_logo
    = Ok (List.concat (map (fun l => l ++ [Cartridge.newline]) lines)) /\
    List.length lines = 8%nat /\
    Forall (fun l => List.length l = 48%nat /\ Forall Cartridge.is_pixel l)
           lines.
Proof.
  intros Hlen. apply (logo_lines_pixels 8 0); [lia | lia | exact Hlen].
Qed.

(** What a run of the loops that returns has read. *)
Lemma logo_cells_read (count : nat) :
  forall y i chars k,
    logo_cells count y i = Ok chars -> (k < count)%nat ->
    completes (logo_cell y (i + 2 * Z.of_nat k)).
Proof.
  induction count as [| count IH]; intros y i chars k H Hk; [lia |].
  cbn [Cartridge.logo_cells] in H.
  destruct (logo_cell y i) as [c | | |] eqn:Hc; try discriminate H.
  cbn [bind] in H.
  destruct (logo_cells count y (i + 2)) as [rest | | |] eqn:Hr;
    try discriminate H.
  destruct k as [| k].
  - replace (i + 2 * Z.of_nat 0) with i by lia. rewrite Hc. now exists c.
  - replace (i + 2 * Z.of_nat (S k)) with (i + 2 + 2 * Z.of_nat k) by lia.
    apply (IH y (i + 2) rest k Hr). lia.
Qed.

Lemma logo_lines_read (count : nat) :
  forall y out k,
    logo_lines count y = Ok out -> (k < count)%nat ->
    completes (logo_line (y + Z.of_nat k)).
Proof.
  induction count as [| count IH]; intros y out k H Hk; [lia |].
  cbn [Cartridge.logo_lines] in H.
  destruct (logo_line y) as [l | | |] eqn:Hl; try discriminate H.
  cbn [bind] in H.
  destruct (logo_lines count (y + 1)) as [rest | | |] eqn:Hr;
    try discriminate H.
  destruct k as [| k].
  - replace (y + Z.of_nat 0) with y by lia. rewrite Hl. now exists l.
  - replace (y + Z.of_nat (S k)) with (y + 1 + Z.of_nat k) by lia.
    apply (IH (y + 1) rest k Hr). lia.
Qed.

(** X19: [print_nintendo_logo] returns exactly when [nintendo_logo] has
    at least 48 bytes: its last line reads the byte at index 47. *)
Theorem print_nintendo_logo_defined_iff :
  completes (Cartridge.print_nintendo_logo nintendo_logo)
  <-> (48 <= List.length nintendo_logo)%nat.
Proof.
  split.
  - intros [out Hout]. unfold Cartridge.print_nintendo_logo in Hout.
    destruct (logo_lines_read 8 0 out 7 Hout) as [line Hline]; [lia |].
    unfold Cartridge.logo_line in Hline.
    change (Z.rem (Z.quot (0 + Z.of_nat 7) 2) 2 + Z.quot (0 + Z.of_nat 7) 4 * 24)
      with 25 in Hline.
    destruct (logo_cells 12 (0 + Z.of_nat 7) 25) as [chars | | |] eqn:Hcells;
      try discriminate Hline.
    destruct (logo_cells_read 12 _ _ chars 11 Hcells) as [c Hc]; [lia |].
    unfold Cartridge.logo_cell, Cartridge.logo_at in Hc.
    change (Z.to_nat (25 + 2 * Z.of_nat 11)) with 47%nat in Hc.
    destruct (nth_error nintendo_logo 47) as [b |] eqn:Hb;
      [| discriminate Hc].
    assert (nth_error nintendo_logo 47 <> None) as Hsome by congruence.
    apply nth_error_Some in Hsome. lia.
  - intros Hlen. destruct (logo_lines_pixels 8 0) as (lines & H & _); [lia | lia | exact Hlen |].
    eexists. exact H.
Qed.

End LogoProperties.

Lemma print_nintendo_logo_shape_witness :
  (48 <= List.length Cartridge.sample_logo)%nat /\
  exists lines,
    Cartridge.print_nintendo_logo Cartridge.sample_logo
    = Ok (List.concat (map (fun l => l ++ [Cartridge.newline]) lines)) /\
    List.length lines = 8%nat /\
    Forall (fun l => List.length l = 48%nat /\ Forall Cartridge.is_pixel l)
           lines.
Proof.
  split; [vm_compute; repeat constructor |].
  apply (print_nintendo_logo_shape Cartridge.sample_logo).
  vm_compute; repeat constructor.
Defined.

(** Where the two halves of each byte are drawn, by running the loops on
    48 unknown bytes. *)
Lemma logo_layout_raw (logo : list Z) :
  (48 <= List.length logo)%nat ->
  exists out,
    Cartridge.print_nintendo_logo logo = Ok out /\
    forall i b,
      (i < 48)%nat -> nth_error logo i = Some b ->
      firstn 4 (skipn (49 * Cartridge.logo_high_line i
                       + Cartridge.logo_column i) out)
      = Cartridge.nibble_chars (to_u8 (Z.shiftr b 4)) /\
      firstn 4 (skipn (49 * S (Cartridge.logo_high_line i)
                       + Cartridge.logo_column i) out)
      = Cartridge.nibble_chars (to_u8 (Z.land b 0xF)).
Proof.
  intros Hlen.
  do 48 (destruct logo as [| ? logo]; [cbn in Hlen; lia |]).
  clear Hlen.
  eexists. split; [reflexivity |].
  intros i b Hi Hb.
  do 48 (destruct i as [| i]; [injection Hb as <-; split; reflexivity |]).
  lia.
Qed.

(** The two halves of a byte. *)
Lemma byte_halves (b : Z) :
  is_u8 b ->
  to_u8 (Z.shiftr b 4) = Z.shiftr b 4 /\ to_u8 (Z.land b 0xF) = Z.land b 0xF /\
  0 <= Z.shiftr b 4 < 16 /\ 0 <= Z.land b 0xF < 16 /\
  b = 16 * Z.shiftr b 4 + Z.land b 0xF.
Proof.
  intros Hb. unfold is_u8 in Hb.
  change 0xF with (Z.ones 4). rewrite Z.land_ones, Z.shiftr_div_pow2 by lia.
  change (2 ^ 4) with 16.
  pose proof (Z.div_mod b 16 ltac:(lia)) as Hdm.
  pose proof (Z.mod_pos_bound b 16 ltac:(lia)) as Hm.
  assert (0 <= b / 16 < 16) as Hd.
  { split; [apply Z.div_pos; lia | apply Z.div_lt_upper_bound; lia]. }
  unfold to_u8. change (2 ^ 8) with 256.
  rewrite !Z.mod_small by lia. repeat split; lia.
Qed.

(** Four characters tell a half byte. *)
Lemma nibble_chars_inj (n m : Z) :
  0 <= n < 16 -> 0 <= m < 16 ->
  Cartridge.nibble_chars n = Cartridge.nibble_chars m -> n = m.
Proof.
  intros Hn Hm H.
  assert (exists i j, (i < 16)%nat /\ (j < 16)%nat /\
                      n = Z.of_nat i /\ m = Z.of_nat j)
    as (i & j & Hi & Hj & -> & ->).
  { exists (Z.to_nat n), (Z.to_nat m). lia. }
  clear Hn Hm.
  do 16 (destruct i as [| i];
         [do 16 (destruct j as [| j];
                 [first [reflexivity | vm_compute in H; discriminate H] |]);
          lia |]).
  lia.
Qed.

(** X20: on a logo of 48 bytes the four characters for the high half of
    byte [i] stand on line [4 (i / 24) + 2 (i mod 2)] from column
    [4 ((i mod 24) / 2)], and the four for its low half on the line
    below, from the same column: bit set is a star, bit clear a blank,
    the high bit first. *)
Theorem print_nintendo_logo_layout (logo : list Z) (i : nat) (b : Z) :
  (48 <= List.length logo)%nat ->
  (i < 48)%nat ->
  nth_error logo i = Some b ->
  is_u8 b ->
  exists out,
    Cartridge.print_nintendo_logo logo = Ok out /\
    firstn 4 (skipn (49 * Cartridge.logo_high_line i
                     + Cartridge.logo_column i) out)
    = Cartridge.nibble_chars (Z.shiftr b 4) /\
    firstn 4 (skipn (49 * S (Cartridge.logo_high_line i)
                     + Cartridge.logo_column i) out)
    = Cartridge.nibble_chars (Z.land b 0xF).
Proof.
  intros Hlen Hi Hb Hbyte.
  destruct (logo_layout_raw logo Hlen) as (out & Hout & Hlayout).
  destruct (Hlayout i b Hi Hb) as [Hhigh Hlow].
  destruct (byte_halves b Hbyte) as (Hh & Hl & _).
  rewrite Hh in Hhigh. rewrite Hl in Hlow.
  exists out. auto.
Qed.

(** Byte 25 of the sample logo, 0xCC: line 6, from column 0. *)
Lemma print_nintendo_logo_layout_witness :
  (48 <= List.length Cartridge.sample_logo)%nat /\ (25 < 48)%nat /\
  nth_error Cartridge.sample_logo 25 = Some 0xCC /\ is_u8 0xCC /\
  exists out,
    Cartridge.print_nintendo_logo Cartridge.sample_logo = Ok out /\
    firstn 4 (skipn (49 * 6 + 0) out) = ["*"; "*"; " "; " "]%char /\
    firstn 4 (skipn (49 * 7 + 0) out) = ["*"; "*"; " "; " "]%char.
Proof.
  split; [vm_compute; repeat constructor |].
  split; [lia |]. split; [reflexivity |]. split; [unfold is_u8; lia |].
  apply (print_nintendo_logo_layout Cartridge.sample_logo 25 0xCC);
    [vm_compute; repeat constructor | lia | reflexivity | unfold is_u8; lia].
Defined.

(** X21: the picture determines the logo: two logos of 48 bytes that
    [print_nintendo_logo] draws alike are equal. *)
Theorem print_nintendo_logo_injective (logo1 logo2 : list Z) :
  List.length logo1 = 48%nat -> List.length logo2 = 48%nat ->
  Forall is_u8 logo1 -> Forall is_u8 logo2 ->
  Cartridge.print_nintendo_logo logo1 = Cartridge.print_nintendo_logo logo2 ->
  logo1 = logo2.
Proof.
  intros Hl1 Hl2 Hb1 Hb2 Heq.
  destruct (logo_layout_raw logo1) as (out1 & Hout1 & Hlay1); [lia |].
  destruct (logo_layout_raw logo2) as (out2 & Hout2 & Hlay2); [lia |].
  rewrite Hout1, Hout2 in Heq. injection Heq as <-.
  apply nth_error_ext. intros n.
  destruct (Nat.lt_ge_cases n 48) as [Hn | Hn].
  - destruct (nth_error logo1 n) as [b1 |] eqn:H1.
    2: { apply nth_error_None in H1. lia. }
    destruct (nth_error logo2 n) as [b2 |] eqn:H2.
    2: { apply nth_error_None in H2. lia. }
    destruct (Hlay1 n b1 Hn H1) as [Hh1 Hw1].
    destruct (Hlay2 n b2 Hn H2) as [Hh2 Hw2].
    rewrite Forall_forall in Hb1, Hb2.
    destruct (byte_halves b1 (Hb1 b1 (nth_error_In _ _ H1)))
      as (Ea1 & Eb1 & Ra1 & Rb1 & Eq1).
    destruct (byte_halves b2 (Hb2 b2 (nth_error_In _ _ H2)))
      as (Ea2 & Eb2 & Ra2 & Rb2 & Eq2).
    rewrite Ea1 in Hh1. rewrite Eb1 in Hw1.
    rewrite Ea2 in Hh2. rewrite Eb2 in Hw2.
    rewrite Hh1 in Hh2. rewrite Hw1 in Hw2.
    apply nibble_chars_inj in Hh2; [| assumption | assumption].
    apply nibble_chars_inj in Hw2; [| assumption | assumption].
    f_equal. lia.
  - rewrite (proj2 (nth_error_None logo1 n)) by lia.
    rewrite (proj2 (nth_error_None logo2 n)) by lia. reflexivity.
Qed.

Lemma print_nintendo_logo_injective_witness :
  List.length Cartridge.sample_logo = 48%nat /\
  Forall is_u8 Cartridge.sample_logo /\
  Cartridge.sample_logo = Cartridge.sample_logo.
Proof.
  assert (Forall is_u8 Cartridge.sample_logo) as Hbytes.
  { unfold Cartridge.sample_logo, is_u8.
    repeat (apply Forall_cons; [lia |]). apply Forall_nil. }
  split; [reflexivity |]. split; [exact Hbytes |].
  apply (print_nintendo_logo_injective Cartridge.sample_logo
           Cartridge.sample_logo);
    [reflexivity | reflexivity | exact Hbytes | exact Hbytes | reflexivity].
Defined.

(* ================================================================== *)
(** * Further properties of the command line *)

Section ParserProperties.

Variable GBEMU_NB_ARGS : nat.

Local Abbreviation parse_opt := (CLI.parse_opt GBEMU_NB_ARGS).
Local Abbreviation argp_parse := (CLI.argp_parse GBEMU_NB_ARGS).

Local Abbreviation argp_parse_options :=
  (CLI.argp_parse_options GBEMU_NB_ARGS).
Local Abbreviation argp_parse_args := (CLI.argp_parse_args GBEMU_NB_ARGS).

(** What [parse_opt] does with an option character. *)
Lemma parse_opt_option (c : ascii) (value : string) (arg_num : nat)
      (o : CLI.options) :
  (CLI.known_option c = false /\
   parse_opt (CLI.KEY c) value arg_num o = CLI.Returns CLI.ARGP_ERR_UNKNOWN o)
  \/
  (CLI.known_option c = true /\
   exists o1,
     parse_opt (CLI.KEY c) value arg_num o = CLI.Returns CLI.NO_ERROR o1 /\
     CLI.args o1 = CLI.args o /\
     CLI.trace o1 = CLI.trace o || Ascii.eqb "t" c /\
     CLI.blargg o1 = CLI.blargg o || Ascii.eqb "b" c /\
     CLI.exit_infinite_loop o1 = CLI.exit_infinite_loop o || Ascii.eqb "x" c /\
     CLI.warnings o1 =
     CLI.warnings o
     ++ (if CLI.invalid_level c value
         then [log_warn "Invalid argument for option -l / --log-level: %s"
                        (ArgStr value)]
         else [])).
Proof.
  destruct c as [[] [] [] [] [] [] [] []];
    try (left; split; reflexivity);
    right; (split; [reflexivity |]);
    unfold CLI.parse_opt, CLI.invalid_level;
    cbn [Ascii.eqb Bool.eqb andb];
    repeat match goal with
           | |- context [CLI.STR_EQ value ?s] => destruct (CLI.STR_EQ value s)
           end;
    eexists; (split; [reflexivity |]); cbn;
    rewrite ?orb_true_r, ?orb_false_r, ?app_nil_r; auto.
Qed.

(** The help option is not in the table. *)
Lemma known_option_not_help (c : ascii) :
  CLI.known_option c = true -> Ascii.eqb c "?" = false.
Proof.
  destruct (Ascii.eqb_spec c "?") as [-> |]; [discriminate | reflexivity].
Qed.

(** The options that are let through: every one of them is in the table
    or a hidden option of argp, and the options struct holds the flags
    given and one warning per invalid log level. *)
Lemma argp_parse_options_parsed (items : list CLI.cli_item) :
  forall (arg_num : nat) (o o' : CLI.options),
    argp_parse_options items arg_num o = CLI.Parsed o' ->
    forallb CLI.known_item items = true /\
    CLI.args o' = CLI.args o /\
    CLI.trace o' = CLI.trace o || CLI.has_option "t" items /\
    CLI.blargg o' = CLI.blargg o || CLI.has_option "b" items /\
    CLI.exit_infinite_loop o'
    = CLI.exit_infinite_loop o || CLI.has_option "x" items /\
    CLI.warnings o' =
    CLI.warnings o
    ++ map (fun v => log_warn "Invalid argument for option -l / --log-level: %s"
                              (ArgStr v))
           (CLI.invalid_levels items).
Proof.
  induction items as [| [c value | own | value] rest IH];
    intros arg_num o o' H.
  - injection H as <-. cbn. rewrite !orb_false_r, app_nil_r.
    repeat split.
  - cbn [CLI.argp_parse_options] in H.
    destruct (Ascii.eqb c "?"); [discriminate H |].
    destruct (parse_opt_option c value arg_num o)
      as [[Hk Hp] | [Hk (o1 & Hp & Ha & Ht & Hb & Hx & Hw)]];
      rewrite Hk in H; [discriminate H |].
    rewrite Hp in H.
    destruct (IH _ _ _ H) as (Hall & Ha' & Ht' & Hb' & Hx' & Hw').
    cbn [forallb CLI.known_item CLI.has_option existsb CLI.invalid_levels
         flat_map].
    fold (CLI.has_option "t" rest). fold (CLI.has_option "b" rest).
    fold (CLI.has_option "x" rest). fold (CLI.invalid_levels rest).
    rewrite Hk, Hall, Ha', Ht', Hb', Hx', Hw', Ha, Ht, Hb, Hx, Hw, map_app,
      <- !orb_assoc, <- app_assoc.
    repeat split.
    destruct (CLI.invalid_level c value); reflexivity.
  - destruct own; [discriminate H | |]; apply (IH _ _ _ H).
  - apply (IH _ _ _ H).
Qed.

(** Conversely such options are let through. *)
Lemma argp_parse_options_accepts (items : list CLI.cli_item) :
  forall (arg_num : nat) (o : CLI.options),
    forallb CLI.known_item items = true ->
    exists o', argp_parse_options items arg_num o = CLI.Parsed o'.
Proof.
  induction items as [| [c value | own | value] rest IH];
    intros arg_num o Hall.
  - eexists. reflexivity.
  - cbn [forallb CLI.known_item] in Hall. apply andb_true_iff in Hall.
    destruct Hall as [Hk Hall]. cbn [CLI.argp_parse_options].
    rewrite (known_option_not_help c Hk), Hk.
    destruct (parse_opt_option c value arg_num o)
      as [[Hk' Hp] | [_ (o1 & Hp & _)]]; [congruence |].
    rewrite Hp. now apply IH.
  - destruct own; [discriminate Hall | |]; now apply IH.
  - now apply IH.
Qed.

(** The options that are not let through: argp exits with status 0 when
    the first of them asks for the help or usage message, with its error
    status otherwise. *)
Lemma argp_parse_options_exit (items : list CLI.cli_item) :
  forall (arg_num : nat) (o : CLI.options),
    forallb CLI.known_item items = false ->
    argp_parse_options items arg_num o =
    CLI.Exited (if CLI.help_comes_first items then 0
                else CLI.argp_err_exit_status).
Proof.
  induction items as [| [c value | own | value] rest IH];
    intros arg_num o Hall.
  - discriminate Hall.
  - cbn [forallb CLI.known_item] in Hall.
    cbn [CLI.argp_parse_options CLI.help_comes_first CLI.known_item
         CLI.asks_help].
    destruct (parse_opt_option c value arg_num o)
      as [[Hk Hp] | [Hk (o1 & Hp & _)]]; rewrite Hk in *.
    + destruct (Ascii.eqb c "?"); reflexivity.
    + rewrite (known_option_not_help c Hk), Hp. now apply IH.
  - destruct own; [reflexivity | |]; now apply IH.
  - now apply IH.
Qed.

(** The positional arguments that are let through number
    [GBEMU_NB_ARGS] or one more in all; they are stored at their
    indices and nothing else changes. *)
Lemma argp_parse_args_parsed (vs : list string) :
  forall (arg_num : nat) (o o' : CLI.options),
    argp_parse_args vs arg_num o = CLI.Parsed o' ->
    (GBEMU_NB_ARGS <= arg_num + List.length vs)%nat /\
    (vs = [] \/ arg_num + List.length vs <= S GBEMU_NB_ARGS)%nat /\
    CLI.trace o' = CLI.trace o /\
    CLI.blargg o' = CLI.blargg o /\
    CLI.exit_infinite_loop o' = CLI.exit_infinite_loop o /\
    CLI.warnings o' = CLI.warnings o /\
    forall i,
      CLI.args_at i (CLI.args o') =
      if (i <? arg_num)%nat then CLI.args_at i (CLI.args o)
      else match nth_error vs (i - arg_num) with
           | Some v => Some v
           | None => CLI.args_at i (CLI.args o)
           end.
Proof.
  induction vs as [| value rest IH]; intros arg_num o o' H.
  - cbn -[Nat.ltb] in H.
    destruct (Nat.ltb_spec arg_num GBEMU_NB_ARGS); [discriminate H |].
    injection H as <-. cbn -[Nat.ltb].
    repeat split; try lia; auto.
    intros i. destruct (i <? arg_num)%nat; [reflexivity |].
    now destruct (i - arg_num)%nat.
  - cbn -[Nat.ltb] in H.
    destruct (Nat.ltb_spec GBEMU_NB_ARGS arg_num); [discriminate H |].
    destruct (IH _ _ _ H) as (Hmin & Hmax & Ht' & Hb' & Hx' & Hw' & Ha').
    cbn [List.length].
    repeat split; try assumption; try lia.
    + right. destruct Hmax as [Hnil | Hmax]; [rewrite Hnil; cbn |]; lia.
    + intros i. rewrite Ha'. cbn -[Nat.ltb Nat.eqb].
      destruct (Nat.ltb_spec i (S arg_num)) as [Hlt | Hge].
      * destruct (Nat.eqb_spec i arg_num) as [-> | Hne].
        -- rewrite Nat.ltb_irrefl, Nat.sub_diag. reflexivity.
        -- destruct (Nat.ltb_spec i arg_num); [reflexivity | lia].
      * destruct (Nat.ltb_spec i arg_num); [lia |].
        replace (i - arg_num)%nat with (S (i - S arg_num)) by lia.
        cbn [nth_error].
        destruct (nth_error rest (i - S arg_num)); [reflexivity |].
        destruct (Nat.eqb_spec i arg_num); [lia | reflexivity].
Qed.

(** The positional arguments are let through or end in the usage
    message. *)
Lemma argp_parse_args_outcome (vs : list string) :
  forall (arg_num : nat) (o : CLI.options),
    argp_parse_args vs arg_num o = CLI.Exited CLI.argp_err_exit_status \/
    exists o', argp_parse_args vs arg_num o = CLI.Parsed o'.
Proof.
  induction vs as [| value rest IH]; intros arg_num o; cbn -[Nat.ltb].
  - destruct (Nat.ltb_spec arg_num GBEMU_NB_ARGS); [left | right; eexists];
      reflexivity.
  - destruct (Nat.ltb_spec GBEMU_NB_ARGS arg_num); [left; reflexivity | apply IH].
Qed.

(** A command line that is let through: every option is known, the
    positional arguments number [GBEMU_NB_ARGS] or one more in all, and
    the options returned hold the flags given, the positional arguments
    at their indices and one warning per invalid log level. *)
Lemma argp_parse_parsed (items : list CLI.cli_item) :
  forall (arg_num : nat) (o o' : CLI.options),
    argp_parse items arg_num o = CLI.Parsed o' ->
    forallb CLI.known_item items = true /\
    (GBEMU_NB_ARGS <= arg_num + List.length (CLI.positionals items))%nat /\
    (CLI.positionals items = [] \/
     arg_num + List.length (CLI.positionals items) <= S GBEMU_NB_ARGS)%nat /\
    CLI.trace o' = CLI.trace o || CLI.has_option "t" items /\
    CLI.blargg o' = CLI.blargg o || CLI.has_option "b" items /\
    CLI.exit_infinite_loop o'
    = CLI.exit_infinite_loop o || CLI.has_option "x" items /\
    CLI.warnings o' =
    CLI.warnings o
    ++ map (fun v => log_warn "Invalid argument for option -l / --log-level: %s"
                              (ArgStr v))
           (CLI.invalid_levels items) /\
    forall i,
      CLI.args_at i (CLI.args o') =
      if (i <? arg_num)%nat then CLI.args_at i (CLI.args o)
      else match nth_error (CLI.positionals items) (i - arg_num) with
           | Some v => Some v
           | None => CLI.args_at i (CLI.args o)
           end.
Proof.
  intros arg_num o o' H. unfold CLI.argp_parse in H.
  destruct (argp_parse_options items arg_num o) as [o1 | code] eqn:Hopts;
    [| discriminate H].
  destruct (argp_parse_options_parsed _ _ _ _ Hopts)
    as (Hall & Ha & Ht & Hb & Hx & Hw).
  destruct (argp_parse_args_parsed _ _ _ _ H)
    as (Hmin & Hmax & Ht' & Hb' & Hx' & Hw' & Ha').
  rewrite Ht', Hb', Hx', Hw', Ht, Hb, Hx, Hw.
  repeat split; try assumption.
  intros i. rewrite Ha', Ha. reflexivity.
Qed.

(** Conversely a command line of known options with the right number of
    positional arguments is let through. *)
Lemma argp_parse_accepts_items (items : list CLI.cli_item) :
  forall (arg_num : nat) (o : CLI.options),
    forallb CLI.known_item items = true ->
    (GBEMU_NB_ARGS <= arg_num + List.length (CLI.positionals items))%nat ->
    (CLI.positionals items = [] \/
     arg_num + List.length (CLI.positionals items) <= S GBEMU_NB_ARGS)%nat ->
    exists o', argp_parse items arg_num o = CLI.Parsed o'.
Proof.
  intros arg_num o Hall Hmin Hmax. unfold CLI.argp_parse.
  destruct (argp_parse_options_accepts items arg_num o Hall) as [o1 ->].
  destruct (argp_parse_args_outcome (CLI.positionals items) arg_num o1)
    as [Hexit | Hok]; [exfalso | exact Hok].
  destruct Hmax as [Hnil | Hmax].
  - rewrite Hnil in *. cbn -[Nat.ltb] in *.
    destruct (Nat.ltb_spec arg_num GBEMU_NB_ARGS); [lia | discriminate Hexit].
  - destruct (argp_parse_args_accepts GBEMU_NB_ARGS (CLI.positionals items)
                arg_num o1 Hmax Hmin) as (o' & Ho' & _).
    congruence.
Qed.

(** Every refusal is an exit of argp: with status 0 after the help or
    usage message when an option asking for it comes before any option
    that is not known, with the error status otherwise. *)
Lemma argp_parse_outcome (items : list CLI.cli_item) :
  forall (arg_num : nat) (o : CLI.options),
    argp_parse items arg_num o =
    CLI.Exited (if CLI.help_comes_first items then 0
                else CLI.argp_err_exit_status) \/
    exists o', argp_parse items arg_num o = CLI.Parsed o'.
Proof.
  intros arg_num o. unfold CLI.argp_parse.
  destruct (forallb CLI.known_item items) eqn:Hall.
  - destruct (argp_parse_options_accepts items arg_num o Hall) as [o1 ->].
    assert (CLI.help_comes_first items = false) as ->.
    { clear -Hall. induction items as [| i rest IH]; [reflexivity |].
      cbn [forallb] in Hall. apply andb_true_iff in Hall.
      destruct Hall as [Hi Hall]. cbn [CLI.help_comes_first].
      rewrite Hi. now apply IH. }
    apply argp_parse_args_outcome.
  - left. now rewrite argp_parse_options_exit.
Qed.

(** X22: [parse_options] returns the options struct exactly for the
    command lines whose options are all among t, x, b, s, l, g (or the
    hidden --program-name and --HANG of argp) and whose positional
    arguments number [GBEMU_NB_ARGS] or [GBEMU_NB_ARGS + 1]; every other
    command line ends in an exit of argp: with status 0, after the help
    or usage message, when -?, --help or --usage comes before any option
    that is not known, with the usage status 64 otherwise. *)
Theorem parse_options_accepted_iff (items : list CLI.cli_item) :
  ((exists o, CLI.parse_options GBEMU_NB_ARGS items = CLI.Parsed o) <->
   forallb CLI.known_item items = true /\
   (List.length (CLI.positionals items) = GBEMU_NB_ARGS \/
    List.length (CLI.positionals items) = S GBEMU_NB_ARGS)) /\
  ((exists o, CLI.parse_options GBEMU_NB_ARGS items = CLI.Parsed o) \/
   CLI.parse_options GBEMU_NB_ARGS items =
   CLI.Exited (if CLI.help_comes_first items then 0
               else CLI.argp_err_exit_status)).
Proof.
  unfold CLI.parse_options. split; [split |].
  - intros [o Ho].
    destruct (argp_parse_parsed _ _ _ _ Ho) as (Hall & Hmin & Hmax & _).
    split; [exact Hall |].
    destruct Hmax as [Hnil | Hmax]; [rewrite Hnil in *; cbn in *; lia | lia].
  - intros [Hall Hcount]. apply argp_parse_accepts_items; [exact Hall | lia |].
    destruct (CLI.positionals items); [left; reflexivity | right; cbn in *; lia].
  - destruct (argp_parse_outcome items 0 CLI.get_options); auto.
Qed.

(** X23: in the options returned, [trace], [blargg] and
    [exit_infinite_loop] tell whether -t, -b and -x occur on the command
    line. *)
Theorem parse_options_flags (items : list CLI.cli_item) (o : CLI.options) :
  CLI.parse_options GBEMU_NB_ARGS items = CLI.Parsed o ->
  CLI.trace o = CLI.has_option "t" items /\
  CLI.blargg o = CLI.has_option "b" items /\
  CLI.exit_infinite_loop o = CLI.has_option "x" items.
Proof.
  intros H. destruct (argp_parse_parsed _ _ _ _ H)
    as (_ & _ & _ & Ht & Hb & Hx & _).
  auto.
Qed.

(** X24: in the options returned, [args] holds the positional arguments
    of the command line, each at its index, and nothing at any other
    index. *)
Theorem parse_options_args (items : list CLI.cli_item) (o : CLI.options)
        (i : nat) :
  CLI.parse_options GBEMU_NB_ARGS items = CLI.Parsed o ->
  CLI.args_at i (CLI.args o) = nth_error (CLI.positionals items) i.
Proof.
  intros H. destruct (argp_parse_parsed _ _ _ _ H)
    as (_ & _ & _ & _ & _ & _ & _ & Ha).
  rewrite Ha. cbn -[nth_error]. rewrite Nat.sub_0_r.
  now destruct (nth_error (CLI.positionals items) i).
Qed.

(** X25: parsing logs one warning for each -l option whose level is none
    of TRACE, WARNING and ERROR, in order, and nothing else. *)
Theorem parse_options_warnings (items : list CLI.cli_item) (o : CLI.options) :
  CLI.parse_options GBEMU_NB_ARGS items = CLI.Parsed o ->
  CLI.warnings o =
  map (fun v => log_warn "Invalid argument for option -l / --log-level: %s"
                         (ArgStr v))
      (CLI.invalid_levels items).
Proof.
  intros H. destruct (argp_parse_parsed _ _ _ _ H)
    as (_ & _ & _ & _ & _ & _ & Hw & _).
  exact Hw.
Qed.

End ParserProperties.

Lemma parse_options_flags_witness :
  CLI.parse_options 1 [CLI.Opt "b" ""; CLI.Arg "rom.gb"; CLI.Opt "t" ""]
  = CLI.Parsed
      (CLI.set_trace (CLI.set_arg 0 "rom.gb" (CLI.set_blargg CLI.get_options)))
  /\
  CLI.trace
    (CLI.set_trace (CLI.set_arg 0 "rom.gb" (CLI.set_blargg CLI.get_options)))
  = true /\
  CLI.blargg
    (CLI.set_trace (CLI.set_arg 0 "rom.gb" (CLI.set_blargg CLI.get_options)))
  = true /\
  CLI.exit_infinite_loop
    (CLI.set_trace (CLI.set_arg 0 "rom.gb" (CLI.set_blargg CLI.get_options)))
  = false.
Proof.
  split; [reflexivity |].
  apply (parse_options_flags 1
           [CLI.Opt "b" ""; CLI.Arg "rom.gb"; CLI.Opt "t" ""]).
  reflexivity.
Defined.

Lemma parse_options_args_witness :
  CLI.parse_options 1 [CLI.Opt "b" ""; CLI.Arg "rom.gb"; CLI.Opt "t" ""]
  = CLI.Parsed
      (CLI.set_trace (CLI.set_arg 0 "rom.gb" (CLI.set_blargg CLI.get_options)))
  /\
  CLI.args_at 0
    (CLI.args
       (CLI.set_trace (CLI.set_arg 0 "rom.gb" (CLI.set_blargg CLI.get_options))))
  = Some "rom.gb".
Proof.
  split; [reflexivity |].
  apply (parse_options_args 1
           [CLI.Opt "b" ""; CLI.Arg "rom.gb"; CLI.Opt "t" ""] _ 0).
  reflexivity.
Defined.

(** The level INFO is not among those [-l] knows: it is warned about. *)
Lemma parse_options_warnings_witness :
  exists o,
    CLI.parse_options 1 [CLI.Opt "l" "INFO"; CLI.Arg "rom.gb"] = CLI.Parsed o /\
    CLI.warnings o
    = [log_warn "Invalid argument for option -l / --log-level: %s"
                (ArgStr "INFO")].
Proof.
  eexists. split; [reflexivity |].
  apply (parse_options_warnings 1 [CLI.Opt "l" "INFO"; CLI.Arg "rom.gb"]).
  reflexivity.
Defined.

(** The help option before the cartridge, and after too many of them:
    argp answers it first and exits with status 0. *)
Lemma parse_options_help :
  CLI.parse_options 1 [CLI.Opt "?" ""; CLI.Arg "rom.gb"] = CLI.Exited 0 /\
  CLI.parse_options 1 [CLI.Arg "a.gb"; CLI.Arg "b.gb"; CLI.Arg "c.gb";
                       CLI.Own CLI.OPT_USAGE] = CLI.Exited 0 /\
  CLI.parse_options 1 [CLI.Opt "z" ""; CLI.Opt "?" ""; CLI.Arg "rom.gb"]
  = CLI.Exited CLI.argp_err_exit_status.
Proof. repeat split. Qed.

(* ================================================================== *)
(** * Further properties of the main loop *)

Section MainLoopRuns.

Variable World : Type.
Variables is_running halt : World -> bool.
Variables timer_tick execute_instruction handle_interrupts : World -> World.
Variables test_rom_update test_rom_print : World -> World.

Local Abbreviation loop_body :=
  (Main.loop_body World halt timer_tick execute_instruction handle_interrupts
                  test_rom_update test_rom_print).
Local Abbreviation main_loop :=
  (Main.main_loop World is_running halt timer_tick execute_instruction
                  handle_interrupts test_rom_update test_rom_print).
Local Abbreviation iterations :=
  (Main.iterations World halt timer_tick execute_instruction
                   handle_interrupts test_rom_update test_rom_print).

Lemma iterations_entered_count (trace : list Main.event) :
  Main.iterations_entered trace = Main.count_events Main.is_entry trace.
Proof. reflexivity. Qed.

Lemma count_events_app (p : Main.event -> bool) (t1 t2 : list Main.event) :
  Main.count_events p (t1 ++ t2)
  = (Main.count_events p t1 + Main.count_events p t2)%nat.
Proof. unfold Main.count_events. now rewrite filter_app, length_app. Qed.

(** The counts of one turn of the body. *)
Lemma loop_body_counts (blargg : bool) (w : World) :
  let body := snd (loop_body blargg w) in
  Main.count_events Main.is_entry body = 0%nat /\
  Main.count_events Main.is_work body = 1%nat /\
  Main.count_events Main.is_interrupt_check body = 1%nat /\
  Main.count_events Main.is_test_rom_update body = (if blargg then 1 else 0)%nat /\
  Main.count_events Main.is_test_rom_print body = (if blargg then 1 else 0)%nat.
Proof.
  cbv zeta. rewrite loop_body_events.
  destruct (halt w), blargg; repeat split.
Qed.

(** X26: in every run of the loop, ended or cut short, the units of work
    (timer ticks and instructions together) and the interrupt checks both
    number the iterations entered; the test-ROM update and print are
    called once per iteration in blargg mode and never otherwise. *)
Theorem main_loop_one_unit_per_iteration (fuel : nat) (blargg : bool)
        (w : World) :
  let trace := snd (fst (main_loop fuel blargg w)) in
  Main.count_events Main.is_work trace = Main.iterations_entered trace /\
  Main.count_events Main.is_interrupt_check trace
  = Main.iterations_entered trace /\
  Main.count_events Main.is_test_rom_update trace
  = (if blargg then Main.iterations_entered trace else 0)%nat /\
  Main.count_events Main.is_test_rom_print trace
  = (if blargg then Main.iterations_entered trace else 0)%nat /\
  (Main.iterations_entered trace <= fuel)%nat.
Proof.
  cbv zeta. rewrite iterations_entered_count.
  revert w. induction fuel as [| fuel IH]; intros w.
  - cbn. destruct blargg; repeat split; lia.
  - destruct (is_running w) eqn:Hflag.
    + rewrite main_loop_step by exact Hflag. cbn [fst snd].
      destruct (IH (fst (loop_body blargg w))) as (Hw & Hi & Hu & Hp & Hn).
      destruct (loop_body_counts blargg w) as (Be & Bw & Bi & Bu & Bp).
      change (Main.TestIsRunning true :: ?l) with ([Main.TestIsRunning true] ++ l).
      rewrite !count_events_app, Hw, Hi, Hu, Hp, Be, Bw, Bi, Bu, Bp.
      destruct blargg; cbn; repeat split; lia.
    + rewrite main_loop_stop by exact Hflag. cbn.
      destruct blargg; repeat split; lia.
Qed.

(** X27: if the running flag is first clear after [k] turns of the body,
    the loop ends after exactly [k] iterations in the state they lead to,
    whatever bound above [k] is put on its length. *)
Theorem main_loop_exits_after (k fuel : nat) (blargg : bool) (w : World) :
  is_running (iterations k blargg w) = false ->
  (forall j, (j < k)%nat -> is_running (iterations j blargg w) = true) ->
  (k < fuel)%nat ->
  fst (fst (main_loop fuel blargg w)) = iterations k blargg w /\
  snd (main_loop fuel blargg w) = Main.LoopExited /\
  Main.iterations_entered (snd (fst (main_loop fuel blargg w))) = k.
Proof.
  revert fuel w. induction k as [| k IH]; intros fuel w Hstop Hrun Hfuel;
    (destruct fuel as [| fuel]; [lia |]).
  - cbn [Main.iterations] in Hstop. rewrite main_loop_stop by exact Hstop.
    repeat split.
  - assert (is_running w = true) as Hflag by (apply (Hrun 0%nat); lia).
    rewrite main_loop_step by exact Hflag. cbn [fst snd].
    destruct (IH fuel (fst (loop_body blargg w))) as (Hw & Hs & Hn).
    + exact Hstop.
    + intros j Hj. apply (Hrun (S j)). lia.
    + lia.
    + split; [exact Hw |]. split; [exact Hs |].
      rewrite iterations_entered_count in *.
      change (Main.TestIsRunning true :: ?l) with ([Main.TestIsRunning true] ++ l).
      rewrite !count_events_app, Hn.
      destruct (loop_body_counts blargg w) as (Be & _). rewrite Be.
      reflexivity.
Qed.

(** X28: if the running flag is set after every number of turns of the
    body, the loop never ends: each bound on its length is used up. *)
Theorem main_loop_never_exits (fuel : nat) (blargg : bool) (w : World) :
  (forall j, is_running (iterations j blargg w) = true) ->
  fst (fst (main_loop fuel blargg w)) = iterations fuel blargg w /\
  snd (main_loop fuel blargg w) = Main.LoopStillRunning /\
  Main.iterations_entered (snd (fst (main_loop fuel blargg w))) = fuel.
Proof.
  revert w. induction fuel as [| fuel IH]; intros w Hrun.
  - repeat split.
  - assert (is_running w = true) as Hflag by apply (Hrun 0%nat).
    rewrite main_loop_step by exact Hflag. cbn [fst snd].
    destruct (IH (fst (loop_body blargg w))) as (Hw & Hs & Hn).
    { intros j. apply (Hrun (S j)). }
    split; [exact Hw |]. split; [exact Hs |].
    rewrite iterations_entered_count in *.
    change (Main.TestIsRunning true :: ?l) with ([Main.TestIsRunning true] ++ l).
    rewrite !count_events_app, Hn.
    destruct (loop_body_counts blargg w) as (Be & _). rewrite Be.
    reflexivity.
Qed.

(** A loop that has ended has seen the flag clear, last of all. *)
Lemma main_loop_exited (fuel : nat) :
  forall (blargg : bool) (w w' : World) (trace : list Main.event),
    main_loop fuel blargg w = (w', trace, Main.LoopExited) ->
    is_running w' = false /\
    exists front, trace = front ++ [Main.TestIsRunning false].
Proof.
  induction fuel as [| fuel IH]; intros blargg w w' trace H.
  - discriminate H.
  - destruct (is_running w) eqn:Hflag.
    + rewrite main_loop_step in H by exact Hflag.
      destruct (main_loop fuel blargg (fst (loop_body blargg w)))
        as [[w'' rest] status] eqn:Hrest.
      cbn [fst snd] in H. injection H as <- <- ->.
      destruct (IH _ _ _ _ Hrest) as (Hclear & front & ->).
      split; [exact Hclear |].
      exists (Main.TestIsRunning true :: snd (loop_body blargg w) ++ front).
      cbn [app]. now rewrite app_assoc.
    + rewrite main_loop_stop in H by exact Hflag. injection H as <- <-.
      split; [exact Hflag |]. now exists [].
Qed.

(** The loop makes none of the calls that come before it. *)
Lemma main_loop_no_setup (fuel : nat) :
  forall (blargg : bool) (w : World),
    Main.count_events Main.is_setup (snd (fst (main_loop fuel blargg w)))
    = 0%nat.
Proof.
  induction fuel as [| fuel IH]; intros blargg w.
  - reflexivity.
  - destruct (is_running w) eqn:Hflag.
    + rewrite main_loop_step by exact Hflag. cbn [fst snd].
      change (Main.TestIsRunning true :: ?l) with ([Main.TestIsRunning true] ++ l).
      rewrite !count_events_app, IH, loop_body_events.
      destruct (halt w), blargg; reflexivity.
    + rewrite main_loop_stop by exact Hflag. reflexivity.
Qed.

End MainLoopRuns.

Section EntryPointRuns.

Variable fopen : string -> option (list Z).
Variable malloc_contents : Z -> list Z.
Variable header_title : list Z -> result string.
Variables header_rom_size header_ram_size header_rom_version header_type
  : list Z -> result Z.
Variables ROM_ONLY MBC1 MBC2 : Z.
Variable Chip : Type.
Variable check_multicart
  : Cartridge.cartridge_t * Chip -> Cartridge.cartridge_t * Chip.
Variable nintendo_logo : list Z.
Variable Machine : Type.

Local Abbreviation World := (Main.World Chip Machine).

Variables is_running halt : World -> bool.
Variables timer_tick execute_instruction handle_interrupts : World -> World.
Variables test_rom_update test_rom_print : World -> World.
Variables reset_cpu reset_timer : World -> World.
Variable GBEMU_NB_ARGS : nat.

Local Abbreviation main_loop :=
  (Main.main_loop World is_running halt timer_tick execute_instruction
                  handle_interrupts test_rom_update test_rom_print).
Local Abbreviation main :=
  (Main.main fopen malloc_contents header_title header_rom_size
             header_ram_size header_rom_version header_type ROM_ONLY MBC1 MBC2
             Chip check_multicart nintendo_logo Machine
             is_running halt timer_tick execute_instruction
             handle_interrupts test_rom_update test_rom_print
             reset_cpu reset_timer GBEMU_NB_ARGS).

(** X29: when [main] returns, it returns 0, the running flag is clear and
    the last thing done was a test of the flag; the cartridge load,
    [cartridge_info] and the two resets came first, in this order and once
    each, whether or not the cartridge was loaded. *)
Theorem main_returns_zero (fuel : nat) (argv : list CLI.cli_item)
        (w w' : World) (trace : list Main.event) (code : Z) :
  main fuel argv w = (w', trace, Main.MainReturned code) ->
  code = 0 /\ is_running w' = false /\
  exists path loaded middle,
    trace =
    [Main.CallLoadCartridge path loaded; Main.CallCartridgeInfo;
     Main.CallResetCpu; Main.CallResetTimer]
    ++ middle ++ [Main.TestIsRunning false] /\
    Main.count_events Main.is_setup middle = 0%nat.
Proof.
  unfold Main.main. intros H.
  destruct (CLI.parse_options GBEMU_NB_ARGS argv) as [options | c];
    [| discriminate H].
  destruct (CLI.args_at 0 (CLI.args options)) as [path |]; [| discriminate H].
  destruct (Cartridge.load_cartridge _ _ _ _ _ _ _ _ _ _ path (fst w))
    as [[loaded st] | | |]; try discriminate H.
  destruct (Cartridge.cartridge_info _ _ _ _ _ _) as [text | | |];
    try discriminate H.
  pose proof (main_loop_no_setup World is_running halt timer_tick
                execute_instruction handle_interrupts test_rom_update
                test_rom_print fuel (CLI.blargg options)
                (reset_timer (reset_cpu (st, snd w)))) as Hsetup.
  destruct (main_loop fuel (CLI.blargg options) _) as [[w5 tr] status] eqn:Hloop.
  destruct status; [| discriminate H].
  injection H as <- <- <-.
  destruct (main_loop_exited World is_running halt timer_tick
              execute_instruction handle_interrupts test_rom_update
              test_rom_print _ _ _ _ _ Hloop) as (Hclear & front & ->).
  split; [reflexivity |]. split; [exact Hclear |].
  exists (Some path), loaded, front.
  split; [reflexivity |].
  cbn [fst snd] in Hsetup.
  rewrite (count_events_app Main.is_setup front) in Hsetup. lia.
Qed.

(** X30: on a command line with an option that is not known, or whose
    positional arguments number neither [GBEMU_NB_ARGS] nor one more,
    [main] ends in the exit of argp: no function of the emulator is
    called and the machine is left as it was.  The exit status is 0,
    after the help or usage message, when -?, --help or --usage comes
    before any other option that is not known, and the usage status 64
    otherwise. *)
Theorem main_refuses_command_line (fuel : nat) (argv : list CLI.cli_item)
        (w : World) :
  forallb CLI.known_item argv = false \/
  (List.length (CLI.positionals argv) <> GBEMU_NB_ARGS /\
   List.length (CLI.positionals argv) <> S GBEMU_NB_ARGS) ->
  main fuel argv w =
  (w, [],
   Main.ExitedInParse (if CLI.help_comes_first argv then 0
                       else CLI.argp_err_exit_status)).
Proof.
  intros Hbad. unfold Main.main, CLI.parse_options.
  destruct (argp_parse_outcome GBEMU_NB_ARGS argv 0 CLI.get_options)
    as [-> | [o Ho]]; [reflexivity | exfalso].
  destruct (argp_parse_parsed _ _ _ _ _ Ho) as (Hall & Hmin & Hmax & _).
  destruct Hbad as [Hbad | [Hn Hs]]; [congruence |].
  destruct Hmax as [Hnil | Hmax]; [rewrite Hnil in *; cbn in *; lia | lia].
Qed.

End EntryPointRuns.

(** The countdown from 2: the flag is first clear after two turns. *)
Lemma main_loop_exits_after_witness :
  fst (fst (Main.toy_main_loop 5 false (2%nat, false))) = (0%nat, false) /\
  snd (Main.toy_main_loop 5 false (2%nat, false)) = Main.LoopExited /\
  Main.iterations_entered (snd (fst (Main.toy_main_loop 5 false (2%nat, false))))
  = 2%nat.
Proof.
  apply (main_loop_exits_after
           Main.toy_world (fun w => Nat.ltb 0 (fst w)) snd
           Main.toy_step Main.toy_step (fun w => w) (fun w => w) (fun w => w)
           2 5 false (2%nat, false)).
  - reflexivity.
  - intros j Hj. destruct j as [| [| j]]; [reflexivity | reflexivity | lia].
  - lia.
Defined.

(** A flag that is always set: four iterations out of a bound of four. *)
Lemma main_loop_never_exits_witness :
  snd (Main.toy_endless_loop 4 false (0%nat, true)) = Main.LoopStillRunning /\
  Main.iterations_entered (snd (fst (Main.toy_endless_loop 4 false (0%nat, true))))
  = 4%nat.
Proof.
  apply (main_loop_never_exits
           Main.toy_world (fun _ => true) snd
           Main.toy_step Main.toy_step (fun w => w) (fun w => w) (fun w => w)
           4 false (0%nat, true)).
  intros j. reflexivity.
Defined.

(** The toy machine started on the image of zeros, which loads: [main]
    returns 0 after the two iterations of the countdown. *)
Lemma main_returns_zero_witness :
  snd (Main.toy_main 3 [CLI.Arg "zeros.gb"] Main.toy_start)
  = Main.MainReturned 0 /\
  snd (fst (Main.toy_main 3 [CLI.Arg "zeros.gb"] Main.toy_start))
  = [Main.CallLoadCartridge (Some "zeros.gb") true; Main.CallCartridgeInfo;
     Main.CallResetCpu; Main.CallResetTimer;
     Main.TestIsRunning true; Main.CallExecuteInstruction;
     Main.CallHandleInterrupts;
     Main.TestIsRunning true; Main.CallExecuteInstruction;
     Main.CallHandleInterrupts;
     Main.TestIsRunning false] /\
  0 = 0 /\
  Nat.ltb 0 (fst (snd (fst (fst (Main.toy_main 3 [CLI.Arg "zeros.gb"]
                                               Main.toy_start))))) = false.
Proof.
  split; [vm_compute; reflexivity |]. split; [vm_compute; reflexivity |].
  destruct (main_returns_zero
              Cartridge.toy_files (fun size => repeat 0 (Z.to_nat size))
              (fun buffer => Cartridge.c_string (skipn 0x0134 buffer))
              (Cartridge.header_byte 0x0148) (Cartridge.header_byte 0x0149)
              (Cartridge.header_byte 0x014C) (Cartridge.header_byte 0x0147)
              0 3 6 unit (fun s => s) Cartridge.sample_logo Main.toy_world
              (fun w => Nat.ltb 0 (fst (snd w))) (fun w => snd (snd w))
              (Main.on_machine Main.toy_step) (Main.on_machine Main.toy_step)
              (fun w => w) (fun w => w) (fun w => w)
              (Main.on_machine (fun _ => (2%nat, false))) (fun w => w) 1
              3 [CLI.Arg "zeros.gb"] Main.toy_start
              (fst (fst (Main.toy_main 3 [CLI.Arg "zeros.gb"] Main.toy_start)))
              (snd (fst (Main.toy_main 3 [CLI.Arg "zeros.gb"] Main.toy_start)))
              0) as (Hcode & Hflag & _).
  - vm_compute. reflexivity.
  - split; [exact Hcode | exact Hflag].
Defined.

(** No cartridge on the command line: the usage status. *)
Lemma main_refuses_command_line_witness :
  (List.length (CLI.positionals [CLI.Opt "t" ""]) <> 1%nat /\
   List.length (CLI.positionals [CLI.Opt "t" ""]) <> 2%nat) /\
  Main.toy_main 3 [CLI.Opt "t" ""] Main.toy_start
  = (Main.toy_start, [], Main.ExitedInParse CLI.argp_err_exit_status).
Proof.
  split; [cbn; lia |].
  apply (main_refuses_command_line
           Cartridge.toy_files (fun size => repeat 0 (Z.to_nat size))
           (fun buffer => Cartridge.c_string (skipn 0x0134 buffer))
           (Cartridge.header_byte 0x0148) (Cartridge.header_byte 0x0149)
           (Cartridge.header_byte 0x014C) (Cartridge.header_byte 0x0147)
           0 3 6 unit (fun s => s) Cartridge.sample_logo Main.toy_world
           (fun w => Nat.ltb 0 (fst (snd w))) (fun w => snd (snd w))
           (Main.on_machine Main.toy_step) (Main.on_machine Main.toy_step)
           (fun w => w) (fun w => w) (fun w => w)
           (Main.on_machine (fun _ => (2%nat, false))) (fun w => w) 1
           3 [CLI.Opt "t" ""] Main.toy_start).
  right. cbn. lia.
Defined.

(** The help option in front of the cartridge: [main] ends with
    status 0 before anything is loaded. *)
Lemma main_prints_help :
  Main.toy_main 3 [CLI.Opt "?" ""; CLI.Arg "rom.gb"] Main.toy_start
  = (Main.toy_start, [], Main.ExitedInParse 0).
Proof. reflexivity. Qed.
